(** * SocialNetworkGraphs-ts: a shallow embedding of [CapNode] and [CapGraph]

    The development follows [src/core/CapNode.ts], [src/core/CapGraph.ts]
    and [src/algorithms/TrendSetterComparator.ts].

    Modelling conventions.
    - Vertex identifiers are JavaScript numbers that the loader parses from
      integer literals; they are modelled as [Z].
    - A JavaScript [Map<number, CapNode>] iterates in insertion order and
      [set] on an existing key keeps the key's position: it is modelled as an
      association list with that discipline ([map_get], [map_set]).
    - A JavaScript array is a [list]; [push] appends, [unshift] prepends,
      [pop] removes the last element, [shift] the first.
    - A [Set<number>] that is only queried with [has] and grown with [add]
      is a [gset Z]; a set that is also iterated is an insertion-ordered list.
    - A method that mutates [this] is a function from the graph to an
      outcome and the graph after the call; a thrown [Error] does not roll
      back the mutations made before it.
    - [CapNode] objects are only reachable through the map of the graph that
      owns them, so a mutation of a node object is an in-place update of the
      map entry ([map_alter]). *)

From stdpp Require Import base option list gmap sets relations strings.
From Stdlib Require Import ZArith QArith Qround Lia.
From Stdlib Require PrimFloat Uint63.

Local Open Scope Z_scope.

(** ** Outcomes of calls *)

(** [getVertex] throws [new Error(`Vertex ${num} not found`)]. *)
Inductive Error : Type :=
  | VertexNotFound (num : Z).

(** A call returns, throws, or (in the model only) exhausts the recursion
    budget given to a recursive traversal. *)
Inductive outcome (A : Type) : Type :=
  | Ok (a : A)
  | Throw (e : Error)
  | OutOfFuel.

Arguments Ok {A} a.
Arguments Throw {A} e.
Arguments OutOfFuel {A}.

#[global] Instance outcome_ret : MRet outcome := fun A a => Ok a.
#[global] Instance outcome_bind : MBind outcome := fun A B f m =>
  match m with
  | Ok a => f a
  | Throw e => Throw e
  | OutOfFuel => OutOfFuel
  end.

(** [xs.forEach(x => body)] where the body may throw and updates a state. *)
Fixpoint forEachM {A S : Type} (body : A → S → outcome S) (xs : list A) (s : S)
  : outcome S :=
  match xs with
  | [] => Ok s
  | x :: xs' => s' ← body x s; forEachM body xs' s'
  end.

(** ** Insertion-ordered maps (JavaScript [Map]) *)

Section ordered_map.
Context {V : Type}.

Fixpoint map_get (m : list (Z * V)) (k : Z) : option V :=
  match m with
  | [] => None
  | (k', v) :: m' => if decide (k' = k) then Some v else map_get m' k
  end.

(** [m.set(k, v)]: overwrite in place, or append a new entry. *)
Fixpoint map_set (m : list (Z * V)) (k : Z) (v : V) : list (Z * V) :=
  match m with
  | [] => [(k, v)]
  | (k', v') :: m' =>
      if decide (k' = k) then (k, v) :: m' else (k', v') :: map_set m' k v
  end.

(** Mutation of the object stored under [k], when there is one. *)
Fixpoint map_alter (f : V → V) (m : list (Z * V)) (k : Z) : list (Z * V) :=
  match m with
  | [] => []
  | (k', v) :: m' =>
      if decide (k' = k) then (k', f v) :: m' else (k', v) :: map_alter f m' k
  end.

Definition map_keys (m : list (Z * V)) : list Z := m.*1.
End ordered_map.

(** ** Arrays *)

(** [xs.indexOf(x)]: the first index holding [x], or [-1]. *)
Fixpoint indexOf (xs : list Z) (x : Z) : Z :=
  match xs with
  | [] => -1
  | y :: xs' =>
      if decide (y = x) then 0
      else let i := indexOf xs' x in if decide (i = -1) then -1 else i + 1
  end.

(** [xs.splice(start, 1)], keeping the array that is left.  A negative
    [start] counts from the end of the array, as ECMAScript specifies. *)
Definition splice1 (xs : list Z) (start : Z) : list Z :=
  let len := Z.of_nat (length xs) in
  let actualStart :=
    if decide (start < 0) then Z.max (len + start) 0 else Z.min start len in
  delete (Z.to_nat actualStart) xs.

(** [xs.pop()]: the last element and the array without it. *)
Definition pop (xs : list Z) : option (Z * list Z) :=
  match reverse xs with
  | [] => None
  | x :: rest => Some (x, reverse rest)
  end.

(** [xs.includes(x)]. *)
Definition includes (xs : list Z) (x : Z) : bool := bool_decide (x ∈ xs).

(** ** CapNode *)

Record CapNode : Type := mkCapNode {
  name : Z;
  neighbors : list Z;
  followers : list Z;
  isTrendSetter : bool
}.

(** [new CapNode(name)]; [name || 0] is [name] for every integer. *)
Definition newCapNode (num : Z) : CapNode :=
  {| name := num; neighbors := []; followers := []; isTrendSetter := false |}.

Definition addFollower (follower : Z) (nd : CapNode) : CapNode :=
  {| name := name nd; neighbors := neighbors nd;
     followers := followers nd ++ [follower];
     isTrendSetter := isTrendSetter nd |}.

Definition addNeighbor (neighbor : Z) (nd : CapNode) : CapNode :=
  {| name := name nd; neighbors := neighbors nd ++ [neighbor];
     followers := followers nd; isTrendSetter := isTrendSetter nd |}.

Definition removeNeighbor_message : string :=
  "removeNeighbor couldn't find the object".

(** [removeNeighbor]: the node after the call and the lines written with
    [console.log].  The [splice] runs whether or not the index was found. *)
Definition removeNeighbor (neighbor : Z) (nd : CapNode) : CapNode * list string :=
  let index := indexOf (neighbors nd) neighbor in
  let log := if decide (index = -1) then [removeNeighbor_message] else [] in
  ({| name := name nd; neighbors := splice1 (neighbors nd) index;
      followers := followers nd; isTrendSetter := isTrendSetter nd |}, log).

Arguments removeNeighbor : simpl never.

Definition getNumNeighbors (nd : CapNode) : Z := Z.of_nat (length (neighbors nd)).

Definition setIsTrendSetter (b : bool) (nd : CapNode) : CapNode :=
  {| name := name nd; neighbors := neighbors nd; followers := followers nd;
     isTrendSetter := b |}.

(** ** CapGraph: the graph primitives *)

(** The [listMap] field.  The private [vertices] field is written by
    [getSCCs] and read nowhere else, so it is not part of the state. *)
Abbreviation CapGraph := (list (Z * CapNode)).

Definition emptyGraph : CapGraph := [].

Definition getVertex (g : CapGraph) (num : Z) : outcome CapNode :=
  match map_get g num with
  | Some vertex => Ok vertex
  | None => Throw (VertexNotFound num)
  end.

(** [new Set(this.listMap.keys())], in iteration order. *)
Definition getVertexIDs (g : CapGraph) : list Z := map_keys g.

Definition addVertex (num : Z) (g : CapGraph) : CapGraph :=
  map_set g num (newCapNode num).

(** [new CapGraph(node)] with an argument. *)
Definition newCapGraph (node : Z) : CapGraph := addVertex node emptyGraph.

(** [addEdge]: the forward entry is pushed before [to] is looked up. *)
Definition addEdge (from to : Z) (g : CapGraph) : outcome unit * CapGraph :=
  match getVertex g from with
  | Ok _ =>
      let g1 := map_alter (addNeighbor to) g from in
      match getVertex g1 to with
      | Ok _ => (Ok (), map_alter (addFollower from) g1 to)
      | Throw e => (Throw e, g1)
      | OutOfFuel => (OutOfFuel, g1)
      end
  | Throw e => (Throw e, g)
  | OutOfFuel => (OutOfFuel, g)
  end.

(** [removeEdge]: the outcome carries the console lines of the call. *)
Definition removeEdge (from to : Z) (g : CapGraph)
  : outcome (list string) * CapGraph :=
  match getVertex g from with
  | Ok fromNode =>
      (Ok (removeNeighbor to fromNode).2,
       map_alter (λ nd, (removeNeighbor to nd).1) g from)
  | Throw e => (Throw e, g)
  | OutOfFuel => (OutOfFuel, g)
  end.

(** ** Strongly connected components *)

(** The three mutable objects a depth-first pass threads through
    [dfsVisit]: the [visited] set and the [finished] and [sccNodeIDs]
    arrays. *)
Record dfs_state : Type := mkDfs {
  visited : gset Z;
  finished : list Z;
  sccNodeIDs : list Z
}.

(** [dfsVisit]: [fuel] bounds the depth of the recursion. *)
Fixpoint dfsVisit (fuel : nat) (graph : CapGraph) (v : Z) (s : dfs_state)
  : outcome dfs_state :=
  match fuel with
  | O => OutOfFuel
  | S fuel' =>
      let s1 := mkDfs ({[v]} ∪ visited s) (finished s) (sccNodeIDs s) in
      vNode ← getVertex graph v;
      s2 ← forEachM
             (λ n s', if bool_decide (n ∈ visited s') then Ok s'
                      else dfsVisit fuel' graph n s')
             (neighbors vNode) s1;
      Ok (mkDfs (visited s2) (v :: finished s2) (sccNodeIDs s2 ++ [v]))
  end.

(** [dfs]: the roots are popped from the end of [vertices]. *)
Definition dfs (fuel : nat) (graph : CapGraph) (vertices sccNodeIDs : list Z)
  : outcome dfs_state :=
  forEachM
    (λ v s, if bool_decide (v ∈ visited s) then Ok s
            else dfsVisit fuel graph v s)
    (reverse vertices) (mkDfs ∅ [] sccNodeIDs).

(** [transpose]: the vertices are taken in key order; each neighbour is
    added on first sight and receives the reversed edge.  The lookup of a
    key [v] in [graph] cannot throw, so the function is total. *)
Definition transpose (graph : CapGraph) : CapGraph :=
  foldl
    (λ transposedGraph v,
       match getVertex graph v with
       | Ok origiNode =>
           let t1 := if bool_decide (v ∈ getVertexIDs transposedGraph)
                     then transposedGraph else addVertex v transposedGraph in
           foldl
             (λ t neighbor,
                let t' := if bool_decide (neighbor ∈ getVertexIDs t)
                          then t else addVertex neighbor t in
                map_alter (addNeighbor v) t' neighbor)
             t1 (neighbors origiNode)
       | _ => transposedGraph
       end)
    emptyGraph (getVertexIDs graph).

(** The component graph built at the end of one iteration of
    [dfsGraphList]: [new CapGraph(v)], then every collected identifier is
    (re-)added and given the neighbour list it has in [this]. *)
Definition buildComponent (this : CapGraph) (v : Z) (sccNodeIDs : list Z)
  : outcome CapGraph :=
  forEachM
    (λ nodeID scc,
       let scc1 := addVertex nodeID scc in
       origiNode ← getVertex this nodeID;
       Ok (foldl (λ g n, map_alter (addNeighbor n) g nodeID) scc1
             (neighbors origiNode)))
    sccNodeIDs (newCapGraph v).

(** The [while] loop of [dfsGraphList]; every iteration pops one element,
    so [length vertices] iterations are enough and [iters] is set to that
    by [dfsGraphList]. *)
Fixpoint dfsGraphList_loop (iters fuel : nat) (this graph : CapGraph)
    (vertices : list Z) (s : dfs_state) (sccList : list CapGraph)
  : outcome (list CapGraph) :=
  match pop vertices with
  | None => Ok sccList
  | Some (v, vertices1) =>
      match iters with
      | O => OutOfFuel
      | S iters' =>
          '(s1, vertices2) ←
            (if bool_decide (v ∈ visited s) then Ok (s, vertices1)
             else s' ← dfsVisit fuel graph v s;
                  Ok (s', filter (λ id, negb (includes (sccNodeIDs s') id))
                            vertices1));
          scc ← buildComponent this v (sccNodeIDs s1);
          dfsGraphList_loop iters' fuel this graph vertices2
            (mkDfs (visited s1) (finished s1) []) (sccList ++ [scc])
      end
  end.

Definition dfsGraphList (fuel : nat) (this graph : CapGraph)
    (vertices sccNodeIDs : list Z) : outcome (list CapGraph) :=
  dfsGraphList_loop (length vertices) fuel this graph vertices
    (mkDfs ∅ [] sccNodeIDs) [].

(** [getSCCs].  A chain of nested [dfsVisit] calls visits pairwise distinct
    vertices, all but the last of which are keys of the graph searched, so
    one more than the number of keys bounds its depth. *)
Definition getSCCs (this : CapGraph) : outcome (list CapGraph) :=
  let vertexStack := getVertexIDs this in
  s ← dfs (S (length this)) this vertexStack [];
  let transposedGraph := transpose this in
  dfsGraphList (S (length transposedGraph)) this transposedGraph (finished s) [].

(** ** Influence ranking *)

(** [TrendSetterComparator.compare]. *)
Definition compare (node1 node2 : CapNode) : Z :=
  getNumNeighbors node1 - getNumNeighbors node2.

(** [Math.ceil(number * percentage)].  The percentages of the program are
    [0.1] and [0.2]; the model takes them as the exact rationals.  The
    program computes in binary64; [percent_agrees] below compares the two
    on a range of inputs. *)
Definition calculatePercent (number : Z) (percentage : Q) : Z :=
  Qceiling (inject_Z number * percentage).

(** The binary64 literals [0.1] and [0.2]: the correctly rounded quotients
    [1 / 10] and [1 / 5]. *)
Definition binary64_of_Z (z : Z) : PrimFloat.float :=
  PrimFloat.of_uint63 (Uint63.of_Z z).
Definition binary64_tenth : PrimFloat.float :=
  PrimFloat.div (binary64_of_Z 1) (binary64_of_Z 10).
Definition binary64_fifth : PrimFloat.float :=
  PrimFloat.div (binary64_of_Z 1) (binary64_of_Z 5).

(** [Math.ceil(number * percentage)], computed in binary64, is the integer
    [k]: the rounded product [x] satisfies [k - 1 < x <= k]. *)
Definition binary64_ceil_is (number : Z) (percentage : PrimFloat.float) (k : Z)
  : bool :=
  let x := PrimFloat.mul (binary64_of_Z number) percentage in
  let kf := binary64_of_Z k in
  PrimFloat.ltb (PrimFloat.sub kf (binary64_of_Z 1)) x && PrimFloat.leb x kf.

(** The model and the binary64 computation agree on [count] consecutive
    inputs from [number] on, for both percentages. *)
Fixpoint percent_agrees (count : nat) (number : Z) : bool :=
  match count with
  | O => true
  | S count' =>
      binary64_ceil_is number binary64_tenth (calculatePercent number (1 # 10))
      && binary64_ceil_is number binary64_fifth (calculatePercent number (2 # 10))
      && percent_agrees count' (number + 1)
  end.

(** [Array.prototype.sort] is stable: an element is placed before the
    first later element that does not have to precede it. *)
Section stable_sort.
Context {A : Type} (cmp : A → A → Z).

Fixpoint sort_insert (x : A) (sorted : list A) : list A :=
  match sorted with
  | [] => [x]
  | y :: sorted' =>
      if decide (cmp x y ≤ 0) then x :: y :: sorted'
      else y :: sort_insert x sorted'
  end.

Definition array_sort (xs : list A) : list A := foldr sort_insert [] xs.
End stable_sort.

(** [buildNodeQueue]: the queue holds references to node objects of
    [this]; a reference is the key the object is stored under, paired with
    the node it designates. *)
Definition buildNodeQueue (this graph : CapGraph) : outcome (list (Z * CapNode)) :=
  nodeQueue ← forEachM
    (λ nodeID nodeQueue,
       node ← getVertex this nodeID;
       Ok (nodeQueue ++ [(nodeID, node)]))
    (getVertexIDs graph) [];
  Ok (array_sort (λ a b, - compare a.2 b.2) nodeQueue).

(** The [for] loop of [identifyTrendSetters]: [shift] of an empty queue
    yields [undefined], which is skipped. *)
Fixpoint markTrendSetters (numTrendSetters : nat) (followersQueue : list (Z * CapNode))
    (this : CapGraph) : CapGraph :=
  match numTrendSetters with
  | O => this
  | S i =>
      match followersQueue with
      | [] => markTrendSetters i [] this
      | (ref, _) :: followersQueue' =>
          markTrendSetters i followersQueue'
            (map_alter (setIsTrendSetter true) this ref)
      end
  end.

(** The body of [SCCList.forEach] in [identifyTrendSetters], iterated. *)
Fixpoint rankComponents (SCCList : list CapGraph) (this : CapGraph)
  : outcome unit * CapGraph :=
  match SCCList with
  | [] => (Ok (), this)
  | scc :: SCCList' =>
      let graphSize := Z.of_nat (length (getVertexIDs scc)) in
      if decide (graphSize > 2) then
        let numTrendSetters := calculatePercent graphSize (1 # 10) in
        match buildNodeQueue this scc with
        | Ok followersQueue =>
            rankComponents SCCList'
              (markTrendSetters (Z.to_nat numTrendSetters) followersQueue this)
        | Throw e => (Throw e, this)
        | OutOfFuel => (OutOfFuel, this)
        end
      else rankComponents SCCList' this
  end.

Definition getSCCList (this : CapGraph) : outcome (list CapGraph) := getSCCs this.

Definition identifyTrendSetters (this : CapGraph) : outcome unit * CapGraph :=
  match getSCCList this with
  | Ok SCCList => rankComponents SCCList this
  | Throw e => (Throw e, this)
  | OutOfFuel => (OutOfFuel, this)
  end.

(** ** Propagation *)

(** The first loop of [shareVideo], entered for trend setters: [true] when
    the loop hits its [return]. *)
Fixpoint exposureExceeded (nodeFollowers : list Z) (alreadyViewed : gset Z)
    (maxFollowerViews followersExposed : Z) : bool :=
  match nodeFollowers with
  | [] => false
  | followerID :: rest =>
      if bool_decide (followerID ∈ alreadyViewed) then
        if decide (followersExposed + 1 > maxFollowerViews) then true
        else exposureExceeded rest alreadyViewed maxFollowerViews (followersExposed + 1)
      else exposureExceeded rest alreadyViewed maxFollowerViews followersExposed
  end.

(** The second loop of [shareVideo]. *)
Definition enqueueFollowers (nodeFollowers toVisit : list Z) (alreadyViewed : gset Z)
  : list Z * gset Z :=
  foldl
    (λ '(toVisit, alreadyViewed) followerID,
       (if includes toVisit followerID then toVisit else toVisit ++ [followerID],
        {[followerID]} ∪ alreadyViewed))
    (toVisit, alreadyViewed) nodeFollowers.

Definition shareVideo (this : CapGraph) (nodeID : Z) (toVisit : list Z)
    (alreadyViewed : gset Z) : outcome (list Z * gset Z) :=
  node ← getVertex this nodeID;
  let alreadyViewed := {[nodeID]} ∪ alreadyViewed in
  let nodeFollowers := followers node in
  let numNodeFollowers := Z.of_nat (length nodeFollowers) in
  if isTrendSetter node
     && exposureExceeded nodeFollowers alreadyViewed
          (calculatePercent numNodeFollowers (2 # 10)) 0
  then Ok (toVisit, alreadyViewed)
  else Ok (enqueueFollowers nodeFollowers toVisit alreadyViewed).

(** [visited.add(x)] on a set that is later iterated. *)
Definition set_add (x : Z) (xs : list Z) : list Z :=
  if includes xs x then xs else xs ++ [x].

(** [addVertices]. *)
Definition addVertices (this subGraph : CapGraph) (nodes : list Z) : outcome CapGraph :=
  forEachM
    (λ nodeID subGraph,
       if bool_decide (nodeID ∈ getVertexIDs subGraph) then Ok subGraph
       else
         let subGraph1 := addVertex nodeID subGraph in
         origiNode ← getVertex this nodeID;
         Ok (foldl (λ g neighbor, map_alter (addNeighbor neighbor) g nodeID)
               subGraph1 (neighbors origiNode)))
    nodes subGraph.

Definition shouldContinueGenerating (generationNum maxGenerationNum
    previousLength currentLength : Z) : bool :=
  bool_decide (generationNum ≤ maxGenerationNum)
  && negb (bool_decide (previousLength = currentLength)).

(** The local variables of [startViralSharing], the generations it has
    passed to [OutputFormatter.viralSimulationGeneration], and (for the
    statements about [shareVideo]) the node of every [shareVideo] call made
    so far, oldest first. *)
Record sim_state : Type := mkSim {
  toVisit : list Z;
  sim_visited : list Z;
  alreadyViewed : gset Z;
  generation : Z;
  previousGraphLength : Z;
  subGraph : CapGraph;
  emitted : list (Z * list Z);
  shareCalls : list Z
}.

(** One iteration of the [while] loop of [startViralSharing], entered with
    [nodeID] shifted off the queue and [queue] left. *)
Definition sharingIteration (this : CapGraph) (nodeID : Z) (queue : list Z)
    (st : sim_state) : outcome sim_state :=
  '(queue1, viewed1, visited1, calls1) ←
    (if includes (sim_visited st) nodeID
     then Ok (queue, alreadyViewed st, sim_visited st, shareCalls st)
     else '(q, vw) ← shareVideo this nodeID queue (alreadyViewed st);
          Ok (q, vw, set_add nodeID (sim_visited st), shareCalls st ++ [nodeID]));
  subGraph1 ← addVertices this (subGraph st) visited1;
  let currentGraphLength := Z.of_nat (length (getVertexIDs subGraph1)) in
  if shouldContinueGenerating (generation st) 10 (previousGraphLength st)
       currentGraphLength
  then Ok (mkSim queue1 visited1 viewed1 (generation st + 1) currentGraphLength
             subGraph1
             (emitted st ++ [(generation st, getVertexIDs subGraph1)]) calls1)
  else Ok (mkSim queue1 visited1 viewed1 (generation st) (previousGraphLength st)
             subGraph1 (emitted st) calls1).

(** The [while] loop; [fuel] bounds the number of iterations.  When an
    iteration throws, the state returned is the one before it (nothing is
    emitted in an iteration before the calls that can throw). *)
Fixpoint sharingLoop (fuel : nat) (this : CapGraph) (st : sim_state)
  : outcome unit * sim_state :=
  match toVisit st with
  | [] => (Ok (), st)
  | nodeID :: queue =>
      match fuel with
      | O => (OutOfFuel, st)
      | S fuel' =>
          match sharingIteration this nodeID queue st with
          | Ok st' => sharingLoop fuel' this st'
          | Throw e => (Throw e, st)
          | OutOfFuel => (OutOfFuel, st)
          end
      end
  end.

Definition startViralSharing (fuel : nat) (this : CapGraph) (startingNodeID : Z)
  : outcome unit * sim_state :=
  let st0 := mkSim [] [] {[startingNodeID]} 1 0 emptyGraph [] [] in
  match getVertex this startingNodeID with
  | Ok startingNode =>
      sharingLoop fuel this
        (mkSim ([startingNodeID] ++ followers startingNode) [] {[startingNodeID]}
           1 0 emptyGraph [] [])
  | Throw e => (Throw e, st0)
  | OutOfFuel => (OutOfFuel, st0)
  end.

(** *** The depth-bounded variant *)

Definition enqueueFollowersWithDepth (nodeFollowers : list Z)
    (toVisit : list (Z * Z)) (alreadyViewed : gset Z) (currentDepth : Z)
  : list (Z * Z) * gset Z :=
  foldl
    (λ '(toVisit, alreadyViewed) followerID,
       (if existsb (λ item, bool_decide (item.1 = followerID)) toVisit
        then toVisit else toVisit ++ [(followerID, currentDepth + 1)],
        {[followerID]} ∪ alreadyViewed))
    (toVisit, alreadyViewed) nodeFollowers.

Definition shareVideoWithDepth (this : CapGraph) (nodeID : Z)
    (toVisit : list (Z * Z)) (alreadyViewed : gset Z) (currentDepth : Z)
  : outcome (list (Z * Z) * gset Z) :=
  node ← getVertex this nodeID;
  let alreadyViewed := {[nodeID]} ∪ alreadyViewed in
  let nodeFollowers := followers node in
  let numNodeFollowers := Z.of_nat (length nodeFollowers) in
  if isTrendSetter node
     && exposureExceeded nodeFollowers alreadyViewed
          (calculatePercent numNodeFollowers (2 # 10)) 0
  then Ok (toVisit, alreadyViewed)
  else Ok (enqueueFollowersWithDepth nodeFollowers toVisit alreadyViewed currentDepth).

(** The variables of [startViralSharingWithLimit]; [lim_emitted] holds the
    [(n, currentGraphLength)] of every "Generation" line.  The progress
    lines written every thousand nodes are not modelled. *)
Record lim_state : Type := mkLim {
  lim_toVisit : list (Z * Z);
  lim_visited : list Z;
  lim_alreadyViewed : gset Z;
  lim_generation : Z;
  lim_previousGraphLength : Z;
  lim_subGraph : CapGraph;
  lim_emitted : list (Z * Z)
}.

(** How the loop of [startViralSharingWithLimit] was left. *)
Inductive loop_exit : Type :=
  | QueueEmpty
  | SafetyValve.

(** One iteration that got past the depth test. *)
Definition limitIteration (this : CapGraph) (nodeID depth : Z)
    (queue : list (Z * Z)) (st : lim_state) : outcome lim_state :=
  '(queue1, viewed1, visited1) ←
    (if includes (lim_visited st) nodeID
     then Ok (queue, lim_alreadyViewed st, lim_visited st)
     else '(q, vw) ← shareVideoWithDepth this nodeID queue (lim_alreadyViewed st) depth;
          Ok (q, vw, set_add nodeID (lim_visited st)));
  subGraph1 ← addVertices this (lim_subGraph st) visited1;
  let currentGraphLength := Z.of_nat (length (getVertexIDs subGraph1)) in
  if shouldContinueGenerating (lim_generation st) 10 (lim_previousGraphLength st)
       currentGraphLength
  then Ok (mkLim queue1 visited1 viewed1 (lim_generation st + 1) currentGraphLength
             subGraph1 (lim_emitted st ++ [(lim_generation st, currentGraphLength)]))
  else Ok (mkLim queue1 visited1 viewed1 (lim_generation st)
             (lim_previousGraphLength st) subGraph1 (lim_emitted st)).

Fixpoint limitLoop (fuel : nat) (this : CapGraph) (maxDepth : Z) (st : lim_state)
  : outcome loop_exit * lim_state :=
  match lim_toVisit st with
  | [] => (Ok QueueEmpty, st)
  | (nodeID, depth) :: queue =>
      match fuel with
      | O => (OutOfFuel, st)
      | S fuel' =>
          if decide (depth > maxDepth) then
            limitLoop fuel' this maxDepth
              (mkLim queue (lim_visited st) (lim_alreadyViewed st)
                 (lim_generation st) (lim_previousGraphLength st)
                 (lim_subGraph st) (lim_emitted st))
          else
            match limitIteration this nodeID depth queue st with
            | Ok st' =>
                if decide (Z.of_nat (length (lim_visited st')) > 100000)
                then (Ok SafetyValve, st')
                else limitLoop fuel' this maxDepth st'
            | Throw e => (Throw e, st)
            | OutOfFuel => (OutOfFuel, st)
            end
      end
  end.

Definition startViralSharingWithLimit (fuel : nat) (this : CapGraph)
    (startingNodeID maxDepth : Z) : outcome loop_exit * lim_state :=
  let st0 := mkLim [] [] {[startingNodeID]} 1 0 emptyGraph [] in
  match getVertex this startingNodeID with
  | Ok startingNode =>
      limitLoop fuel this maxDepth
        (mkLim ([(startingNodeID, 0)] ++ map (λ f, (f, 1)) (followers startingNode))
           [] {[startingNodeID]} 1 0 emptyGraph [])
  | Throw e => (Throw e, st0)
  | OutOfFuel => (OutOfFuel, st0)
  end.

(** ** Vocabulary of the statements *)

(** The node stored under [k], seen through [Map.get]. *)
Definition node_at (g : CapGraph) (k : Z) : option CapNode := map_get g k.

(** [u] follows [v] in [g]: an entry of the forward adjacency list. *)
Definition edge (g : CapGraph) (u v : Z) : Prop :=
  ∃ nd, node_at g u = Some nd ∧ v ∈ neighbors nd.

(** A directed path, possibly empty. *)
Definition path (g : CapGraph) : Z → Z → Prop := rtc (edge g).

(** The keys of a JavaScript [Map] are pairwise distinct. *)
Definition map_ok (g : CapGraph) : Prop := NoDup (getVertexIDs g).

(** Every identifier in a [following] list satisfies [P]. *)
Definition neighbors_within (g : CapGraph) (P : Z → Prop) : Prop :=
  ∀ k nd, node_at g k = Some nd → ∀ n, n ∈ neighbors nd → P n.

(** Every identifier in a [following] list is a key. *)
Definition neighbors_closed (g : CapGraph) : Prop :=
  neighbors_within g (λ n, n ∈ getVertexIDs g).

(** Every identifier in a [followers] list is a key. *)
Definition followers_closed (g : CapGraph) : Prop :=
  ∀ k nd, node_at g k = Some nd → ∀ f, f ∈ followers nd → f ∈ getVertexIDs g.

(** The invariant of the data model: both adjacency lists mention keys only. *)
Definition refs_closed (g : CapGraph) : Prop :=
  neighbors_closed g ∧ followers_closed g.

(** The calls a client can make to build and change a graph. *)
Inductive operation : Type :=
  | AddVertex (num : Z)
  | AddEdge (from to : Z)
  | RemoveEdge (from to : Z)
  | IdentifyTrendSetters.

(** The graph a call leaves behind, whether it returned or threw. *)
Definition exec (op : operation) (g : CapGraph) : CapGraph :=
  match op with
  | AddVertex num => addVertex num g
  | AddEdge from to => (addEdge from to g).2
  | RemoveEdge from to => (removeEdge from to g).2
  | IdentifyTrendSetters => (identifyTrendSetters g).2
  end.

(** Whether the call threw. *)
Definition throws (op : operation) (g : CapGraph) : bool :=
  match op with
  | AddVertex _ => false
  | AddEdge from to =>
      match (addEdge from to g).1 with Ok _ => false | _ => true end
  | RemoveEdge from to =>
      match (removeEdge from to g).1 with Ok _ => false | _ => true end
  | IdentifyTrendSetters =>
      match (identifyTrendSetters g).1 with Ok _ => false | _ => true end
  end.

(** Graphs obtained from [new CapGraph()] by a sequence of calls, the
    caller catching what is thrown (as [GraphLoader.loadGraph] does around
    [addEdge]). *)
Inductive reachable : CapGraph → Prop :=
  | reachable_new : reachable emptyGraph
  | reachable_step op g : reachable g → reachable (exec op g).

(** The same, when no call threw. *)
Inductive reachable_quietly : CapGraph → Prop :=
  | quietly_new : reachable_quietly emptyGraph
  | quietly_step op g :
      reachable_quietly g → throws op g = false → reachable_quietly (exec op g).

(** [xs] without the first occurrence of [x]. *)
Fixpoint remove_first (x : Z) (xs : list Z) : list Z :=
  match xs with
  | [] => []
  | y :: xs' => if decide (y = x) then xs' else y :: remove_first x xs'
  end.

(** [dfsGraphList] starts every component graph with [new CapGraph(v)], so
    the first key of a returned graph is the root [v] popped for it. *)
Definition component_root (scc : CapGraph) : option Z := head (getVertexIDs scc).

(** The keys as a set. *)
Definition keySet (g : CapGraph) : gset Z := list_to_set (getVertexIDs g).

(** How many keys a traversal has not seen yet. *)
Definition unvisited (g : CapGraph) (seen : gset Z) : nat :=
  size (keySet g ∖ seen).

(** [s'] is [s] after the vertices [new] were visited and finished in that
    order. *)
Definition dfs_extends (s s' : dfs_state) (new : list Z) : Prop :=
  visited s' = visited s ∪ list_to_set new
  ∧ finished s' = reverse new ++ finished s
  ∧ sccNodeIDs s' = sccNodeIDs s ++ new.

(** What a [dfsVisit] call with budget [fuel] from an unvisited key does,
    and that it returns. *)
Definition visit_ok (graph : CapGraph) (fuel : nat) : Prop :=
  ∀ v s, v ∈ getVertexIDs graph → v ∉ visited s →
    (unvisited graph (visited s) ≤ fuel)%nat →
    ∃ new s', dfsVisit fuel graph v s = Ok s'
      ∧ dfs_extends s s' new ∧ NoDup new ∧ last new = Some v
      ∧ ∀ x, x ∈ new → x ∈ getVertexIDs graph ∧ x ∉ visited s.

(** The vertices of a list of component graphs, component after component. *)
Definition members (sccs : list CapGraph) : list Z :=
  concat (getVertexIDs <$> sccs).

(** The trend-setter flag read through the graph. *)
Definition flag (g : CapGraph) (k : Z) : bool :=
  match node_at g k with
  | Some nd => isTrendSetter nd
  | None => false
  end.

(** How many of [ids] are flagged in [g]. *)
Definition flagged_count (g : CapGraph) (ids : list Z) : nat :=
  length (filter (λ k, flag g k = true) ids).

(** A graph in which no vertex is flagged. *)
Definition fresh (g : CapGraph) : Prop := ∀ k, flag g k = false.

(** How many of [fs] are in [viewed]. *)
Definition viewed_count (viewed : gset Z) (fs : list Z) : Z :=
  Z.of_nat (length (filter (λ f, f ∈ viewed) fs)).

(** The running count of viewed followers exceeds [cap] somewhere along a
    scan of [fs]. *)
Definition cap_exceeded (viewed : gset Z) (fs : list Z) (cap : Z) : Prop :=
  ∃ i : nat, viewed_count viewed (take i fs) > cap.

(** An entry of a graph after a call that may only raise flags. *)
Definition entry_raised (before after : Z * CapNode) : Prop :=
  before.1 = after.1 ∧ name before.2 = name after.2
  ∧ neighbors before.2 = neighbors after.2
  ∧ followers before.2 = followers after.2
  ∧ (isTrendSetter before.2 = true → isTrendSetter after.2 = true).

(** Work left to a propagation run: the queue, and the follower lists of
    the nodes not yet visited. *)
Definition pending (this : CapGraph) (visitedNodes : list Z) : nat :=
  sum_list (map (λ e : Z * CapNode,
              if includes visitedNodes e.1 then O else length (followers e.2)) this).

(** Iterations that are enough for a propagation run from [startingNodeID]. *)
Definition sharingFuel (this : CapGraph) (startingNodeID : Z) : nat :=
  match node_at this startingNodeID with
  | Some nd => S (length (followers nd)) + pending this []
  | None => O
  end.

(** Sample graphs. *)
Definition graph_1_2 : CapGraph := addVertex 2 (addVertex 1 emptyGraph).

(** Two vertices and the single edge 1 -> 2. *)
Definition graph_edge_1_2 : CapGraph := (addEdge 1 2 graph_1_2).2.

(** Two vertices that follow each other. *)
Definition graph_mutual : CapGraph := (addEdge 2 1 graph_edge_1_2).2.

(** Three isolated vertices. *)
Definition graph_isolated3 : CapGraph := addVertex 3 graph_1_2.

(** One vertex after a failed attempt to follow an unknown vertex. *)
Definition graph_dangling : CapGraph := (addEdge 1 2 (addVertex 1 emptyGraph)).2.

(** A three-cycle 1 -> 2 -> 3 -> 1. *)
Definition graph_cycle3 : CapGraph :=
  (addEdge 3 1 (addEdge 2 3 (addEdge 1 2 graph_isolated3).2).2).2.

(** A trend setter with two followers. *)
Definition graph_star : CapGraph :=
  [(1, mkCapNode 1 [] [2; 3] true);
   (2, mkCapNode 2 [1] [] false);
   (3, mkCapNode 3 [1] [] false)].

(** The three-cycle after ranking. *)
Definition graph_ranked : CapGraph := (identifyTrendSetters graph_cycle3).2.


(** ** Further operations of [CapGraph] *)

(** [getEgonet].  [egonet.getVertex(n)] cannot throw for a key [n] of
    [egonet]; [this.getVertex(n)] can. *)
Definition getEgonet (this : CapGraph) (center : Z) : outcome CapGraph :=
  centerNode ← getVertex this center;
  let egoNodes := neighbors centerNode ++ [center] in
  let egonet := foldl (λ g n, addVertex n g) emptyGraph egoNodes in
  forEachM
    (λ n egonet,
       origiNode ← getVertex this n;
       Ok (foldl
             (λ g neighbor,
                if includes egoNodes neighbor
                then map_alter (addNeighbor neighbor) g n else g)
             egonet (neighbors origiNode)))
    (getVertexIDs egonet) egonet.

(** [exportGraph]: a [Map<number, Set<number>>]; a set keeps its first
    insertions, in order. *)
Definition exportGraph (this : CapGraph) : list (Z * list Z) :=
  foldl
    (λ graphRepresentation entry,
       map_set graphRepresentation entry.1
         (foldl (λ neighbors n, set_add n neighbors) [] (neighbors entry.2)))
    [] this.

(** ** [GraphLoader.loadGraph] *)

(** The loader reads the file twice.  [pairs] stands for the lines that
    pass its [isNaN] test, as the integer pairs [(from, to)] parsed from
    them, in file order.  The first pass collects the vertices in a set and
    adds them; the second adds the edges, catching (and logging) what
    [addEdge] throws.  The result is the graph and the errors caught. *)
Definition loadGraph (graph : CapGraph) (pairs : list (Z * Z))
  : CapGraph * list Error :=
  let vertices :=
    foldl (λ vertices p, set_add p.2 (set_add p.1 vertices)) [] pairs in
  let graph1 := foldl (λ g v, addVertex v g) graph vertices in
  foldl
    (λ '(g, errors) p,
       match addEdge p.1 p.2 g with
       | (Throw e, g') => (g', errors ++ [e])
       | (_, g') => (g', errors)
       end)
    (graph1, []) pairs.

(** ** Further vocabulary *)

(** The [following] and [followers] lists read through the graph. *)
Definition following (g : CapGraph) (k : Z) : list Z :=
  match node_at g k with Some nd => neighbors nd | None => [] end.

Definition followersOf (g : CapGraph) (k : Z) : list Z :=
  match node_at g k with Some nd => followers nd | None => [] end.

(** [v] is listed as a follower of [u]: content shared by [u] is offered
    to [v]. *)
Definition shares_with (g : CapGraph) (u v : Z) : Prop :=
  ∃ nd, node_at g u = Some nd ∧ v ∈ followers nd.

(** Chains of follower links. *)
Definition spreads_to (g : CapGraph) : Z → Z → Prop := rtc (shares_with g).

(** The generations a run reports when it has visited [visitedNodes] in
    that order: generation [i] lists the first [i] of them, up to ten. *)
Definition generations (visitedNodes : list Z) : list (Z * list Z) :=
  (λ i, (Z.of_nat i, take i visitedNodes))
    <$> seq 1 (10 `min` length visitedNodes).

(** The same for the depth-bounded run, which reports sizes. *)
Definition generation_sizes (visitedNodes : list Z) : list (Z * Z) :=
  (λ i, (Z.of_nat i, Z.of_nat i)) <$> seq 1 (10 `min` length visitedNodes).

(** Out-degree, the ranking key. *)
Definition outDegree (g : CapGraph) (k : Z) : Z :=
  Z.of_nat (length (following g k)).

(** The state of a depth-bounded run mirrors that of an unbounded run:
    the same queue once the depths are dropped, the same visited and viewed
    sets, counters and sub-graph, and a "Generation" line with the size of
    every generation reported. *)
Definition limit_mirrors (lim : lim_state) (sim : sim_state) : Prop :=
  (lim_toVisit lim).*1 = toVisit sim
  ∧ lim_visited lim = sim_visited sim
  ∧ lim_alreadyViewed lim = alreadyViewed sim
  ∧ lim_generation lim = generation sim
  ∧ lim_previousGraphLength lim = previousGraphLength sim
  ∧ lim_subGraph lim = subGraph sim
  ∧ lim_emitted lim = (λ e, (e.1, Z.of_nat (length e.2))) <$> emitted sim.

(** How the depth-bounded run ends when the unbounded run ends with [r]. *)
Definition limit_exit (r : outcome unit) : outcome loop_exit :=
  match r with
  | Ok _ => Ok QueueEmpty
  | Throw e => Throw e
  | OutOfFuel => OutOfFuel
  end.

(** The three ways a [dfsVisit] call from an unvisited vertex can go, with
    more fuel than unvisited keys: it returns, and then the vertices newly
    visited are keys all of whose followed vertices are visited; or it
    throws the lookup error for a vertex that is not a key and that the
    call was made for or that some key follows.  It does not run out of
    fuel. *)
Definition visit_outcome_ok (graph : CapGraph) (v : Z) (s : dfs_state)
    (r : outcome dfs_state) : Prop :=
  match r with
  | Ok s' =>
      visited s ⊆ visited s' ∧ v ∈ visited s'
      ∧ ∀ x, x ∈ visited s' → x ∉ visited s →
          x ∈ getVertexIDs graph ∧ ∀ n, n ∈ following graph x → n ∈ visited s'
  | Throw (VertexNotFound n) =>
      n ∉ getVertexIDs graph ∧ (n = v ∨ ∃ u, edge graph u n)
  | OutOfFuel => False
  end.

(** A graph with a duplicate edge and a self-loop, built through the
    public operations. *)
Definition graph_multi : CapGraph :=
  (addEdge 2 2 (addEdge 1 3 (addEdge 1 2 (addEdge 1 2 graph_isolated3).2).2).2).2.
(** * Properties *)

Set Warnings "-clear-no-such-hyp".

(** ** Ordered maps *)

Section ordered_map_facts.
Context {V : Type}.
Implicit Types (m : list (Z * V)) (k : Z) (v : V).

Lemma map_get_Some_elem m k v : map_get m k = Some v → (k, v) ∈ m.
Proof.
  induction m as [|[k' v'] m IH]; simpl; [done|].
  case_decide; intros Hg.
  - simplify_eq. left.
  - right. auto.
Qed.

Lemma map_get_Some_key m k v : map_get m k = Some v → k ∈ map_keys m.
Proof.
  intros H%map_get_Some_elem. unfold map_keys.
  apply list_elem_of_fmap. by exists (k, v).
Qed.

Lemma map_get_is_Some m k : k ∈ map_keys m ↔ is_Some (map_get m k).
Proof.
  unfold map_keys. induction m as [|[k' v'] m IH]; simpl.
  - split; [by intros ?%elem_of_nil | by intros [? ?]].
  - case_decide as Hk.
    + subst k'. split; [eauto | intros _; left].
    + rewrite elem_of_cons, IH. split; [intros [?|?]; [congruence | done] | by right].
Qed.

Lemma map_get_None m k : k ∉ map_keys m ↔ map_get m k = None.
Proof. rewrite map_get_is_Some, eq_None_not_Some. done. Qed.

Lemma map_keys_alter f m k : map_keys (map_alter f m k) = map_keys m.
Proof.
  unfold map_keys. induction m as [|[k' v'] m IH]; simpl; [done|].
  case_decide; csimpl; [done | by f_equal].
Qed.

Lemma map_get_alter f m k k' :
  map_get (map_alter f m k) k'
  = if decide (k = k') then f <$> map_get m k' else map_get m k'.
Proof.
  induction m as [|[k0 v0] m IH]; simpl.
  - by case_decide.
  - repeat (case_decide; simplify_eq/=); rewrite ?IH; repeat case_decide;
      by simplify_eq.
Qed.

Lemma map_keys_set m k v :
  map_keys (map_set m k v)
  = if decide (k ∈ map_keys m) then map_keys m else map_keys m ++ [k].
Proof.
  unfold map_keys. induction m as [|[k' v'] m IH]; csimpl.
  - done.
  - destruct (decide (k' = k)) as [->|Hk]; csimpl.
    + rewrite decide_True; [done | left].
    + rewrite IH. destruct (decide (k ∈ m.*1)) as [Hin|Hin].
      * rewrite decide_True; [done | by right].
      * rewrite decide_False; [done|]. rewrite elem_of_cons. naive_solver.
Qed.

Lemma map_get_set m k v k' :
  map_get (map_set m k v) k' = if decide (k = k') then Some v else map_get m k'.
Proof.
  induction m as [|[k0 v0] m IH]; simpl.
  - by repeat case_decide.
  - repeat (case_decide; simplify_eq/=); rewrite ?IH; repeat case_decide;
      by simplify_eq.
Qed.

Lemma map_keys_set_elem m k v x :
  x ∈ map_keys (map_set m k v) ↔ x = k ∨ x ∈ map_keys m.
Proof.
  rewrite map_keys_set. case_decide.
  - naive_solver.
  - rewrite elem_of_app, list_elem_of_singleton. naive_solver.
Qed.

Lemma map_keys_set_NoDup m k v :
  NoDup (map_keys m) → NoDup (map_keys (map_set m k v)).
Proof.
  intros Hnd. rewrite map_keys_set. case_decide; [done|].
  apply NoDup_app. split_and!; [done | | apply NoDup_singleton].
  intros x Hx ->%list_elem_of_singleton. done.
Qed.
End ordered_map_facts.

(** ** Arrays *)

Lemma indexOf_range xs x :
  indexOf xs x = -1 ∨ 0 ≤ indexOf xs x < Z.of_nat (length xs).
Proof.
  induction xs as [|y xs IH]; simpl; [by left|].
  destruct (decide (y = x)); [right; lia|].
  destruct (decide (indexOf xs x = -1)); [by left | right; lia].
Qed.

Lemma indexOf_absent xs x : indexOf xs x = -1 ↔ x ∉ xs.
Proof.
  induction xs as [|y xs IH]; simpl.
  - split; [intros _; apply not_elem_of_nil | done].
  - rewrite not_elem_of_cons. destruct (decide (y = x)) as [->|Hy].
    + split; [lia | by intros [? _]].
    + destruct (decide (indexOf xs x = -1)) as [Hi|Hi].
      * split; [intros _; split; [done | by apply IH] | done].
      * pose proof (indexOf_range xs x). split; [lia | intros [_ ?%IH]; lia].
Qed.

Lemma splice1_cons y xs i : 0 ≤ i → splice1 (y :: xs) (i + 1) = y :: splice1 xs i.
Proof.
  intros Hi. unfold splice1. rewrite !decide_False by lia. simpl length.
  replace (Z.to_nat (Z.min (i + 1) (Z.of_nat (S (length xs)))))
    with (S (Z.to_nat (Z.min i (Z.of_nat (length xs))))) by lia.
  done.
Qed.

(** A found index: [splice] removes the first occurrence. *)
Lemma splice1_indexOf_present xs x :
  x ∈ xs → splice1 xs (indexOf xs x) = remove_first x xs.
Proof.
  induction xs as [|y xs IH]; simpl; [by intros ?%elem_of_nil|].
  intros Hin. destruct (decide (y = x)) as [->|Hy]; [done|].
  apply elem_of_cons in Hin as [->|Hin]; [done|].
  destruct (decide (indexOf xs x = -1)) as [Hi|Hi].
  - by apply indexOf_absent in Hi.
  - pose proof (indexOf_range xs x). rewrite splice1_cons by lia. by rewrite IH.
Qed.

(** Index [-1]: [splice] removes the last element. *)
Lemma splice1_minus_one xs : splice1 xs (-1) = take (length xs - 1) xs.
Proof.
  unfold splice1. rewrite decide_True by lia.
  destruct (decide (length xs = 0%nat)) as [Hz|Hz].
  - apply length_zero_iff_nil in Hz as ->. done.
  - replace (Z.to_nat (Z.max (Z.of_nat (length xs) + -1) 0)) with (length xs - 1)%nat by lia.
    rewrite delete_take_drop.
    replace (S (length xs - 1)) with (length xs) by lia.
    by rewrite drop_all, app_nil_r.
Qed.

(** ** Graph primitives *)

Lemma getVertex_Ok g num nd : getVertex g num = Ok nd ↔ node_at g num = Some nd.
Proof.
  unfold getVertex, node_at. destruct (map_get g num); split; intros; by simplify_eq.
Qed.

Lemma getVertex_present g num :
  num ∈ getVertexIDs g → ∃ nd, getVertex g num = Ok nd ∧ node_at g num = Some nd.
Proof.
  intros [nd Hnd]%map_get_is_Some. exists nd. split; [|done].
  by apply getVertex_Ok.
Qed.

Lemma getVertex_absent g num :
  num ∉ getVertexIDs g → getVertex g num = Throw (VertexNotFound num).
Proof. intros Hnum%map_get_None. unfold getVertex. by rewrite Hnum. Qed.

Lemma getVertexIDs_alter f g k : getVertexIDs (map_alter f g k) = getVertexIDs g.
Proof. apply map_keys_alter. Qed.

Lemma node_at_alter f g k k' :
  node_at (map_alter f g k) k'
  = if decide (k = k') then f <$> node_at g k' else node_at g k'.
Proof. apply map_get_alter. Qed.

Lemma node_at_addVertex num g k :
  node_at (addVertex num g) k
  = if decide (num = k) then Some (newCapNode num) else node_at g k.
Proof. apply map_get_set. Qed.

Lemma getVertexIDs_addVertex num g x :
  x ∈ getVertexIDs (addVertex num g) ↔ x = num ∨ x ∈ getVertexIDs g.
Proof. apply map_keys_set_elem. Qed.

Lemma addVertex_map_ok num g : map_ok g → map_ok (addVertex num g).
Proof. apply map_keys_set_NoDup. Qed.

(** The three ways an [addEdge] call can go. *)
Lemma addEdge_unknown_from from to g :
  from ∉ getVertexIDs g → addEdge from to g = (Throw (VertexNotFound from), g).
Proof. intros H. unfold addEdge. by rewrite getVertex_absent. Qed.

Lemma addEdge_unknown_to from to g :
  from ∈ getVertexIDs g → to ∉ getVertexIDs g →
  addEdge from to g
  = (Throw (VertexNotFound to), map_alter (addNeighbor to) g from).
Proof.
  intros Hfrom Hto. unfold addEdge.
  apply getVertex_present in Hfrom as (nd & -> & _).
  rewrite getVertex_absent; [done|]. by rewrite getVertexIDs_alter.
Qed.

Lemma addEdge_known from to g :
  from ∈ getVertexIDs g → to ∈ getVertexIDs g →
  addEdge from to g
  = (Ok (), map_alter (addFollower from) (map_alter (addNeighbor to) g from) to).
Proof.
  intros Hfrom Hto. unfold addEdge.
  apply getVertex_present in Hfrom as (nd & -> & _).
  rewrite <-(getVertexIDs_alter (addNeighbor to) g from) in Hto.
  by apply getVertex_present in Hto as (nd' & -> & _).
Qed.

(** [addEdge] throws when an endpoint is not a key. *)
Lemma addEdge_unknown_vertex from to g :
  from ∉ getVertexIDs g ∨ to ∉ getVertexIDs g →
  (addEdge from to g).1 = Throw (VertexNotFound from)
  ∨ (addEdge from to g).1 = Throw (VertexNotFound to).
Proof.
  intros Hunk. destruct (decide (from ∈ getVertexIDs g)) as [Hfrom|Hfrom].
  - destruct Hunk as [?|Hto]; [done|]. right. by rewrite addEdge_unknown_to.
  - left. by rewrite addEdge_unknown_from.
Qed.

(** Whatever happens, [addEdge] keeps the keys and their order. *)
Lemma addEdge_getVertexIDs from to g :
  getVertexIDs (addEdge from to g).2 = getVertexIDs g.
Proof.
  destruct (decide (from ∈ getVertexIDs g)); [|by rewrite addEdge_unknown_from].
  destruct (decide (to ∈ getVertexIDs g)).
  - rewrite addEdge_known by done. simpl. by rewrite !getVertexIDs_alter.
  - rewrite addEdge_unknown_to by done. simpl. by rewrite getVertexIDs_alter.
Qed.

Lemma removeEdge_getVertexIDs from to g :
  getVertexIDs (removeEdge from to g).2 = getVertexIDs g.
Proof.
  unfold removeEdge. destruct (getVertex g from); simpl; [|done..].
  by rewrite getVertexIDs_alter.
Qed.

(** [addEdge] never touches a [followers] list unless both ends exist. *)
Lemma addEdge_followers_closed from to g :
  followers_closed g → followers_closed (addEdge from to g).2.
Proof.
  intros Hcl k nd. destruct (decide (from ∈ getVertexIDs g)) as [Hf|Hf];
    [|rewrite addEdge_unknown_from by done; apply Hcl].
  assert (Hkeys := addEdge_getVertexIDs from to g). revert Hkeys.
  destruct (decide (to ∈ getVertexIDs g)) as [Ht|Ht].
  - rewrite addEdge_known by done. simpl. intros ->.
    rewrite !node_at_alter. intros Hnd f Hin.
    destruct (decide (to = k)) as [->|?], (decide (from = k)) as [->|?];
      simpl in Hnd.
    + destruct (node_at g k) as [nd0|] eqn:E; simplify_eq/=.
      apply elem_of_app in Hin as [Hin| ->%list_elem_of_singleton]; [|done].
      by eapply Hcl.
    + destruct (node_at g k) as [nd0|] eqn:E; simplify_eq/=.
      apply elem_of_app in Hin as [Hin| ->%list_elem_of_singleton]; [|done].
      by eapply Hcl.
    + destruct (node_at g k) as [nd0|] eqn:E; simplify_eq/=. by eapply Hcl.
    + by eapply Hcl.
  - rewrite addEdge_unknown_to by done. simpl. intros ->.
    rewrite node_at_alter. intros Hnd f Hin.
    destruct (decide (from = k)) as [->|?]; [|by eapply Hcl].
    destruct (node_at g k) as [nd0|] eqn:E; simplify_eq/=. by eapply Hcl.
Qed.

(** A successful [addEdge] keeps the [following] lists within the keys. *)
Lemma addEdge_neighbors_closed from to g :
  to ∈ getVertexIDs g → neighbors_closed g → neighbors_closed (addEdge from to g).2.
Proof.
  intros Ht Hcl k nd. destruct (decide (from ∈ getVertexIDs g)) as [Hf|Hf];
    [|rewrite addEdge_unknown_from by done; apply Hcl].
  assert (Hkeys := addEdge_getVertexIDs from to g). revert Hkeys.
  rewrite addEdge_known by done. simpl. intros ->.
  rewrite !node_at_alter. intros Hnd n Hin.
  destruct (decide (to = k)) as [->|?], (decide (from = k)) as [->|?];
    simpl in Hnd; destruct (node_at g k) as [nd0|] eqn:E; simplify_eq/=;
    try (by eapply Hcl).
  - apply elem_of_app in Hin as [Hin| ->%list_elem_of_singleton]; [|done].
    by eapply Hcl.
  - apply elem_of_app in Hin as [Hin| ->%list_elem_of_singleton]; [|done].
    by eapply Hcl.
Qed.

(** ** [removeEdge] *)

Lemma removeEdge_unknown_from from to g :
  from ∉ getVertexIDs g → removeEdge from to g = (Throw (VertexNotFound from), g).
Proof. intros H. unfold removeEdge. by rewrite getVertex_absent. Qed.

(** What [removeNeighbor] does to the [following] list. *)
Lemma removeNeighbor_neighbors neighbor nd :
  neighbors (removeNeighbor neighbor nd).1
  = if decide (neighbor ∈ neighbors nd)
    then remove_first neighbor (neighbors nd)
    else take (length (neighbors nd) - 1) (neighbors nd).
Proof.
  unfold removeNeighbor. simpl. case_decide as Hin.
  - by apply splice1_indexOf_present.
  - apply indexOf_absent in Hin as ->. apply splice1_minus_one.
Qed.

Lemma removeNeighbor_log neighbor nd :
  (removeNeighbor neighbor nd).2
  = if decide (neighbor ∈ neighbors nd) then [] else [removeNeighbor_message].
Proof.
  unfold removeNeighbor. simpl. pose proof (indexOf_absent (neighbors nd) neighbor).
  repeat case_decide; naive_solver.
Qed.

(** [removeEdge] on an existing [from]: it returns, it rewrites only the
    [following] list of [from], and no [followers] list changes. *)
Lemma removeEdge_spec from to g nd :
  node_at g from = Some nd →
  ∃ nd',
    (removeEdge from to g).1
      = Ok (if decide (to ∈ neighbors nd) then [] else [removeNeighbor_message])
    ∧ node_at (removeEdge from to g).2 from = Some nd'
    ∧ neighbors nd'
      = (if decide (to ∈ neighbors nd) then remove_first to (neighbors nd)
         else take (length (neighbors nd) - 1) (neighbors nd))
    ∧ followers nd' = followers nd
    ∧ isTrendSetter nd' = isTrendSetter nd
    ∧ ∀ k, k ≠ from → node_at (removeEdge from to g).2 k = node_at g k.
Proof.
  intros Hnd. unfold removeEdge. apply getVertex_Ok in Hnd as Hget. rewrite Hget.
  cbn [fst snd]. exists (removeNeighbor to nd).1. split_and!.
  - by rewrite removeNeighbor_log.
  - rewrite node_at_alter, decide_True, Hnd by done. done.
  - apply removeNeighbor_neighbors.
  - done.
  - done.
  - intros k Hk. rewrite node_at_alter, decide_False; done.
Qed.

Lemma remove_first_subseteq x xs : remove_first x xs ⊆ xs.
Proof.
  induction xs as [|y xs IH]; simpl; [done|].
  case_decide; [set_solver | set_solver].
Qed.

Lemma removeNeighbor_subseteq neighbor nd :
  neighbors (removeNeighbor neighbor nd).1 ⊆ neighbors nd.
Proof.
  rewrite removeNeighbor_neighbors. case_decide.
  - apply remove_first_subseteq.
  - apply subseteq_take.
Qed.

Lemma removeEdge_neighbors_closed from to g :
  neighbors_closed g → neighbors_closed (removeEdge from to g).2.
Proof.
  intros Hcl k nd. assert (Hkeys := removeEdge_getVertexIDs from to g). revert Hkeys.
  unfold removeEdge. destruct (getVertex g from); simpl; [|intros _; apply Hcl..].
  intros ->. rewrite node_at_alter. intros Hnd n Hin.
  destruct (decide (from = k)) as [->|?]; [|by eapply Hcl].
  destruct (node_at g k) as [nd0|] eqn:E; [|done].
  injection Hnd as <-. eapply Hcl; [done|]. eapply removeNeighbor_subseteq, Hin.
Qed.

Lemma removeEdge_followers_closed from to g :
  followers_closed g → followers_closed (removeEdge from to g).2.
Proof.
  intros Hcl k nd. assert (Hkeys := removeEdge_getVertexIDs from to g). revert Hkeys.
  unfold removeEdge. destruct (getVertex g from); simpl; [|intros _; apply Hcl..].
  intros ->. rewrite node_at_alter. intros Hnd n Hin.
  destruct (decide (from = k)) as [->|?]; [|by eapply Hcl].
  destruct (node_at g k) as [nd0|] eqn:E; [|done].
  injection Hnd as <-. by eapply Hcl.
Qed.

Lemma addVertex_neighbors_closed num g :
  neighbors_closed g → neighbors_closed (addVertex num g).
Proof.
  intros Hcl k nd. rewrite node_at_addVertex. intros Hnd n Hin.
  apply getVertexIDs_addVertex. case_decide; simplify_eq/=.
  - by apply elem_of_nil in Hin.
  - right. by eapply Hcl.
Qed.

Lemma addVertex_followers_closed num g :
  followers_closed g → followers_closed (addVertex num g).
Proof.
  intros Hcl k nd. rewrite node_at_addVertex. intros Hnd n Hin.
  apply getVertexIDs_addVertex. case_decide; simplify_eq/=.
  - by apply elem_of_nil in Hin.
  - right. by eapply Hcl.
Qed.

(** ** Calls that only raise flags *)

Lemma entry_raised_refl e : entry_raised e e.
Proof. by repeat split. Qed.

Lemma entry_raised_trans e1 e2 e3 :
  entry_raised e1 e2 → entry_raised e2 e3 → entry_raised e1 e3.
Proof.
  intros (?&?&?&?&?) (?&?&?&?&?). repeat split; try congruence. auto.
Qed.

Lemma raised_refl (g : CapGraph) : Forall2 entry_raised g g.
Proof. apply Forall_Forall2_diag, Forall_forall. intros. apply entry_raised_refl. Qed.

Lemma raised_trans (g1 g2 g3 : CapGraph) :
  Forall2 entry_raised g1 g2 → Forall2 entry_raised g2 g3 →
  Forall2 entry_raised g1 g3.
Proof.
  intros H12. revert g3. induction H12; intros g3 H23; inversion H23; subst;
    constructor; eauto using entry_raised_trans.
Qed.

Lemma raised_setIsTrendSetter (g : CapGraph) k :
  Forall2 entry_raised g (map_alter (setIsTrendSetter true) g k).
Proof.
  induction g as [|[k' nd] g IH]; simpl; [constructor|].
  case_decide.
  - constructor; [by repeat split | apply raised_refl].
  - constructor; [apply entry_raised_refl | done].
Qed.

Lemma raised_markTrendSetters n queue (this : CapGraph) :
  Forall2 entry_raised this (markTrendSetters n queue this).
Proof.
  revert queue this. induction n as [|n IH]; intros queue this; simpl.
  - apply raised_refl.
  - destruct queue as [|[ref nd] queue]; [apply IH|].
    eapply raised_trans; [apply raised_setIsTrendSetter | apply IH].
Qed.

Lemma raised_rankComponents SCCList (this : CapGraph) :
  Forall2 entry_raised this (rankComponents SCCList this).2.
Proof.
  revert this. induction SCCList as [|scc SCCList IH]; intros this; simpl.
  - apply raised_refl.
  - case_decide; [|apply IH].
    destruct (buildNodeQueue this scc); simpl; [|apply raised_refl..].
    eapply raised_trans; [apply raised_markTrendSetters | apply IH].
Qed.

Lemma raised_identifyTrendSetters (this : CapGraph) :
  Forall2 entry_raised this (identifyTrendSetters this).2.
Proof.
  unfold identifyTrendSetters. destruct (getSCCList this); simpl;
    [apply raised_rankComponents | apply raised_refl..].
Qed.

Lemma raised_getVertexIDs (g g' : CapGraph) :
  Forall2 entry_raised g g' → getVertexIDs g' = getVertexIDs g.
Proof.
  unfold getVertexIDs, map_keys.
  induction 1 as [|e e' g g' (He&_) _ IH]; csimpl; [done|]. by rewrite He, IH.
Qed.

Lemma raised_node_at (g g' : CapGraph) k :
  Forall2 entry_raised g g' →
  match node_at g k, node_at g' k with
  | Some nd, Some nd' => entry_raised (k, nd) (k, nd')
  | None, None => True
  | _, _ => False
  end.
Proof.
  unfold node_at.
  induction 1 as [|[k1 nd1] [k2 nd2] g g' (He&?&?&?&?) _ IH]; simpl; [done|].
  simpl in *. subst k2. case_decide; [by repeat split | done].
Qed.

Lemma raised_node_at_Some (g g' : CapGraph) k nd' :
  Forall2 entry_raised g g' → node_at g' k = Some nd' →
  ∃ nd, node_at g k = Some nd ∧ entry_raised (k, nd) (k, nd').
Proof.
  intros Hr Hnd'. pose proof (raised_node_at g g' k Hr) as H.
  rewrite Hnd' in H. destruct (node_at g k); [eauto | done].
Qed.

Lemma raised_flag (g g' : CapGraph) k :
  Forall2 entry_raised g g' → flag g k = true → flag g' k = true.
Proof.
  intros Hr. pose proof (raised_node_at g g' k Hr) as H. unfold flag.
  destruct (node_at g k), (node_at g' k); try done. destruct H as (_&_&_&_&?). done.
Qed.

Lemma raised_neighbors_closed (g g' : CapGraph) :
  Forall2 entry_raised g g' → neighbors_closed g → neighbors_closed g'.
Proof.
  intros Hr Hcl k nd' Hnd' n Hn. rewrite (raised_getVertexIDs g g') by done.
  destruct (raised_node_at_Some g g' k nd' Hr Hnd') as (nd & Hnd & _ & _ & Hnb & _).
  simpl in Hnb. eapply Hcl; [done|]. by rewrite Hnb.
Qed.

Lemma raised_followers_closed (g g' : CapGraph) :
  Forall2 entry_raised g g' → followers_closed g → followers_closed g'.
Proof.
  intros Hr Hcl k nd' Hnd' n Hn. rewrite (raised_getVertexIDs g g') by done.
  destruct (raised_node_at_Some g g' k nd' Hr Hnd') as (nd & Hnd & _ & _ & _ & Hfl & _).
  simpl in Hfl. eapply Hcl; [done|]. by rewrite Hfl.
Qed.

Lemma raised_map_ok (g g' : CapGraph) :
  Forall2 entry_raised g g' → map_ok g → map_ok g'.
Proof. unfold map_ok. intros Hr. by rewrite (raised_getVertexIDs g g'). Qed.

(** ** Reachable graphs *)

Lemma exec_map_ok op g : map_ok g → map_ok (exec op g).
Proof.
  destruct op; simpl.
  - apply addVertex_map_ok.
  - unfold map_ok. by rewrite addEdge_getVertexIDs.
  - unfold map_ok. by rewrite removeEdge_getVertexIDs.
  - apply raised_map_ok, raised_identifyTrendSetters.
Qed.

Lemma exec_followers_closed op g : followers_closed g → followers_closed (exec op g).
Proof.
  destruct op; simpl.
  - apply addVertex_followers_closed.
  - apply addEdge_followers_closed.
  - apply removeEdge_followers_closed.
  - apply raised_followers_closed, raised_identifyTrendSetters.
Qed.

Lemma exec_neighbors_closed op g :
  throws op g = false → neighbors_closed g → neighbors_closed (exec op g).
Proof.
  destruct op as [num|from to|from to|]; simpl.
  - intros _. apply addVertex_neighbors_closed.
  - intros Hq. apply addEdge_neighbors_closed.
    destruct (decide (to ∈ getVertexIDs g)) as [|Hto]; [done|].
    destruct (addEdge_unknown_vertex from to g (or_intror Hto)) as [E|E];
      by rewrite E in Hq.
  - intros _. apply removeEdge_neighbors_closed.
  - intros _. apply raised_neighbors_closed, raised_identifyTrendSetters.
Qed.

Lemma reachable_map_ok g : reachable g → map_ok g.
Proof. induction 1; [apply NoDup_nil_2 | by apply exec_map_ok]. Qed.

(** The reverse adjacency lists mention keys only, in every reachable graph. *)
Lemma reachable_followers_closed g : reachable g → followers_closed g.
Proof. induction 1; [by intros ? ? ?| by apply exec_followers_closed]. Qed.

Lemma quietly_reachable g : reachable_quietly g → reachable g.
Proof. induction 1; by constructor. Qed.

(** The invariant of the data model holds as long as no call threw. *)
Lemma reachable_quietly_refs_closed g : reachable_quietly g → refs_closed g.
Proof.
  intros Hq. split; [|by apply reachable_followers_closed, quietly_reachable].
  induction Hq; [by intros ? ? ?| by apply exec_neighbors_closed].
Qed.

(** ** Edges and the data-model invariant *)

(** C4 (code defect).  [addEdge(1, 2)] on the graph holding only vertex 1
    throws the unknown-vertex error for 2, as the claim says, but it has
    already pushed 2 onto the [following] list of 1: the graph the call
    leaves behind has an edge to an identifier that is not a key, so the
    invariant fails in a graph reachable through the public operations. *)
Theorem addEdge_unknown_target_leaves_dangling_edge :
  reachable graph_dangling
  ∧ (addEdge 1 2 (addVertex 1 emptyGraph)).1 = Throw (VertexNotFound 2)
  ∧ edge graph_dangling 1 2
  ∧ 2 ∉ getVertexIDs graph_dangling
  ∧ ¬ refs_closed graph_dangling.
Proof.
  assert (Hedge : edge graph_dangling 1 2).
  { eexists. split; [reflexivity|]. simpl. set_solver. }
  assert (Hkey : 2 ∉ getVertexIDs graph_dangling).
  { vm_compute. set_solver. }
  split_and!; [|done..|].
  - apply (reachable_step (AddEdge 1 2)), (reachable_step (AddVertex 1)),
      reachable_new.
  - intros [Hcl _]. destruct Hedge as (nd & Hnd & Hin). apply Hkey. by eapply Hcl.
Qed.

(** C5 (code defect).  On the graph 1 -> 2, [removeEdge(1, 3)] returns
    after logging the diagnostic, as the claim says, but 3 is not followed
    by 1 and the call still empties the [following] list of 1: the
    [splice(-1, 1)] it runs removes the last entry. *)
Theorem removeEdge_absent_target_drops_last_neighbor :
  (neighbors <$> node_at graph_edge_1_2 1) = Some [2]
  ∧ (removeEdge 1 3 graph_edge_1_2).1 = Ok [removeNeighbor_message]
  ∧ (neighbors <$> node_at (removeEdge 1 3 graph_edge_1_2).2 1) = Some [].
Proof. by vm_compute. Qed.

(** ** Flags *)

Lemma flag_alter f (g : CapGraph) k' k :
  (∀ nd, isTrendSetter (f nd) = isTrendSetter nd) →
  flag (map_alter f g k') k = flag g k.
Proof.
  intros Hf. unfold flag. rewrite node_at_alter. case_decide; [|done].
  destruct (node_at g k); [apply Hf | done].
Qed.

Lemma flag_addEdge from to g k : flag (addEdge from to g).2 k = flag g k.
Proof.
  unfold addEdge. destruct (getVertex g from); [|done..].
  destruct (getVertex _ to); simpl; by rewrite ?flag_alter.
Qed.

Lemma flag_removeEdge from to g k : flag (removeEdge from to g).2 k = flag g k.
Proof.
  unfold removeEdge. destruct (getVertex g from); [|done..].
  simpl. by rewrite flag_alter.
Qed.

Lemma flag_addVertex_other num g k : num ≠ k → flag (addVertex num g) k = flag g k.
Proof. intros Hk. unfold flag. by rewrite node_at_addVertex, decide_False. Qed.

(** C8 (as stated, refuted).  In the ranked three-cycle vertex 2 is
    flagged; [addVertex(2)] then replaces it by a fresh vertex, whose flag
    is false: an operation took the flag of vertex 2 from true to false. *)
Lemma addVertex_resets_flag :
  ¬ (∀ op g k, reachable g → flag g k = true → flag (exec op g) k = true).
Proof.
  intros Hall. specialize (Hall (AddVertex 2) graph_ranked 2).
  assert (Hr : reachable graph_ranked).
  { apply (reachable_step IdentifyTrendSetters), (reachable_step (AddEdge 3 1)),
      (reachable_step (AddEdge 2 3)), (reachable_step (AddEdge 1 2)),
      (reachable_step (AddVertex 3)), (reachable_step (AddVertex 2)),
      (reachable_step (AddVertex 1)), reachable_new. }
  specialize (Hall Hr). by vm_compute in Hall; specialize (Hall eq_refl).
Qed.

(** C8 (amended).  A call other than [addVertex(k)] never takes the flag of
    vertex [k] from true to false; and on every graph, flagged or not,
    [identifyTrendSetters], run once or twice, leaves the keys, their
    order, and every [following] and [followers] list as they were and
    only raises flags. *)
Theorem flags_only_raised (op : operation) (g : CapGraph) (k : Z) :
  (op ≠ AddVertex k → flag g k = true → flag (exec op g) k = true)
  ∧ Forall2 entry_raised g (identifyTrendSetters g).2
  ∧ Forall2 entry_raised g (identifyTrendSetters (identifyTrendSetters g).2).2
  ∧ getVertexIDs (identifyTrendSetters g).2 = getVertexIDs g.
Proof.
  split_and!.
  - intros Hop Hflag. destruct op as [num|from to|from to|]; simpl.
    + rewrite flag_addVertex_other; [done | congruence].
    + by rewrite flag_addEdge.
    + by rewrite flag_removeEdge.
    + by eapply raised_flag; [apply raised_identifyTrendSetters|].
  - apply raised_identifyTrendSetters.
  - eapply raised_trans; apply raised_identifyTrendSetters.
  - apply raised_getVertexIDs, raised_identifyTrendSetters.
Qed.

Lemma flags_only_raised_witness :
  flag (exec IdentifyTrendSetters graph_ranked) 2 = true
  ∧ Forall2 entry_raised graph_ranked (identifyTrendSetters graph_ranked).2
  ∧ Forall2 entry_raised graph_ranked
      (identifyTrendSetters (identifyTrendSetters graph_ranked).2).2
  ∧ getVertexIDs (identifyTrendSetters graph_ranked).2 = getVertexIDs graph_ranked.
Proof.
  destruct (flags_only_raised IdentifyTrendSetters graph_ranked 2)
    as (Hflag & Honce & Htwice & Hkeys).
  split_and!; [|done..]. apply Hflag.
  - discriminate.
  - vm_compute. reflexivity.
Defined.

(** ** Paths *)

Lemma no_path_from_sink (g : CapGraph) u v nd :
  node_at g u = Some nd → neighbors nd = [] → path g u v → u = v.
Proof.
  intros Hnd Hnb Hp. destruct Hp as [|u w v (nd' & Hnd' & Hin) _]; [done|].
  rewrite Hnd in Hnd'. injection Hnd' as <-. rewrite Hnb in Hin.
  by apply elem_of_nil in Hin.
Qed.

(** C1 (code defect).  On the graph with the single edge 1 -> 2,
    [getSCCs] returns one component holding both 1 and 2, although there is
    no path from 2 back to 1. *)
Theorem getSCCs_joins_one_way_edge :
  ∃ scc, getSCCs graph_edge_1_2 = Ok [scc]
    ∧ 1 ∈ getVertexIDs scc ∧ 2 ∈ getVertexIDs scc
    ∧ path graph_edge_1_2 1 2
    ∧ ¬ path graph_edge_1_2 2 1.
Proof.
  eexists. split_and!.
  - vm_compute. reflexivity.
  - simpl. set_solver.
  - simpl. set_solver.
  - apply rtc_once. eexists. split; [reflexivity|]. simpl. set_solver.
  - intros Hp. eapply no_path_from_sink in Hp; [done | reflexivity | done].
Qed.

(** C2 (code defect).  On the graph 1 -> 2 the first pass returns
    [finished = [1; 2]]: vertex 1, which finishes last, is first, as the
    claim says.  The second pass pops its roots from the end of that list:
    its first (and here only) root is 2, the vertex that finished first.
    On three isolated vertices the finished list is [[1; 2; 3]] and the
    roots are taken in the order 3, 2, 1. *)
Theorem dfsGraphList_roots_earliest_finished_first :
  (∃ s sccs,
      dfs (S (length graph_edge_1_2)) graph_edge_1_2
        (getVertexIDs graph_edge_1_2) [] = Ok s
      ∧ finished s = [1; 2]
      ∧ getSCCs graph_edge_1_2 = Ok sccs
      ∧ (component_root <$> sccs) = [Some 2])
  ∧ (∃ s sccs,
      dfs (S (length graph_isolated3)) graph_isolated3
        (getVertexIDs graph_isolated3) [] = Ok s
      ∧ finished s = [1; 2; 3]
      ∧ getSCCs graph_isolated3 = Ok sccs
      ∧ (component_root <$> sccs) = [Some 3; Some 2; Some 1]).
Proof.
  split; eexists _, _; split_and!; try (vm_compute; reflexivity); reflexivity.
Qed.

(** ** The sharing rule *)

Lemma calculatePercent_tenth number :
  calculatePercent number (1 # 10) = (number + 9) / 10.
Proof.
  unfold calculatePercent, Qceiling, Qfloor. simpl.
  Z.to_euclidean_division_equations. lia.
Qed.

Lemma calculatePercent_fifth number :
  calculatePercent number (2 # 10) = (number + 4) / 5.
Proof.
  unfold calculatePercent, Qceiling, Qfloor. simpl.
  Z.to_euclidean_division_equations. lia.
Qed.

(** For sizes up to twenty thousand the binary64 computation of the
    program gives the ceilings of the model. *)
Lemma calculatePercent_binary64 : percent_agrees 20001 0 = true.
Proof. vm_compute. reflexivity. Qed.

Lemma viewed_count_nonneg viewed fs : 0 ≤ viewed_count viewed fs.
Proof. unfold viewed_count. lia. Qed.

Lemma viewed_count_cons viewed f fs :
  viewed_count viewed (f :: fs)
  = (if decide (f ∈ viewed) then 1 else 0) + viewed_count viewed fs.
Proof.
  unfold viewed_count. rewrite filter_cons. case_decide; simpl; lia.
Qed.

(** The early [return] of the first loop is taken exactly when the running
    count passes the bound. *)
Lemma exposureExceeded_spec fs viewed cap exposed :
  exposed ≤ cap →
  exposureExceeded fs viewed cap exposed = true
  ↔ ∃ i : nat, exposed + viewed_count viewed (take i fs) > cap.
Proof.
  revert exposed. induction fs as [|f fs IH]; intros exposed Hle; simpl.
  - split; [done|]. intros [i Hi]. rewrite take_nil in Hi.
    unfold viewed_count in Hi. simpl in Hi. lia.
  - case_bool_decide as Hf.
    + destruct (decide (exposed + 1 > cap)) as [Hgt|Hgt].
      * split; [|done]. intros _. exists 1%nat. simpl. rewrite take_0.
        rewrite viewed_count_cons, decide_True by done.
        pose proof (viewed_count_nonneg viewed []). lia.
      * rewrite IH by lia. split; intros [i Hi].
        -- exists (S i). simpl. rewrite viewed_count_cons, decide_True by done. lia.
        -- destruct i as [|i]; simpl in Hi.
           { unfold viewed_count in Hi. simpl in Hi. lia. }
           exists i. rewrite viewed_count_cons, decide_True in Hi by done. lia.
    + rewrite IH by lia. split; intros [i Hi].
      * exists (S i). simpl. rewrite viewed_count_cons, decide_False by done. lia.
      * destruct i as [|i]; simpl in Hi.
        { unfold viewed_count in Hi. simpl in Hi. lia. }
        exists i. rewrite viewed_count_cons, decide_False in Hi by done. lia.
Qed.

Lemma enqueueFollowers_cons f fs queue viewed :
  enqueueFollowers (f :: fs) queue viewed
  = enqueueFollowers fs (if includes queue f then queue else queue ++ [f])
      ({[f]} ∪ viewed).
Proof. reflexivity. Qed.

(** The second loop: the queue grows by the followers it did not hold, each
    once, and every follower is marked viewed. *)
Lemma enqueueFollowers_spec fs queue viewed :
  ∃ added,
    enqueueFollowers fs queue viewed = (queue ++ added, list_to_set fs ∪ viewed)
    ∧ NoDup added
    ∧ (∀ x, x ∈ added ↔ x ∈ fs ∧ x ∉ queue)
    ∧ (length added ≤ length fs)%nat.
Proof.
  revert queue viewed.
  induction fs as [|f fs IH]; intros queue viewed.
  - exists []. rewrite app_nil_r. split_and!; [|constructor| |done].
    + unfold enqueueFollowers. simpl. f_equal. set_solver.
    + intros x. split; [by intros ?%elem_of_nil | by intros [?%elem_of_nil _]].
  - rewrite enqueueFollowers_cons. unfold includes. case_bool_decide as Hf.
    + destruct (IH queue ({[f]} ∪ viewed)) as (added & -> & Hnd & Hmem & Hlen).
      exists added. split_and!; [f_equal; set_solver | done | | simpl; lia].
      intros x. rewrite Hmem, elem_of_cons. naive_solver.
    + destruct (IH (queue ++ [f]) ({[f]} ∪ viewed)) as (added & -> & Hnd & Hmem & Hlen).
      exists (f :: added). split_and!.
      * rewrite <-app_assoc. f_equal. set_solver.
      * constructor; [|done]. rewrite Hmem. set_solver.
      * intros x. rewrite !elem_of_cons, Hmem, elem_of_app, list_elem_of_singleton.
        destruct (decide (x = f)) as [->|Hx]; [by split; [split; [left|]|left]|].
        split.
        -- intros [?|[? Hno]]; [done|]. split; [by right|]. intros ?. apply Hno. by left.
        -- intros [[?|?] Hno]; [done|]. right. split; [done|]. by intros [?|?].
      * simpl. lia.
Qed.

(** C7.  [shareVideo] on an existing node with follower list [F] and
    [cap = ceil(0.2 * |F|)]: the viewed set scanned is the one passed in
    with the node itself added.  For a trend setter whose running count of
    viewed followers exceeds [cap] somewhere along [F], the queue comes
    back unchanged (and only the node itself is marked viewed); in every
    other case the queue grows by exactly the followers it did not already
    hold, each once, and every follower is marked viewed. *)
Theorem shareVideo_sharing_rule (this : CapGraph) (nodeID : Z) (node : CapNode)
    (queue : list Z) (viewed : gset Z) :
  node_at this nodeID = Some node →
  let F := followers node in
  let cap := calculatePercent (Z.of_nat (length F)) (2 # 10) in
  let scanned := {[nodeID]} ∪ viewed in
  cap = (Z.of_nat (length F) + 4) / 5
  ∧ (isTrendSetter node = true → cap_exceeded scanned F cap →
     shareVideo this nodeID queue viewed = Ok (queue, scanned))
  ∧ (isTrendSetter node = false ∨ ¬ cap_exceeded scanned F cap →
     ∃ added,
       shareVideo this nodeID queue viewed
         = Ok (queue ++ added, list_to_set F ∪ scanned)
       ∧ NoDup added
       ∧ (∀ x, x ∈ added ↔ x ∈ F ∧ x ∉ queue)
       ∧ (∀ f, f ∈ F → f ∈ queue ++ added ∧ f ∈ list_to_set F ∪ scanned)).
Proof.
  intros Hnode F cap scanned. split; [apply calculatePercent_fifth|].
  assert (Hcap : 0 ≤ cap).
  { unfold cap. rewrite calculatePercent_fifth.
    apply Z.div_pos; lia. }
  pose proof (exposureExceeded_spec F scanned cap 0 Hcap) as Hspec.
  unfold shareVideo. apply getVertex_Ok in Hnode as ->. simpl.
  fold F cap scanned. split.
  - intros -> Hex. simpl.
    destruct (exposureExceeded F scanned cap 0) eqn:E; [done|].
    assert (false = true) as [=]. apply Hspec. destruct Hex as [i Hi].
    exists i. lia.
  - intros Hno.
    assert (isTrendSetter node && exposureExceeded F scanned cap 0 = false) as ->.
    { destruct Hno as [->|Hno]; [done|]. apply andb_false_iff. right.
      apply not_true_is_false. rewrite Hspec. intros [i Hi]. apply Hno.
      exists i. lia. }
    destruct (enqueueFollowers_spec F queue scanned) as (added & -> & Hnd & Hmem & _).
    exists added. split_and!; [done..|].
    intros f Hf. split; [|set_solver].
    destruct (decide (f ∈ queue)); [set_solver|].
    apply elem_of_app. right. by apply Hmem.
Qed.

Lemma shareVideo_sharing_rule_witness :
  let F := [2; 3] in
  let cap := calculatePercent 2 (2 # 10) in
  let scanned : gset Z := {[1]} ∪ {[2; 3]} in
  cap = (2 + 4) / 5
  ∧ (true = true → cap_exceeded scanned F cap →
     shareVideo graph_star 1 [4] {[2; 3]} = Ok ([4], scanned))
  ∧ (true = false ∨ ¬ cap_exceeded scanned F cap →
     ∃ added,
       shareVideo graph_star 1 [4] {[2; 3]}
         = Ok ([4] ++ added, list_to_set F ∪ scanned)
       ∧ NoDup added
       ∧ (∀ x, x ∈ added ↔ x ∈ F ∧ x ∉ [4])
       ∧ (∀ f, f ∈ F → f ∈ [4] ++ added ∧ f ∈ list_to_set F ∪ scanned)).
Proof.
  apply (shareVideo_sharing_rule graph_star 1 (mkCapNode 1 [] [2; 3] true) [4]
           {[2; 3]}).
  reflexivity.
Defined.

(** The saturation rule at work: a trend setter both of whose followers
    have seen the video shares with nobody. *)
Example shareVideo_saturated :
  shareVideo graph_star 1 [4] {[2; 3]} = Ok ([4], {[1; 2; 3]}).
Proof. vm_compute. reflexivity. Qed.

(** ** Propagation runs *)

Lemma includes_true xs x : includes xs x = true ↔ x ∈ xs.
Proof. unfold includes. apply bool_decide_eq_true. Qed.

Lemma includes_false xs x : includes xs x = false ↔ x ∉ xs.
Proof. unfold includes. apply bool_decide_eq_false. Qed.

Lemma set_add_fresh x xs : x ∉ xs → set_add x xs = xs ++ [x].
Proof. intros Hx%includes_false. unfold set_add. by rewrite Hx. Qed.

Lemma forEachM_fuel {A S} (body : A → S → outcome S) xs s :
  (∀ x s', body x s' ≠ OutOfFuel) → forEachM body xs s ≠ OutOfFuel.
Proof.
  intros Hbody. revert s. induction xs as [|x xs IH]; intros s; simpl; [done|].
  specialize (Hbody x s). destruct (body x s); simpl; [apply IH | done | done].
Qed.

Lemma getVertex_fuel g num : getVertex g num ≠ OutOfFuel.
Proof. unfold getVertex. by destruct (map_get g num). Qed.

Lemma addVertices_fuel this sub nodes : addVertices this sub nodes ≠ OutOfFuel.
Proof.
  apply forEachM_fuel. intros x s'. case_bool_decide; [done|].
  pose proof (getVertex_fuel this x). by destruct (getVertex this x).
Qed.

Lemma addVertices_Ok this sub nodes :
  nodes ⊆ getVertexIDs this → ∃ sub', addVertices this sub nodes = Ok sub'.
Proof.
  unfold addVertices. revert sub.
  induction nodes as [|x nodes IH]; intros sub Hsub; simpl; [eauto|].
  assert (Hx : x ∈ getVertexIDs this) by set_solver.
  assert (Hrest : nodes ⊆ getVertexIDs this) by set_solver.
  case_bool_decide; simpl; [by apply IH|].
  apply getVertex_present in Hx as (nd & -> & _). simpl. by apply IH.
Qed.

Lemma shareVideo_fuel this nodeID queue viewed :
  shareVideo this nodeID queue viewed ≠ OutOfFuel.
Proof.
  unfold shareVideo. pose proof (getVertex_fuel this nodeID).
  destruct (getVertex this nodeID); simpl; [|done..]. by case_match.
Qed.

(** A returning [shareVideo] call appends some of the node's followers. *)
Lemma shareVideo_inv this nodeID queue viewed q vw :
  shareVideo this nodeID queue viewed = Ok (q, vw) →
  ∃ node added,
    node_at this nodeID = Some node ∧ q = queue ++ added
    ∧ (length added ≤ length (followers node))%nat
    ∧ added ⊆ followers node.
Proof.
  unfold shareVideo. destruct (getVertex this nodeID) as [node| |] eqn:E;
    simpl; [|done..].
  apply getVertex_Ok in E. intros Hres. exists node.
  destruct (isTrendSetter node && _).
  - exists []. simplify_eq. rewrite app_nil_r. split_and!; [done..|simpl; lia|set_solver].
  - destruct (enqueueFollowers_spec (followers node) queue ({[nodeID]} ∪ viewed))
      as (added & Heq & _ & Hmem & Hlen).
    rewrite Heq in Hres. simplify_eq. exists added. split_and!; [done..|].
    intros x Hx. by apply Hmem in Hx as [? _].
Qed.

Lemma shareVideo_Ok this nodeID queue viewed :
  nodeID ∈ getVertexIDs this → ∃ r, shareVideo this nodeID queue viewed = Ok r.
Proof.
  intros (nd & Hget & _)%getVertex_present. unfold shareVideo. rewrite Hget.
  simpl. case_match; eauto.
Qed.

(** What one iteration of the loop does to the queue, the visited set and
    the record of [shareVideo] calls. *)
Lemma sharingIteration_inv this nodeID queue st st' :
  sharingIteration this nodeID queue st = Ok st' →
  (nodeID ∈ sim_visited st ∧ toVisit st' = queue
   ∧ sim_visited st' = sim_visited st ∧ shareCalls st' = shareCalls st)
  ∨ (nodeID ∉ sim_visited st
     ∧ (∃ vw, shareVideo this nodeID queue (alreadyViewed st) = Ok (toVisit st', vw))
     ∧ sim_visited st' = sim_visited st ++ [nodeID]
     ∧ shareCalls st' = shareCalls st ++ [nodeID]).
Proof.
  unfold sharingIteration. destruct (includes (sim_visited st) nodeID) eqn:Hinc.
  - apply includes_true in Hinc. simpl.
    destruct (addVertices _ _ _); simpl; [|done..].
    case_match; intros [= <-]; simpl; left; done.
  - apply includes_false in Hinc.
    destruct (shareVideo this nodeID queue (alreadyViewed st)) as [[q vw]| |];
      simpl; [|done..].
    destruct (addVertices _ _ _); simpl; [|done..].
    rewrite set_add_fresh by done.
    case_match; intros [= <-]; simpl; right; eauto.
Qed.

Lemma sharingIteration_fuel this nodeID queue st :
  sharingIteration this nodeID queue st ≠ OutOfFuel.
Proof.
  unfold sharingIteration. destruct (includes (sim_visited st) nodeID).
  - simpl. pose proof (addVertices_fuel this (subGraph st) (sim_visited st)).
    destruct (addVertices _ _ _); simpl; [by case_match | done..].
  - pose proof (shareVideo_fuel this nodeID queue (alreadyViewed st)).
    destruct (shareVideo _ _ _ _) as [[q vw]| |]; simpl; [|done..].
    pose proof (addVertices_fuel this (subGraph st) (set_add nodeID (sim_visited st))).
    destruct (addVertices _ _ _); simpl; [by case_match | done..].
Qed.

Lemma sharingIteration_Ok this nodeID queue st :
  nodeID ∈ getVertexIDs this → sim_visited st ⊆ getVertexIDs this →
  ∃ st', sharingIteration this nodeID queue st = Ok st'.
Proof.
  intros Hkey Hvis. unfold sharingIteration.
  destruct (includes (sim_visited st) nodeID) eqn:Hinc.
  - simpl. destruct (addVertices_Ok this (subGraph st) (sim_visited st) Hvis)
      as [sub' ->]. simpl. case_match; eauto.
  - apply includes_false in Hinc.
    destruct (shareVideo_Ok this nodeID queue (alreadyViewed st) Hkey) as [[q vw] ->].
    simpl. rewrite set_add_fresh by done.
    destruct (addVertices_Ok this (subGraph st) (sim_visited st ++ [nodeID]))
      as [sub' ->]; [set_solver|]. simpl. case_match; eauto.
Qed.

(** *** The measure *)

Lemma pending_cons e this visitedNodes :
  pending (e :: this) visitedNodes
  = ((if includes visitedNodes e.1 then O else length (followers e.2))
     + pending this visitedNodes)%nat.
Proof. reflexivity. Qed.

Lemma pending_mono this visitedNodes k :
  (pending this (visitedNodes ++ [k]) ≤ pending this visitedNodes)%nat.
Proof.
  induction this as [|e this IH]; [done|]. rewrite !pending_cons.
  destruct (includes visitedNodes e.1) eqn:E1.
  - apply includes_true in E1.
    assert (includes (visitedNodes ++ [k]) e.1 = true) as ->; [|lia].
    apply includes_true. set_solver.
  - destruct (includes (visitedNodes ++ [k]) e.1); lia.
Qed.

(** Visiting a node pays for the followers it may enqueue. *)
Lemma pending_visit this visitedNodes k nd :
  node_at this k = Some nd → k ∉ visitedNodes →
  (pending this (visitedNodes ++ [k]) + length (followers nd)
   ≤ pending this visitedNodes)%nat.
Proof.
  intros Hnd Hk. unfold node_at in Hnd.
  induction this as [|[k' nd'] this IH]; [done|]. rewrite !pending_cons.
  simpl in *. destruct (decide (k' = k)) as [->|Hne].
  - injection Hnd as ->. apply includes_false in Hk as Hk'. rewrite Hk'.
    assert (includes (visitedNodes ++ [k]) k = true) as ->.
    { apply includes_true. set_solver. }
    pose proof (pending_mono this visitedNodes k). lia.
  - specialize (IH Hnd).
    destruct (includes visitedNodes k') eqn:E1.
    + apply includes_true in E1.
      assert (includes (visitedNodes ++ [k]) k' = true) as ->; [|lia].
      apply includes_true. set_solver.
    + destruct (includes (visitedNodes ++ [k]) k'); lia.
Qed.

(** Every iteration lowers queue length plus pending work. *)
Lemma sharingIteration_measure this nodeID queue st st' :
  sharingIteration this nodeID queue st = Ok st' →
  (length (toVisit st') + pending this (sim_visited st')
   ≤ length queue + pending this (sim_visited st))%nat.
Proof.
  intros [(_ & -> & -> & _)|(Hfresh & [vw Hshare] & -> & _)]%sharingIteration_inv;
    [done|].
  apply shareVideo_inv in Hshare as (node & added & Hnode & -> & Hlen & _).
  pose proof (pending_visit this (sim_visited st) nodeID node Hnode Hfresh).
  rewrite length_app. lia.
Qed.

(** With enough fuel the loop never stops for lack of it; when the
    [followers] lists mention keys only it leaves through the empty queue. *)
Lemma sharingLoop_terminates this fuel st :
  (length (toVisit st) + pending this (sim_visited st) ≤ fuel)%nat →
  (sharingLoop fuel this st).1 ≠ OutOfFuel
  ∧ (followers_closed this → toVisit st ⊆ getVertexIDs this →
     sim_visited st ⊆ getVertexIDs this →
     (sharingLoop fuel this st).1 = Ok () ∧ toVisit (sharingLoop fuel this st).2 = []).
Proof.
  revert st. induction fuel as [|fuel IH]; intros st Hfuel.
  - destruct (toVisit st) eqn:Hq; [|simpl in Hfuel; lia].
    simpl. rewrite Hq. simpl. done.
  - simpl. destruct (toVisit st) as [|nodeID queue] eqn:Hq; [simpl; done|].
    simpl in Hfuel.
    pose proof (sharingIteration_fuel this nodeID queue st) as Hnf.
    destruct (sharingIteration this nodeID queue st) as [st'|e|] eqn:Hit; [| |done].
    + pose proof (sharingIteration_measure _ _ _ _ _ Hit) as Hm.
      destruct (IH st') as [IH1 IH2]; [lia|]. split; [done|].
      intros Hcl Hqk Hvk. apply IH2; [done| |].
      * apply sharingIteration_inv in Hit
          as [(_ & -> & _)|(_ & [vw Hshare] & _)]; [set_solver|].
        apply shareVideo_inv in Hshare as (node & added & Hnode & -> & _ & Hadd).
        intros x [Hx|Hx]%elem_of_app; [set_solver|].
        eapply Hcl; [done|]. by apply Hadd.
      * apply sharingIteration_inv in Hit
          as [(_ & _ & -> & _)|(_ & _ & -> & _)]; [done|]. set_solver.
    + split; [done|]. intros _ Hqk Hvk. exfalso.
      destruct (sharingIteration_Ok this nodeID queue st) as [st' Hst'];
        [set_solver..|]. congruence.
Qed.

(** *** The depth-bounded loop *)

Lemma enqueueFollowersWithDepth_cons f fs queue viewed depth :
  enqueueFollowersWithDepth (f :: fs) queue viewed depth
  = enqueueFollowersWithDepth fs
      (if existsb (λ item : Z * Z, bool_decide (item.1 = f)) queue
       then queue else queue ++ [(f, depth + 1)])
      ({[f]} ∪ viewed) depth.
Proof. reflexivity. Qed.

Lemma enqueueFollowersWithDepth_spec fs queue viewed depth :
  ∃ added,
    (enqueueFollowersWithDepth fs queue viewed depth).1 = queue ++ added
    ∧ (length added ≤ length fs)%nat
    ∧ added.*1 ⊆ fs.
Proof.
  revert queue viewed. induction fs as [|f fs IH]; intros queue viewed.
  - exists []. by rewrite app_nil_r.
  - rewrite enqueueFollowersWithDepth_cons. case_match.
    + destruct (IH queue ({[f]} ∪ viewed)) as (added & -> & Hlen & Hsub).
      exists added. split_and!; [done | simpl; lia | set_solver].
    + destruct (IH (queue ++ [(f, depth + 1)]) ({[f]} ∪ viewed))
        as (added & -> & Hlen & Hsub).
      exists ((f, depth + 1) :: added). split_and!.
      * by rewrite <-app_assoc.
      * simpl. lia.
      * csimpl. set_solver.
Qed.

Lemma shareVideoWithDepth_fuel this nodeID queue viewed depth :
  shareVideoWithDepth this nodeID queue viewed depth ≠ OutOfFuel.
Proof.
  unfold shareVideoWithDepth. pose proof (getVertex_fuel this nodeID).
  destruct (getVertex this nodeID); simpl; [|done..]. by case_match.
Qed.

Lemma shareVideoWithDepth_inv this nodeID queue viewed depth q vw :
  shareVideoWithDepth this nodeID queue viewed depth = Ok (q, vw) →
  ∃ node added,
    node_at this nodeID = Some node ∧ q = queue ++ added
    ∧ (length added ≤ length (followers node))%nat
    ∧ added.*1 ⊆ followers node.
Proof.
  unfold shareVideoWithDepth. destruct (getVertex this nodeID) as [node| |] eqn:E;
    simpl; [|done..].
  apply getVertex_Ok in E. intros Hres. exists node.
  destruct (isTrendSetter node && _).
  - exists []. simplify_eq. rewrite app_nil_r.
    split_and!; [done..|simpl; lia|set_solver].
  - destruct (enqueueFollowersWithDepth_spec (followers node) queue
                ({[nodeID]} ∪ viewed) depth) as (added & Heq & Hlen & Hsub).
    injection Hres as Hres. rewrite Hres in Heq. simpl in Heq.
    exists added. by split_and!.
Qed.

Lemma shareVideoWithDepth_Ok this nodeID queue viewed depth :
  nodeID ∈ getVertexIDs this →
  ∃ r, shareVideoWithDepth this nodeID queue viewed depth = Ok r.
Proof.
  intros (nd & Hget & _)%getVertex_present. unfold shareVideoWithDepth.
  rewrite Hget. simpl. case_match; eauto.
Qed.

Lemma limitIteration_inv this nodeID depth queue st st' :
  limitIteration this nodeID depth queue st = Ok st' →
  (nodeID ∈ lim_visited st ∧ lim_toVisit st' = queue
   ∧ lim_visited st' = lim_visited st)
  ∨ (nodeID ∉ lim_visited st
     ∧ (∃ vw, shareVideoWithDepth this nodeID queue (lim_alreadyViewed st) depth
              = Ok (lim_toVisit st', vw))
     ∧ lim_visited st' = lim_visited st ++ [nodeID]).
Proof.
  unfold limitIteration. destruct (includes (lim_visited st) nodeID) eqn:Hinc.
  - apply includes_true in Hinc. simpl.
    destruct (addVertices _ _ _); simpl; [|done..].
    case_match; intros [= <-]; simpl; left; done.
  - apply includes_false in Hinc.
    destruct (shareVideoWithDepth this nodeID queue (lim_alreadyViewed st) depth)
      as [[q vw]| |]; simpl; [|done..].
    destruct (addVertices _ _ _); simpl; [|done..].
    rewrite set_add_fresh by done.
    case_match; intros [= <-]; simpl; right; eauto.
Qed.

Lemma limitIteration_fuel this nodeID depth queue st :
  limitIteration this nodeID depth queue st ≠ OutOfFuel.
Proof.
  unfold limitIteration. destruct (includes (lim_visited st) nodeID).
  - simpl. pose proof (addVertices_fuel this (lim_subGraph st) (lim_visited st)).
    destruct (addVertices _ _ _); simpl; [by case_match | done..].
  - pose proof (shareVideoWithDepth_fuel this nodeID queue (lim_alreadyViewed st) depth).
    destruct (shareVideoWithDepth _ _ _ _ _) as [[q vw]| |]; simpl; [|done..].
    pose proof (addVertices_fuel this (lim_subGraph st)
                  (set_add nodeID (lim_visited st))).
    destruct (addVertices _ _ _); simpl; [by case_match | done..].
Qed.

Lemma limitIteration_Ok this nodeID depth queue st :
  nodeID ∈ getVertexIDs this → lim_visited st ⊆ getVertexIDs this →
  ∃ st', limitIteration this nodeID depth queue st = Ok st'.
Proof.
  intros Hkey Hvis. unfold limitIteration.
  destruct (includes (lim_visited st) nodeID) eqn:Hinc.
  - simpl. destruct (addVertices_Ok this (lim_subGraph st) (lim_visited st) Hvis)
      as [sub' ->]. simpl. case_match; eauto.
  - apply includes_false in Hinc.
    destruct (shareVideoWithDepth_Ok this nodeID queue (lim_alreadyViewed st) depth Hkey)
      as [[q vw] ->].
    simpl. rewrite set_add_fresh by done.
    destruct (addVertices_Ok this (lim_subGraph st) (lim_visited st ++ [nodeID]))
      as [sub' ->]; [set_solver|]. simpl. case_match; eauto.
Qed.

Lemma limitIteration_measure this nodeID depth queue st st' :
  limitIteration this nodeID depth queue st = Ok st' →
  (length (lim_toVisit st') + pending this (lim_visited st')
   ≤ length queue + pending this (lim_visited st))%nat.
Proof.
  intros [(_ & -> & ->)|(Hfresh & [vw Hshare] & ->)]%limitIteration_inv; [done|].
  apply shareVideoWithDepth_inv in Hshare as (node & added & Hnode & -> & Hlen & _).
  pose proof (pending_visit this (lim_visited st) nodeID node Hnode Hfresh).
  rewrite length_app. lia.
Qed.

(** With enough fuel the depth-bounded loop is left through the empty
    queue or the safety valve (or by a throw, when a [followers] list
    mentions an unknown vertex). *)
Lemma limitLoop_terminates this maxDepth fuel st :
  (length (lim_toVisit st) + pending this (lim_visited st) ≤ fuel)%nat →
  (limitLoop fuel this maxDepth st).1 ≠ OutOfFuel
  ∧ (followers_closed this → (lim_toVisit st).*1 ⊆ getVertexIDs this →
     lim_visited st ⊆ getVertexIDs this →
     ((limitLoop fuel this maxDepth st).1 = Ok QueueEmpty
      ∧ lim_toVisit (limitLoop fuel this maxDepth st).2 = [])
     ∨ ((limitLoop fuel this maxDepth st).1 = Ok SafetyValve
        ∧ Z.of_nat (length (lim_visited (limitLoop fuel this maxDepth st).2))
          > 100000)).
Proof.
  revert st. induction fuel as [|fuel IH]; intros st Hfuel.
  - destruct (lim_toVisit st) eqn:Hq; [|simpl in Hfuel; lia].
    simpl. rewrite Hq. simpl. split; [done|]. intros. by left.
  - simpl. destruct (lim_toVisit st) as [|[nodeID depth] queue] eqn:Hq.
    { simpl. split; [done|]. intros. by left. }
    simpl in Hfuel. destruct (decide (depth > maxDepth)) as [Hdeep|Hdeep].
    { destruct (IH (mkLim queue (lim_visited st) (lim_alreadyViewed st)
                     (lim_generation st) (lim_previousGraphLength st)
                     (lim_subGraph st) (lim_emitted st))) as [IH1 IH2];
        [simpl; lia|].
      split; [done|]. intros Hcl Hqk Hvk. apply IH2; [done| |done].
      simpl. csimpl in Hqk. set_solver. }
    pose proof (limitIteration_fuel this nodeID depth queue st) as Hnf.
    destruct (limitIteration this nodeID depth queue st) as [st'|e|] eqn:Hit;
      [| |done].
    + destruct (decide (Z.of_nat (length (lim_visited st')) > 100000)) as [Hv|Hv].
      { simpl. split; [done|]. intros. by right. }
      pose proof (limitIteration_measure _ _ _ _ _ _ Hit) as Hm.
      destruct (IH st') as [IH1 IH2]; [lia|]. split; [done|].
      intros Hcl Hqk Hvk. csimpl in Hqk. apply IH2; [done| |].
      * apply limitIteration_inv in Hit
          as [(_ & -> & _)|(_ & [vw Hshare] & _)]; [set_solver|].
        apply shareVideoWithDepth_inv in Hshare
          as (node & added & Hnode & -> & _ & Hadd).
        rewrite fmap_app. intros x [Hx|Hx]%elem_of_app; [set_solver|].
        eapply Hcl; [done|]. by apply Hadd.
      * apply limitIteration_inv in Hit
          as [(_ & _ & ->)|(_ & _ & ->)]; [done|]. set_solver.
    + split; [done|]. intros _ Hqk Hvk. exfalso. csimpl in Hqk.
      destruct (limitIteration_Ok this nodeID depth queue st) as [st' Hst'];
        [set_solver..|]. congruence.
Qed.

(** C9.  From a start node that is a key, both propagation loops stop
    within [sharingFuel] iterations on every graph: the run never ends for
    lack of fuel.  When the [followers] lists mention keys only (which
    holds in every reachable graph) [startViralSharing] is left with the
    queue empty, and the depth-bounded variant, whatever the depth bound,
    is left with the queue empty or through the cutoff with more than
    100000 visited nodes. *)
Theorem viral_sharing_terminates (this : CapGraph) (startingNodeID maxDepth : Z)
    (fuel : nat) :
  startingNodeID ∈ getVertexIDs this →
  (sharingFuel this startingNodeID ≤ fuel)%nat →
  let run := startViralSharing fuel this startingNodeID in
  let runLimit := startViralSharingWithLimit fuel this startingNodeID maxDepth in
  run.1 ≠ OutOfFuel
  ∧ runLimit.1 ≠ OutOfFuel
  ∧ (followers_closed this →
     (run.1 = Ok () ∧ toVisit run.2 = [])
     ∧ ((runLimit.1 = Ok QueueEmpty ∧ lim_toVisit runLimit.2 = [])
        ∨ (runLimit.1 = Ok SafetyValve
           ∧ Z.of_nat (length (lim_visited runLimit.2)) > 100000))).
Proof.
  intros Hkey Hfuel. unfold sharingFuel in Hfuel.
  apply getVertex_present in Hkey as Hget. destruct Hget as (nd & Hget & Hnd).
  rewrite Hnd in Hfuel. simpl.
  unfold startViralSharing, startViralSharingWithLimit. rewrite Hget.
  set (st0 := mkSim _ _ _ _ _ _ _ _). set (lt0 := mkLim _ _ _ _ _ _ _).
  destruct (sharingLoop_terminates this fuel st0) as [H1 H2].
  { simpl. lia. }
  destruct (limitLoop_terminates this maxDepth fuel lt0) as [H3 H4].
  { simpl. rewrite length_fmap. lia. }
  split_and!; [done..|]. intros Hcl.
  assert (Hfol : followers nd ⊆ getVertexIDs this).
  { intros x Hx. by eapply Hcl. }
  split.
  - apply H2; [done| |set_solver]. simpl. set_solver.
  - apply H4; [done| |set_solver]. simpl. csimpl.
    rewrite <-list_fmap_compose. intros x [->|Hx]%elem_of_cons; [done|].
    apply list_elem_of_fmap in Hx as (y & -> & Hy). simpl. by apply Hfol.
Qed.

Lemma viral_sharing_terminates_witness :
  let run := startViralSharing 4 graph_mutual 1 in
  let runLimit := startViralSharingWithLimit 4 graph_mutual 1 3 in
  run.1 ≠ OutOfFuel
  ∧ runLimit.1 ≠ OutOfFuel
  ∧ (followers_closed graph_mutual →
     (run.1 = Ok () ∧ toVisit run.2 = [])
     ∧ ((runLimit.1 = Ok QueueEmpty ∧ lim_toVisit runLimit.2 = [])
        ∨ (runLimit.1 = Ok SafetyValve
           ∧ Z.of_nat (length (lim_visited runLimit.2)) > 100000))).
Proof.
  apply (viral_sharing_terminates graph_mutual 1 3 4).
  - vm_compute. left.
  - vm_compute. lia.
Defined.

(** *** One [shareVideo] call per node *)

Lemma sharingLoop_calls this fuel st :
  shareCalls st = sim_visited st → NoDup (sim_visited st) →
  shareCalls (sharingLoop fuel this st).2 = sim_visited (sharingLoop fuel this st).2
  ∧ NoDup (sim_visited (sharingLoop fuel this st).2).
Proof.
  revert st. induction fuel as [|fuel IH]; intros st Hcalls Hnd; simpl.
  - by destruct (toVisit st).
  - destruct (toVisit st) as [|nodeID queue]; [done|].
    destruct (sharingIteration this nodeID queue st) as [st'| |] eqn:Hit; [|done..].
    apply sharingIteration_inv in Hit
      as [(_ & _ & Hv & Hc)|(Hfresh & _ & Hv & Hc)]; apply IH.
    + congruence.
    + by rewrite Hv.
    + congruence.
    + rewrite Hv. apply NoDup_app. split_and!; [done| |apply NoDup_singleton].
      intros x Hx ->%list_elem_of_singleton. done.
Qed.

(** C10.  At every point of a [startViralSharing] run, complete or cut
    short, the nodes [shareVideo] has been called for are exactly the
    visited nodes in the order they were visited, and none occurs twice.
    A visited node can nevertheless come back into the queue: when 1 and 2
    follow each other and the run starts at 1, node 1 is visited and out of
    the queue after the first iteration, back in the queue after the
    second, and the complete run still calls [shareVideo] once for 1 and
    once for 2. *)
Theorem shareVideo_once_per_node (fuel : nat) (this : CapGraph) (startingNodeID : Z) :
  let st := (startViralSharing fuel this startingNodeID).2 in
  NoDup (shareCalls st)
  ∧ shareCalls st = sim_visited st
  ∧ (let after1 := (startViralSharing 1 graph_mutual 1).2 in
     let after2 := (startViralSharing 2 graph_mutual 1).2 in
     let done := startViralSharing 3 graph_mutual 1 in
     1 ∈ sim_visited after1 ∧ 1 ∉ toVisit after1
     ∧ 1 ∈ sim_visited after2 ∧ 1 ∈ toVisit after2
     ∧ done.1 = Ok () ∧ shareCalls done.2 = [1; 2]).
Proof.
  simpl. assert (Hinv : shareCalls (startViralSharing fuel this startingNodeID).2
    = sim_visited (startViralSharing fuel this startingNodeID).2
    ∧ NoDup (sim_visited (startViralSharing fuel this startingNodeID).2)).
  { unfold startViralSharing. destruct (getVertex this startingNodeID); simpl;
      [|split; [done | constructor]..].
    apply sharingLoop_calls; [done | constructor]. }
  destruct Hinv as [Heq Hnd]. split_and!.
  - by rewrite Heq.
  - done.
  - vm_compute. set_solver.
  - vm_compute. set_solver.
  - vm_compute. set_solver.
  - vm_compute. set_solver.
  - vm_compute. reflexivity.
  - vm_compute. reflexivity.
Qed.

(** ** Depth-first search *)

Lemma dfs_extends_nil s : dfs_extends s s [].
Proof.
  unfold dfs_extends. simpl. rewrite app_nil_r. split_and!; [set_solver|done..].
Qed.

Lemma dfs_extends_app s s1 s2 new1 new2 :
  dfs_extends s s1 new1 → dfs_extends s1 s2 new2 → dfs_extends s s2 (new1 ++ new2).
Proof.
  intros (Hv1 & Hf1 & Hc1) (Hv2 & Hf2 & Hc2). unfold dfs_extends.
  rewrite Hv2, Hf2, Hc2, Hv1, Hf1, Hc1, reverse_app, !app_assoc.
  split_and!; [|done..]. rewrite list_to_set_app_L. set_solver.
Qed.

Lemma unvisited_mono g seen seen' :
  seen ⊆ seen' → (unvisited g seen' ≤ unvisited g seen)%nat.
Proof. intros Hsub. apply subseteq_size. set_solver. Qed.

Lemma unvisited_visit g seen v :
  v ∈ getVertexIDs g → v ∉ seen →
  (unvisited g ({[v]} ∪ seen) < unvisited g seen)%nat.
Proof.
  intros Hv Hseen. apply subset_size. unfold keySet. apply strict_spec_alt. split; [set_solver|].
  intros Heq. assert (v ∈ list_to_set (C := gset Z) (getVertexIDs g) ∖ seen) as Hin by set_solver.
  rewrite <-Heq in Hin. set_solver.
Qed.

Lemma unvisited_bound g seen : map_ok g → (unvisited g seen ≤ length g)%nat.
Proof.
  intros Hok. unfold unvisited, keySet.
  transitivity (size (list_to_set (C := gset Z) (getVertexIDs g))).
  - apply subseteq_size. set_solver.
  - rewrite size_list_to_set by done. unfold getVertexIDs, map_keys.
    by rewrite length_fmap.
Qed.

Section depth_first.
Context (graph : CapGraph) (Hclosed : neighbors_closed graph).

(** A [forEach] that visits the vertices not seen so far. *)
Lemma visit_each fuel (Hvisit : visit_ok graph fuel) ns s :
  ns ⊆ getVertexIDs graph →
  (unvisited graph (visited s) ≤ fuel)%nat →
  ∃ new s',
    forEachM (λ n s', if bool_decide (n ∈ visited s') then Ok s'
                      else dfsVisit fuel graph n s') ns s = Ok s'
    ∧ dfs_extends s s' new ∧ NoDup new
    ∧ (∀ x, x ∈ new → x ∈ getVertexIDs graph ∧ x ∉ visited s)
    ∧ (∀ n, n ∈ ns → n ∈ visited s').
Proof.
  revert s. induction ns as [|n ns IH]; intros s Hns Hfuel.
  - exists [], s. split_and!; [done | apply dfs_extends_nil | constructor | |].
    + by intros x ?%elem_of_nil.
    + by intros x ?%elem_of_nil.
  - assert (Hn : n ∈ getVertexIDs graph) by set_solver.
    assert (Hrest : ns ⊆ getVertexIDs graph) by set_solver.
    simpl. case_bool_decide as Hseen.
    + simpl.
      destruct (IH s Hrest Hfuel) as (new & s' & -> & Hext & Hnd & Hnew & Hall).
      exists new, s'. split_and!; [done..|].
      intros x [->|Hx]%elem_of_cons; [|by apply Hall].
      destruct Hext as (-> & _). set_solver.
    + destruct (Hvisit n s Hn Hseen Hfuel)
        as (new1 & s1 & -> & Hext1 & Hnd1 & Hlast & Hnew1).
      simpl. destruct (IH s1 Hrest) as (new2 & s2 & -> & Hext2 & Hnd2 & Hnew2 & Hall).
      { etransitivity; [|exact Hfuel]. apply unvisited_mono.
        destruct Hext1 as (-> & _). set_solver. }
      exists (new1 ++ new2), s2. split_and!.
      * done.
      * by eapply dfs_extends_app.
      * apply NoDup_app. split_and!; [done| |done].
        intros x Hx1 Hx2. apply Hnew2 in Hx2 as [_ Hx2].
        destruct Hext1 as (Hv1 & _). rewrite Hv1 in Hx2. set_solver.
      * intros x [Hx|Hx]%elem_of_app; [by apply Hnew1|].
        apply Hnew2 in Hx as [? Hx]. split; [done|].
        destruct Hext1 as (Hv1 & _). rewrite Hv1 in Hx. set_solver.
      * intros x [->|Hx]%elem_of_cons; [|by apply Hall].
        destruct Hext1 as (Hv1 & _), Hext2 as (Hv2 & _). rewrite Hv2, Hv1.
        apply last_Some in Hlast as [l' ->]. set_solver.
Qed.

(** A [dfsVisit] call from an unvisited key returns, having visited and
    finished new keys only, the key it was called for last. *)
Lemma dfsVisit_spec fuel : visit_ok graph fuel.
Proof.
  induction fuel as [|fuel IH]; intros v s Hv Hseen Hfuel.
  - pose proof (unvisited_visit graph (visited s) v Hv Hseen). lia.
  - simpl. destruct (getVertex_present graph v Hv) as (vNode & -> & Hnode). simpl.
    set (s1 := mkDfs ({[v]} ∪ visited s) (finished s) (sccNodeIDs s)).
    destruct (visit_each fuel IH (neighbors vNode) s1)
      as (new & s2 & -> & (Hv2 & Hf2 & Hc2) & Hnd & Hnew & _).
    { intros n Hn. by eapply Hclosed. }
    { simpl. pose proof (unvisited_visit graph (visited s) v Hv Hseen). lia. }
    simpl. exists (new ++ [v]), (mkDfs (visited s2) (v :: finished s2) (sccNodeIDs s2 ++ [v])).
    split_and!.
    + done.
    + unfold dfs_extends. simpl. rewrite Hv2, Hf2, Hc2, reverse_snoc, app_assoc.
      simpl. split_and!; [|done..]. rewrite list_to_set_snoc_L. set_solver.
    + apply NoDup_app. split_and!; [done| |apply NoDup_singleton].
      intros x Hx ->%list_elem_of_singleton. apply Hnew in Hx as [_ Hx].
      simpl in Hx. set_solver.
    + apply last_snoc.
    + intros x [Hx| ->%list_elem_of_singleton]%elem_of_app; [|done].
      apply Hnew in Hx as [? Hx]. simpl in Hx. split; [done | set_solver].
Qed.

(** The root loop of the first pass: every key ends up finished once. *)
Lemma dfs_spec fuel sccIDs :
  map_ok graph → (length graph ≤ fuel)%nat →
  ∃ s, dfs fuel graph (getVertexIDs graph) sccIDs = Ok s
    ∧ NoDup (finished s)
    ∧ ∀ x, x ∈ finished s ↔ x ∈ getVertexIDs graph.
Proof.
  intros Hok Hfuel. unfold dfs.
  destruct (visit_each fuel (dfsVisit_spec fuel) (reverse (getVertexIDs graph))
              (mkDfs ∅ [] sccIDs))
    as (new & s & -> & (Hv & Hf & _) & Hnd & Hnew & Hall).
  { intros x. by rewrite elem_of_reverse. }
  { pose proof (unvisited_bound graph ∅ Hok). simpl. lia. }
  exists s. simpl in Hf, Hv. rewrite app_nil_r in Hf. rewrite Hf. split_and!; [done| |].
  - by rewrite reverse_Permutation.
  - intros x. rewrite elem_of_reverse. split; [by intros [? _]%Hnew|].
    intros Hx. apply elem_of_reverse, Hall in Hx.
    rewrite Hv in Hx. set_solver.
Qed.

End depth_first.

(** ** The transpose graph *)

Lemma addVertex_neighbors_within num g P :
  neighbors_within g P → neighbors_within (addVertex num g) P.
Proof.
  intros Hw k nd. rewrite node_at_addVertex. intros Hnd n Hin.
  case_decide; simplify_eq/=; [by apply elem_of_nil in Hin | by eapply Hw].
Qed.

Lemma addNeighbor_neighbors_within v k g (P : Z → Prop) :
  P v → neighbors_within g P → neighbors_within (map_alter (addNeighbor v) g k) P.
Proof.
  intros Hv Hw k' nd. rewrite node_at_alter. intros Hnd n Hin.
  destruct (decide (k = k')) as [->|?]; [|by eapply Hw].
  destruct (node_at g k') as [nd0|] eqn:E; [|done].
  injection Hnd as <-. simpl in Hin.
  apply elem_of_app in Hin as [Hin| ->%list_elem_of_singleton]; [by eapply Hw | done].
Qed.

(** The inner loop of [transpose] for one vertex [v]. *)
Lemma transpose_neighbors_spec v (P : Z → Prop) ns t :
  let t' :=
    foldl (λ t neighbor,
             let t' := if bool_decide (neighbor ∈ getVertexIDs t)
                       then t else addVertex neighbor t in
             map_alter (addNeighbor v) t' neighbor) t ns in
  map_ok t → P v → neighbors_within t P →
  map_ok t' ∧ neighbors_within t' P
  ∧ ∀ x, x ∈ getVertexIDs t' ↔ x ∈ getVertexIDs t ∨ x ∈ ns.
Proof.
  revert t. induction ns as [|n ns IH]; intros t; simpl.
  - intros Hok Hv Hw. split_and!; [done..|]. set_solver.
  - intros Hok Hv Hw.
    set (t1 := if bool_decide (n ∈ getVertexIDs t) then t else addVertex n t).
    assert (Hok1 : map_ok t1).
    { unfold t1. case_bool_decide; [done | by apply addVertex_map_ok]. }
    assert (Hw1 : neighbors_within t1 P).
    { unfold t1. case_bool_decide; [done | by apply addVertex_neighbors_within]. }
    assert (Hk1 : ∀ x, x ∈ getVertexIDs t1 ↔ x ∈ getVertexIDs t ∨ x = n).
    { intros x. unfold t1. case_bool_decide; [set_solver|].
      rewrite getVertexIDs_addVertex. tauto. }
    destruct (IH (map_alter (addNeighbor v) t1 n)) as (Hok' & Hw' & Hk').
    + unfold map_ok. by rewrite getVertexIDs_alter.
    + done.
    + by apply addNeighbor_neighbors_within.
    + split_and!; [done..|]. intros x. rewrite Hk', getVertexIDs_alter, Hk1.
      set_solver.
Qed.

Lemma transpose_fold_spec (g : CapGraph) vs t :
  neighbors_closed g → vs ⊆ getVertexIDs g →
  let t' :=
    foldl (λ transposedGraph v,
             match getVertex g v with
             | Ok origiNode =>
                 let t1 := if bool_decide (v ∈ getVertexIDs transposedGraph)
                           then transposedGraph else addVertex v transposedGraph in
                 foldl (λ t neighbor,
                          let t' := if bool_decide (neighbor ∈ getVertexIDs t)
                                    then t else addVertex neighbor t in
                          map_alter (addNeighbor v) t' neighbor)
                   t1 (neighbors origiNode)
             | _ => transposedGraph
             end) t vs in
  map_ok t → getVertexIDs t ⊆ getVertexIDs g →
  neighbors_within t (λ n, n ∈ getVertexIDs g) →
  map_ok t' ∧ getVertexIDs t' ⊆ getVertexIDs g
  ∧ neighbors_within t' (λ n, n ∈ getVertexIDs g)
  ∧ getVertexIDs t ⊆ getVertexIDs t' ∧ vs ⊆ getVertexIDs t'.
Proof.
  intros Hcl. revert t. induction vs as [|v vs IH]; intros t Hvs; simpl.
  - intros Hok Hsub Hw. split_and!; [done..|]. set_solver.
  - intros Hok Hsub Hw.
    assert (Hv : v ∈ getVertexIDs g) by set_solver.
    destruct (getVertex_present g v Hv) as (origiNode & -> & Hnode).
    set (t1 := if bool_decide (v ∈ getVertexIDs t) then t else addVertex v t).
    assert (Hok1 : map_ok t1).
    { unfold t1. case_bool_decide; [done | by apply addVertex_map_ok]. }
    assert (Hw1 : neighbors_within t1 (λ n, n ∈ getVertexIDs g)).
    { unfold t1. case_bool_decide; [done | by apply addVertex_neighbors_within]. }
    assert (Hk1 : ∀ x, x ∈ getVertexIDs t1 ↔ x ∈ getVertexIDs t ∨ x = v).
    { intros x. unfold t1. case_bool_decide; [set_solver|].
      rewrite getVertexIDs_addVertex. tauto. }
    destruct (transpose_neighbors_spec v (λ n, n ∈ getVertexIDs g)
                (neighbors origiNode) t1 Hok1 Hv Hw1) as (Hok2 & Hw2 & Hk2).
    match goal with |- context [foldl _ (foldl ?f t1 ?ns) vs] =>
      set (t2 := foldl f t1 ns) in * end.
    assert (Hsub2 : getVertexIDs t2 ⊆ getVertexIDs g).
    { intros x. rewrite Hk2, Hk1. intros [[?| ->]|Hx]; [set_solver | done |].
      by eapply Hcl. }
    destruct (IH t2) as (Hok' & Hsub' & Hw' & Hmono & Hvs'); [set_solver|done..|].
    split_and!; [done..| |].
    + intros x Hx. apply Hmono, Hk2. left. apply Hk1. by left.
    + intros x [->|Hx]%elem_of_cons; [|by apply Hvs'].
      apply Hmono, Hk2. left. apply Hk1. by right.
Qed.

(** The transpose has the keys of the graph, and its adjacency lists
    mention keys only. *)
Lemma transpose_spec (g : CapGraph) :
  neighbors_closed g →
  map_ok (transpose g)
  ∧ (∀ x, x ∈ getVertexIDs (transpose g) ↔ x ∈ getVertexIDs g)
  ∧ neighbors_closed (transpose g).
Proof.
  intros Hcl. unfold transpose.
  destruct (transpose_fold_spec g (getVertexIDs g) emptyGraph Hcl)
    as (Hok & Hsub & Hw & _ & Hall); [done | apply NoDup_nil_2 | set_solver | by intros ? ? ? | ].
  split_and!; [done | split; [apply Hsub | apply Hall] |].
  intros k nd Hnd n Hn. apply Hall. by eapply Hw.
Qed.

(** ** Component graphs *)

Lemma head_map_keys_set {V} (m : list (Z * V)) k v x :
  head (map_keys m) = Some x → head (map_keys (map_set m k v)) = Some x.
Proof.
  rewrite map_keys_set. case_decide; [done|]. intros Hh.
  apply head_Some in Hh as [l' ->]. done.
Qed.

Lemma getVertexIDs_foldl_alter (f : Z → CapNode → CapNode) ns (g : CapGraph) k :
  getVertexIDs (foldl (λ g n, map_alter (f n) g k) g ns) = getVertexIDs g.
Proof.
  revert g. induction ns as [|n ns IH]; intros g; simpl; [done|].
  by rewrite IH, getVertexIDs_alter.
Qed.

Lemma buildComponent_loop_spec this ids scc :
  ids ⊆ getVertexIDs this → map_ok scc →
  ∃ scc',
    forEachM
      (λ nodeID scc,
         origiNode ← getVertex this nodeID;
         Ok (foldl (λ g n, map_alter (addNeighbor n) g nodeID)
               (addVertex nodeID scc) (neighbors origiNode)))
      ids scc = Ok scc'
    ∧ map_ok scc'
    ∧ (∀ x, x ∈ getVertexIDs scc' ↔ x ∈ getVertexIDs scc ∨ x ∈ ids)
    ∧ (∀ v, head (getVertexIDs scc) = Some v → head (getVertexIDs scc') = Some v).
Proof.
  revert scc. induction ids as [|nodeID ids IH]; intros scc Hids Hok; simpl.
  - exists scc. split_and!; [done..| |done]. set_solver.
  - assert (Hn : nodeID ∈ getVertexIDs this) by set_solver.
    destruct (getVertex_present this nodeID Hn) as (origiNode & -> & _). simpl.
    set (scc2 := foldl _ _ _).
    assert (Hk2 : getVertexIDs scc2 = getVertexIDs (addVertex nodeID scc)).
    { unfold scc2. apply (getVertexIDs_foldl_alter addNeighbor). }
    destruct (IH scc2) as (scc' & -> & Hok' & Hk' & Hh'); [set_solver| |].
    { unfold map_ok. rewrite Hk2. by apply addVertex_map_ok. }
    exists scc'. split_and!; [done..| |].
    + intros x. rewrite Hk', Hk2, getVertexIDs_addVertex. set_solver.
    + intros v Hv. apply Hh'. rewrite Hk2. by apply head_map_keys_set.
Qed.

(** A component graph holds the collected vertices, once each, under the
    root it was opened with. *)
Lemma buildComponent_spec this v ids :
  ids ⊆ getVertexIDs this → v ∈ ids →
  ∃ scc, buildComponent this v ids = Ok scc
    ∧ map_ok scc
    ∧ (∀ x, x ∈ getVertexIDs scc ↔ x ∈ ids)
    ∧ component_root scc = Some v.
Proof.
  intros Hids Hv. unfold buildComponent. cbv zeta.
  destruct (buildComponent_loop_spec this ids (newCapGraph v) Hids)
    as (scc & -> & Hok & Hk & Hh).
  { apply addVertex_map_ok, NoDup_nil_2. }
  exists scc. split_and!; [done..| |by apply Hh].
  intros x. rewrite Hk. unfold newCapGraph. rewrite getVertexIDs_addVertex.
  unfold emptyGraph. set_solver.
Qed.

(** ** The second pass *)

Lemma pop_nil : pop [] = None.
Proof. reflexivity. Qed.

Lemma pop_snoc xs x : pop (xs ++ [x]) = Some (x, xs).
Proof. unfold pop. by rewrite reverse_snoc, reverse_involutive. Qed.

Lemma pop_inv xs :
  match pop xs with
  | None => xs = []
  | Some (x, rest) => xs = rest ++ [x]
  end.
Proof.
  destruct xs as [|y xs _] using rev_ind; [done|]. by rewrite pop_snoc.
Qed.

Lemma members_snoc sccs (scc : CapGraph) :
  members (sccs ++ [scc]) = members sccs ++ getVertexIDs scc.
Proof.
  unfold members. rewrite fmap_app, concat_app. simpl. by rewrite app_nil_r.
Qed.

Section second_pass.
Context (this graph : CapGraph).
Context (Hclosed : neighbors_closed graph) (Hok : map_ok graph).
Context (Hkeys : getVertexIDs graph ⊆ getVertexIDs this).

Lemma dfsGraphList_loop_spec fuel iters vertices s sccList :
  (length graph ≤ fuel)%nat →
  (length vertices ≤ iters)%nat →
  (∀ x, x ∈ vertices → x ∈ getVertexIDs graph ∧ x ∉ visited s) →
  sccNodeIDs s = [] →
  NoDup (members sccList) →
  (∀ x, x ∈ members sccList ↔ x ∈ visited s) →
  ∃ sccs,
    dfsGraphList_loop iters fuel this graph vertices s sccList = Ok sccs
    ∧ NoDup (members sccs)
    ∧ (∀ x, x ∈ vertices ∨ x ∈ visited s → x ∈ members sccs)
    ∧ (∀ x, x ∈ members sccs → x ∈ getVertexIDs graph ∨ x ∈ visited s).
Proof.
  intros Hfuel. revert vertices s sccList.
  induction iters as [|iters IH]; intros vertices s sccList Hlen Hvs Hids Hnd Hmem.
  - destruct vertices; [|simpl in Hlen; lia]. simpl.
    exists sccList. split_and!; [done..| |].
    + intros x [?%elem_of_nil|Hx]; [done | by apply Hmem].
    + intros x Hx. right. by apply Hmem.
  - simpl. pose proof (pop_inv vertices) as Hpop.
    destruct (pop vertices) as [[v vertices1]|]; subst vertices.
    2:{ exists sccList. split_and!; [done..| |].
        - intros x [?%elem_of_nil|Hx]; [done | by apply Hmem].
        - intros x Hx. right. by apply Hmem. }
    destruct (Hvs v) as [Hv Hseen]; [set_solver|].
    rewrite bool_decide_eq_false_2 by done.
    destruct (dfsVisit_spec graph Hclosed fuel v s Hv Hseen)
      as (new & s' & -> & (Hv' & _ & Hc') & Hndnew & Hlast & Hnew).
    { pose proof (unvisited_bound graph (visited s) Hok). lia. }
    simpl. rewrite Hids in Hc'. simpl in Hc'. rewrite Hc'.
    apply last_Some in Hlast as Hvin. destruct Hvin as [l' Hl'].
    destruct (buildComponent_spec this v new) as (scc & -> & Hokc & Hkc & _).
    { intros x Hx. apply Hkeys. by apply Hnew. }
    { rewrite Hl'. set_solver. }
    simpl.
    destruct (IH (filter (λ id, negb (includes new id)) vertices1)
                (mkDfs (visited s') (finished s') []) (sccList ++ [scc]))
      as (sccs & -> & Hnd' & Hin' & Hout').
    + rewrite length_app in Hlen. simpl in Hlen.
      pose proof (length_filter (λ id, negb (includes new id)) vertices1). lia.
    + intros x [Hx2 Hx1]%list_elem_of_filter. simpl.
      apply negb_True in Hx2. rewrite Is_true_true, includes_true in Hx2.
      destruct (Hvs x) as [? ?]; [set_solver|]. split; [done|].
      rewrite Hv'. set_solver.
    + done.
    + rewrite members_snoc. apply NoDup_app. split_and!; [done| |done].
      intros x Hx1 Hx2%Hkc. apply Hmem in Hx1. by apply Hnew in Hx2 as [_ ?].
    + intros x. rewrite members_snoc, elem_of_app, Hmem, Hkc. simpl.
      rewrite Hv'. set_solver.
    + exists sccs. split_and!; [done..| |].
      * intros x Hx. apply Hin'. simpl. rewrite Hv'.
        destruct (decide (x ∈ new)) as [?|Hno]; [set_solver|].
        destruct Hx as [[Hx| ->%list_elem_of_singleton]%elem_of_app|Hx].
        -- left. apply list_elem_of_filter. split; [|done].
           apply negb_True. by rewrite Is_true_true, includes_true.
        -- exfalso. apply Hno. rewrite Hl'. set_solver.
        -- set_solver.
      * intros x Hx. apply Hout' in Hx as [?|Hx]; [by left|].
        simpl in Hx. rewrite Hv' in Hx.
        apply elem_of_union in Hx as [?|Hx]; [by right|].
        left. apply Hnew. set_solver.
Qed.

End second_pass.

(** ** [getSCCs] *)

(** On a graph whose [following] lists mention keys only, [getSCCs]
    returns, and the returned graphs hold every key exactly once. *)
Lemma getSCCs_spec (g : CapGraph) :
  map_ok g → neighbors_closed g →
  ∃ sccs, getSCCs g = Ok sccs
    ∧ NoDup (members sccs)
    ∧ ∀ x, x ∈ members sccs ↔ x ∈ getVertexIDs g.
Proof.
  intros Hok Hcl. unfold getSCCs.
  destruct (dfs_spec g Hcl (S (length g)) [] Hok) as (s & -> & Hnd & Hfin); [lia|].
  simpl. destruct (transpose_spec g Hcl) as (Hokt & Hkt & Hclt).
  unfold dfsGraphList.
  destruct (dfsGraphList_loop_spec g (transpose g) Hclt Hokt
              (λ x, proj1 (Hkt x)) (S (length (transpose g))) (length (finished s))
              (finished s) (mkDfs ∅ [] []) [])
    as (sccs & -> & Hnd' & Hin & Hout); [lia | done | | done | constructor | |].
  - intros x Hx. split; [by apply Hkt, Hfin | set_solver].
  - intros x. simpl. set_solver.
  - exists sccs. split_and!; [done..|]. intros x. split.
    + intros Hx. apply Hout in Hx as [Hx|Hx]; [by apply Hkt | set_solver].
    + intros Hx. apply Hin. left. by apply Hfin.
Qed.

Lemma elem_of_concat {A} (x : A) (ls : list (list A)) :
  x ∈ concat ls ↔ ∃ l, l ∈ ls ∧ x ∈ l.
Proof.
  induction ls as [|l0 ls IH]; simpl.
  - split; [by intros ?%elem_of_nil | by intros (? & ?%elem_of_nil & _)].
  - rewrite elem_of_app, IH. split.
    + intros [?|(l & ? & ?)]; [exists l0; split; [left|done] | exists l; split; [by right|done]].
    + intros (l & [->|?]%elem_of_cons & ?); [by left | right; eauto].
Qed.

Lemma NoDup_concat_unique {A} (ls : list (list A)) i j a b x :
  NoDup (concat ls) → ls !! i = Some a → ls !! j = Some b →
  x ∈ a → x ∈ b → i = j.
Proof.
  revert i j. induction ls as [|l ls IH]; intros i j Hnd Hi Hj Ha Hb; [done|].
  simpl in Hnd. apply NoDup_app in Hnd as (_ & Hdisj & Hnd).
  destruct i as [|i], j as [|j]; simplify_eq/=; [done| | |f_equal; by eapply IH].
  - exfalso. eapply Hdisj; [done|]. apply elem_of_concat.
    exists b. split; [|done]. by eapply list_elem_of_lookup_2.
  - exfalso. eapply Hdisj; [done|]. apply elem_of_concat.
    exists a. split; [|done]. by eapply list_elem_of_lookup_2.
Qed.

(** C3.  On a graph whose keys are distinct and whose [following] lists
    mention keys only, [getSCCs] returns; the vertices of the returned
    components are together the keys of the graph; and a vertex lies in one
    component only (the list of all component vertices is a rearrangement
    of the key list, without repetition). *)
Theorem getSCCs_partitions_vertices (g : CapGraph) :
  map_ok g → neighbors_closed g →
  ∃ sccs, getSCCs g = Ok sccs
    ∧ (∀ v, v ∈ getVertexIDs g ↔ ∃ scc, scc ∈ sccs ∧ v ∈ getVertexIDs scc)
    ∧ (∀ i j ci cj v, sccs !! i = Some ci → sccs !! j = Some cj →
         v ∈ getVertexIDs ci → v ∈ getVertexIDs cj → i = j)
    ∧ members sccs ≡ₚ getVertexIDs g.
Proof.
  intros Hok Hcl. destruct (getSCCs_spec g Hok Hcl) as (sccs & Hget & Hnd & Hmem).
  exists sccs. split_and!; [done| | |].
  - intros v. rewrite <-Hmem. unfold members. rewrite elem_of_concat. split.
    + intros (l & Hl & Hv). apply list_elem_of_fmap in Hl as (scc & -> & Hscc). eauto.
    + intros (scc & Hscc & Hv). exists (getVertexIDs scc). split; [|done].
      apply list_elem_of_fmap. eauto.
  - intros i j ci cj v Hi Hj Hvi Hvj.
    apply (NoDup_concat_unique (getVertexIDs <$> sccs) i j
             (getVertexIDs ci) (getVertexIDs cj) v); [exact Hnd | | |done..].
    + by rewrite list_lookup_fmap, Hi.
    + by rewrite list_lookup_fmap, Hj.
  - by apply NoDup_Permutation.
Qed.

Lemma graph_cycle3_quietly : reachable_quietly graph_cycle3.
Proof.
  apply (quietly_step (AddEdge 3 1)); [|reflexivity].
  apply (quietly_step (AddEdge 2 3)); [|reflexivity].
  apply (quietly_step (AddEdge 1 2)); [|reflexivity].
  apply (quietly_step (AddVertex 3)); [|reflexivity].
  apply (quietly_step (AddVertex 2)); [|reflexivity].
  apply (quietly_step (AddVertex 1)); [|reflexivity].
  apply quietly_new.
Qed.

Lemma getSCCs_partitions_vertices_witness :
  ∃ sccs, getSCCs graph_cycle3 = Ok sccs
    ∧ (∀ v, v ∈ getVertexIDs graph_cycle3
          ↔ ∃ scc, scc ∈ sccs ∧ v ∈ getVertexIDs scc)
    ∧ (∀ i j ci cj v, sccs !! i = Some ci → sccs !! j = Some cj →
         v ∈ getVertexIDs ci → v ∈ getVertexIDs cj → i = j)
    ∧ members sccs ≡ₚ getVertexIDs graph_cycle3.
Proof.
  apply (getSCCs_partitions_vertices graph_cycle3).
  - apply reachable_map_ok, quietly_reachable, graph_cycle3_quietly.
  - apply reachable_quietly_refs_closed, graph_cycle3_quietly.
Defined.

(** Where a [following] list mentions an unknown vertex, [getSCCs] throws
    in its first pass and returns no components. *)
Example getSCCs_dangling_throws :
  getSCCs graph_dangling = Throw (VertexNotFound 2).
Proof. vm_compute. reflexivity. Qed.

(** ** Ranking *)

Lemma sort_insert_Permutation {A} (cmp : A → A → Z) x xs :
  sort_insert cmp x xs ≡ₚ x :: xs.
Proof.
  induction xs as [|y xs IH]; simpl; [done|].
  case_decide; [done|]. rewrite IH. apply Permutation_swap.
Qed.

(** Sorting rearranges. *)
Lemma array_sort_Permutation {A} (cmp : A → A → Z) xs : array_sort cmp xs ≡ₚ xs.
Proof.
  induction xs as [|x xs IH]; simpl; [done|].
  by rewrite sort_insert_Permutation, IH.
Qed.

Lemma collect_nodes_spec this ids queue :
  ids ⊆ getVertexIDs this →
  ∃ queue',
    forEachM (λ nodeID nodeQueue,
                node ← getVertex this nodeID;
                Ok (nodeQueue ++ [(nodeID, node)])) ids queue = Ok queue'
    ∧ queue'.*1 = queue.*1 ++ ids.
Proof.
  revert queue. induction ids as [|nodeID ids IH]; intros queue Hids; simpl.
  - exists queue. by rewrite app_nil_r.
  - assert (Hn : nodeID ∈ getVertexIDs this) by set_solver.
    destruct (getVertex_present this nodeID Hn) as (node & -> & _). simpl.
    destruct (IH (queue ++ [(nodeID, node)])) as (queue' & -> & Hq); [set_solver|].
    exists queue'. split; [done|]. rewrite Hq, fmap_app, <-app_assoc. done.
Qed.

(** The queue refers to the members of the component, each once. *)
Lemma buildNodeQueue_spec this scc :
  getVertexIDs scc ⊆ getVertexIDs this →
  ∃ queue, buildNodeQueue this scc = Ok queue ∧ queue.*1 ≡ₚ getVertexIDs scc.
Proof.
  intros Hsub. unfold buildNodeQueue.
  destruct (collect_nodes_spec this (getVertexIDs scc) [] Hsub) as (queue & -> & Hq).
  simpl. eexists. split; [done|].
  rewrite array_sort_Permutation, Hq. done.
Qed.

Lemma flag_setIsTrendSetter (this : CapGraph) ref k :
  ref ∈ getVertexIDs this →
  flag (map_alter (setIsTrendSetter true) this ref) k
  = flag this k || bool_decide (k = ref).
Proof.
  intros Href. unfold flag. rewrite node_at_alter.
  destruct (decide (ref = k)) as [->|Hne].
  - apply getVertex_present in Href as (nd & _ & ->). simpl.
    rewrite bool_decide_eq_true_2 by done. by rewrite orb_true_r.
  - rewrite bool_decide_eq_false_2 by congruence. by rewrite orb_false_r.
Qed.

(** The flags after the marking loop: those set before, and the first
    [numTrendSetters] references of the queue. *)
Lemma flag_markTrendSetters numTrendSetters (queue : list (Z * CapNode))
    (this : CapGraph) k :
  queue.*1 ⊆ getVertexIDs this →
  flag (markTrendSetters numTrendSetters queue this) k
  = flag this k || bool_decide (k ∈ take numTrendSetters queue.*1).
Proof.
  revert queue this. induction numTrendSetters as [|n IH]; intros queue this Hq; simpl.
  - by rewrite orb_false_r.
  - destruct queue as [|[ref nd] queue]; csimpl.
    + rewrite IH by done. csimpl. by rewrite take_nil.
    + csimpl in Hq. rewrite IH.
      2:{ rewrite getVertexIDs_alter. set_solver. }
      rewrite flag_setIsTrendSetter by set_solver. rewrite <-orb_assoc. f_equal.
      apply eq_true_iff_eq. rewrite orb_true_iff, !bool_decide_eq_true, elem_of_cons.
      done.
Qed.

Lemma flagged_count_ext (g g' : CapGraph) ids :
  (∀ k, k ∈ ids → flag g' k = flag g k) → flagged_count g' ids = flagged_count g ids.
Proof.
  unfold flagged_count. induction ids as [|k ids IH]; intros Hext; [done|].
  rewrite !filter_cons. rewrite (Hext k) by left.
  case_decide; simpl; rewrite IH; try done; intros; apply Hext; by right.
Qed.

Lemma flagged_count_none (g : CapGraph) ids :
  (∀ k, k ∈ ids → flag g k = false) → flagged_count g ids = O.
Proof.
  unfold flagged_count. induction ids as [|k ids IH]; intros Hnone; [done|].
  rewrite filter_cons, (Hnone k) by left. rewrite decide_False by done.
  apply IH. intros. apply Hnone. by right.
Qed.

(** Marking on unflagged, pairwise distinct members flags as many of them
    as the loop has turns, up to the size of the queue. *)
Lemma flagged_count_markTrendSetters n (queue : list (Z * CapNode))
    (this : CapGraph) ids :
  NoDup ids → queue.*1 ≡ₚ ids → ids ⊆ getVertexIDs this →
  (∀ k, k ∈ ids → flag this k = false) →
  flagged_count (markTrendSetters n queue this) ids = (n `min` length ids)%nat.
Proof.
  intros Hnd Hperm Hsub Hnone. unfold flagged_count.
  assert (Hndq : NoDup queue.*1) by by rewrite Hperm.
  transitivity (length (take n queue.*1)).
  2:{ rewrite length_take, Hperm. done. }
  apply Permutation_length, NoDup_Permutation.
  - by apply NoDup_filter.
  - apply (sublist_NoDup _ queue.*1); [done | apply sublist_take].
  - intros k. rewrite list_elem_of_filter, flag_markTrendSetters by by rewrite Hperm.
    split.
    + intros [Hflag Hk]. rewrite Hnone in Hflag by done. simpl in Hflag.
      by apply bool_decide_eq_true in Hflag.
    + intros Hk. split.
      * rewrite bool_decide_eq_true_2 by done. by rewrite orb_true_r.
      * rewrite <-Hperm. by eapply subseteq_take.
Qed.

Lemma members_cons (scc : CapGraph) sccs :
  members (scc :: sccs) = getVertexIDs scc ++ members sccs.
Proof. reflexivity. Qed.

(** The number of flags a component of size [m] receives. *)
Lemma trendSetter_quota m :
  (Z.to_nat (calculatePercent (Z.of_nat m) (1 # 10)) `min` m)%nat
  = Z.to_nat (calculatePercent (Z.of_nat m) (1 # 10)).
Proof.
  rewrite calculatePercent_tenth.
  assert ((Z.of_nat m + 9) / 10 ≤ Z.of_nat m).
  { Z.to_euclidean_division_equations. lia. }
  lia.
Qed.

(** The ranking loop over components that are pairwise disjoint, made of
    keys, and unflagged: it returns; flags outside the components stay as
    they were; every component ends with its quota of flags. *)
Lemma rankComponents_spec SCCList (this : CapGraph) :
  NoDup (members SCCList) →
  (∀ x, x ∈ members SCCList → x ∈ getVertexIDs this ∧ flag this x = false) →
  ∃ this',
    rankComponents SCCList this = (Ok (), this')
    ∧ (∀ k, k ∉ members SCCList → flag this' k = flag this k)
    ∧ (∀ scc, scc ∈ SCCList →
         let m := Z.of_nat (length (getVertexIDs scc)) in
         Z.of_nat (flagged_count this' (getVertexIDs scc))
         = if decide (m > 2) then calculatePercent m (1 # 10) else 0).
Proof.
  revert this. induction SCCList as [|scc SCCList IH]; intros this Hnd Hmem.
  - exists this. split_and!; [done..|]. by intros scc ?%elem_of_nil.
  - rewrite members_cons in Hnd, Hmem.
    apply NoDup_app in Hnd as (Hnd1 & Hdisj & Hnd2).
    assert (Hhere : ∀ x, x ∈ getVertexIDs scc →
              x ∈ getVertexIDs this ∧ flag this x = false).
    { intros x Hx. apply Hmem, elem_of_app. by left. }
    assert (Hrest : ∀ x, x ∈ members SCCList →
              x ∈ getVertexIDs this ∧ flag this x = false).
    { intros x Hx. apply Hmem, elem_of_app. by right. }
    clear Hmem. simpl. set (m := Z.of_nat (length (getVertexIDs scc))).
    destruct (decide (m > 2)) as [Hbig|Hsmall].
    + destruct (buildNodeQueue_spec this scc) as (queue & -> & Hperm).
      { intros x Hx. by apply Hhere. }
      set (n := Z.to_nat (calculatePercent m (1 # 10))).
      set (this1 := markTrendSetters n queue this).
      assert (Hkeys1 : getVertexIDs this1 = getVertexIDs this).
      { apply raised_getVertexIDs, raised_markTrendSetters. }
      assert (Hflag1 : ∀ k, flag this1 k
                = flag this k || bool_decide (k ∈ take n queue.*1)).
      { intros k. apply flag_markTrendSetters. rewrite Hperm.
        intros x Hx. by apply Hhere. }
      assert (Htake : ∀ k, k ∈ take n queue.*1 → k ∈ getVertexIDs scc).
      { intros k Hk. rewrite <-Hperm. by eapply subseteq_take. }
      destruct (IH this1 Hnd2) as (this' & -> & Hframe & Hcount).
      { intros x Hx. rewrite Hkeys1, Hflag1.
        destruct (Hrest x Hx) as [Hkey ->]. split; [done|].
        rewrite bool_decide_eq_false_2; [done|]. intros Hk%Htake.
        by eapply Hdisj. }
      exists this'. split_and!; [done| |].
      * intros k Hk. rewrite Hframe.
        2:{ intros ?. apply Hk, elem_of_app. by right. }
        rewrite Hflag1.
        rewrite bool_decide_eq_false_2; [by rewrite orb_false_r|].
        intros ?%Htake. apply Hk, elem_of_app. by left.
      * intros scc' [->|Hin]%elem_of_cons; [|by apply Hcount].
        fold m. rewrite decide_True by done.
        rewrite (flagged_count_ext this1 this').
        2:{ intros k Hk. apply Hframe. intros ?. by eapply Hdisj. }
        unfold this1. rewrite flagged_count_markTrendSetters; [|done..| |].
        -- unfold n, m. rewrite trendSetter_quota.
           rewrite Z2Nat.id; [done|]. rewrite calculatePercent_tenth.
           apply Z.div_pos; lia.
        -- intros x Hx. by apply Hhere.
        -- intros x Hx. by apply Hhere.
    + destruct (IH this Hnd2) as (this' & -> & Hframe & Hcount); [done|].
      exists this'. split_and!; [done| |].
      * intros k Hk. apply Hframe. intros ?. apply Hk, elem_of_app. by right.
      * intros scc' [->|Hin]%elem_of_cons; [|by apply Hcount].
        fold m. rewrite decide_False by done.
        rewrite (flagged_count_ext this this').
        2:{ intros k Hk. apply Hframe. intros ?. by eapply Hdisj. }
        rewrite flagged_count_none; [done|]. intros k Hk. by apply Hhere.
Qed.

(** *** The component graphs are copies *)

Lemma fresh_addVertex num g : fresh g → fresh (addVertex num g).
Proof.
  intros Hf k. unfold flag. rewrite node_at_addVertex.
  case_decide; [done | apply Hf].
Qed.

Lemma fresh_foldl_addNeighbor ns (g : CapGraph) k :
  fresh g → fresh (foldl (λ g n, map_alter (addNeighbor n) g k) g ns).
Proof.
  revert g. induction ns as [|n ns IH]; intros g Hf; simpl; [done|].
  apply IH. intros k'. by rewrite flag_alter.
Qed.

Lemma buildComponent_fresh this v ids scc :
  buildComponent this v ids = Ok scc → fresh scc.
Proof.
  unfold buildComponent. cbv zeta.
  assert (Hf : fresh (newCapGraph v)).
  { apply fresh_addVertex. by intros k. }
  revert Hf. generalize (newCapGraph v). revert scc.
  induction ids as [|nodeID ids IH]; intros scc scc0 Hf; simpl.
  - by intros [= <-].
  - destruct (getVertex this nodeID); simpl; [|done..].
    apply IH. by apply fresh_foldl_addNeighbor, fresh_addVertex.
Qed.

Lemma dfsGraphList_loop_fresh iters fuel this graph vertices s sccList sccs :
  Forall fresh sccList →
  dfsGraphList_loop iters fuel this graph vertices s sccList = Ok sccs →
  Forall fresh sccs.
Proof.
  revert vertices s sccList.
  induction iters as [|iters IH]; intros vertices s sccList Hall; simpl.
  - destruct (pop vertices) as [[v vertices1]|]; [done|]. by intros [= <-].
  - destruct (pop vertices) as [[v vertices1]|]; [|by intros [= <-]].
    match goal with |- context [mbind _ ?m] =>
      destruct m as [[s1 vertices2]| |]; simpl; [|done..] end.
    destruct (buildComponent this v (sccNodeIDs s1)) as [scc| |] eqn:Hscc;
      simpl; [|done..].
    apply IH. apply Forall_app. split; [done|].
    apply Forall_singleton. by eapply buildComponent_fresh.
Qed.

(** No graph returned by [getSCCs] carries a flag: its nodes are new
    objects, whatever the flags of the graph searched. *)
Lemma getSCCs_fresh (g : CapGraph) sccs scc :
  getSCCs g = Ok sccs → scc ∈ sccs → fresh scc.
Proof.
  unfold getSCCs. destruct (dfs _ _ _ _) as [s| |]; simpl; [|done..].
  unfold dfsGraphList. intros Hloop%dfsGraphList_loop_fresh; [|constructor].
  intros Hin. by eapply Forall_forall in Hloop.
Qed.

(** C6.  On a graph with distinct keys, [following] lists within the keys
    and no flag set, [identifyTrendSetters] returns; in the graph it
    leaves, a component of [getSCCs] with [m > 2] members has exactly
    [ceil(m / 10)] flagged members and a component with at most two
    members has none.  The flags counted are those of the ranked graph
    itself; the component graphs, being copies, carry none. *)
Theorem identifyTrendSetters_quota (g : CapGraph) :
  map_ok g → neighbors_closed g → fresh g →
  ∃ sccs g',
    getSCCs g = Ok sccs
    ∧ identifyTrendSetters g = (Ok (), g')
    ∧ ∀ scc, scc ∈ sccs →
        let m := Z.of_nat (length (getVertexIDs scc)) in
        Z.of_nat (flagged_count g' (getVertexIDs scc))
        = (if decide (m > 2) then calculatePercent m (1 # 10) else 0)
        ∧ calculatePercent m (1 # 10) = (m + 9) / 10
        ∧ fresh scc.
Proof.
  intros Hok Hcl Hfresh.
  destruct (getSCCs_spec g Hok Hcl) as (sccs & Hget & Hnd & Hmem).
  destruct (rankComponents_spec sccs g Hnd) as (g' & Hrank & _ & Hcount).
  { intros x Hx. split; [by apply Hmem | apply Hfresh]. }
  exists sccs, g'. unfold identifyTrendSetters, getSCCList. rewrite Hget.
  split_and!; [done..|]. intros scc Hscc. split_and!.
  - by apply Hcount.
  - apply calculatePercent_tenth.
  - by eapply getSCCs_fresh.
Qed.

Lemma graph_cycle3_fresh : fresh graph_cycle3.
Proof.
  intros k. unfold flag, node_at, graph_cycle3. simpl.
  repeat case_decide; reflexivity.
Qed.

Lemma identifyTrendSetters_quota_witness :
  ∃ sccs g',
    getSCCs graph_cycle3 = Ok sccs
    ∧ identifyTrendSetters graph_cycle3 = (Ok (), g')
    ∧ ∀ scc, scc ∈ sccs →
        let m := Z.of_nat (length (getVertexIDs scc)) in
        Z.of_nat (flagged_count g' (getVertexIDs scc))
        = (if decide (m > 2) then calculatePercent m (1 # 10) else 0)
        ∧ calculatePercent m (1 # 10) = (m + 9) / 10
        ∧ fresh scc.
Proof.
  apply (identifyTrendSetters_quota graph_cycle3).
  - apply reachable_map_ok, quietly_reachable, graph_cycle3_quietly.
  - apply reachable_quietly_refs_closed, graph_cycle3_quietly.
  - apply graph_cycle3_fresh.
Defined.

(** On the three-cycle: one component of three vertices, one flag. *)
Example identifyTrendSetters_cycle3 :
  (getVertexIDs <$> match getSCCs graph_cycle3 with Ok l => l | _ => [] end)
  = [[2; 3; 1]]
  ∧ flagged_count graph_ranked [2; 3; 1] = 1%nat
  ∧ flag graph_ranked 2 = true.
Proof. vm_compute. done. Qed.

(** ** The order of the second pass, in general *)

(** [dfsVisit] puts the vertex it was called for at the front of
    [finished] when it returns. *)
Lemma dfsVisit_prepends fuel graph v s s' :
  dfsVisit fuel graph v s = Ok s' → head (finished s') = Some v.
Proof.
  destruct fuel as [|fuel]; simpl; [done|].
  destruct (getVertex graph v); simpl; [|done..].
  destruct (forEachM _ _ _); simpl; [|done..]. by intros [= <-].
Qed.

Lemma buildComponent_root this v ids scc :
  buildComponent this v ids = Ok scc → component_root scc = Some v.
Proof.
  unfold buildComponent, component_root. cbv zeta.
  assert (Hroot : head (getVertexIDs (newCapGraph v)) = Some v) by done.
  revert Hroot. generalize (newCapGraph v). revert scc.
  induction ids as [|nodeID ids IH]; intros scc scc0 Hroot; simpl.
  - by intros [= <-].
  - destruct (getVertex this nodeID); simpl; [|done..].
    apply IH. rewrite (getVertexIDs_foldl_alter addNeighbor).
    by apply head_map_keys_set.
Qed.

Lemma dfsGraphList_loop_prefix iters fuel this graph vertices s sccList sccs :
  dfsGraphList_loop iters fuel this graph vertices s sccList = Ok sccs →
  sccList `prefix_of` sccs.
Proof.
  revert vertices s sccList.
  induction iters as [|iters IH]; intros vertices s sccList; simpl.
  - destruct (pop vertices) as [[v vertices1]|]; [done|]. by intros [= <-].
  - destruct (pop vertices) as [[v vertices1]|]; [|by intros [= <-]].
    destruct (if bool_decide (v ∈ visited s) then _ else _) as [[s1 vertices2]| |];
      simpl; [|done..].
    destruct (buildComponent this v (sccNodeIDs s1)); simpl; [|done..].
    intros Hloop%IH. etransitivity; [|exact Hloop]. by apply prefix_app_r.
Qed.

(** The first root of the second pass is the last element of the array it
    is given: of [finished], the vertex that finished first. *)
Lemma dfsGraphList_first_root fuel this graph vertices v sccs :
  dfsGraphList fuel this graph (vertices ++ [v]) [] = Ok sccs →
  ∃ scc rest, sccs = scc :: rest ∧ component_root scc = Some v.
Proof.
  unfold dfsGraphList. rewrite length_app. simpl.
  replace (length vertices + 1)%nat with (S (length vertices)) by lia.
  simpl. rewrite pop_snoc.
  match goal with |- context [mbind _ ?m] =>
    destruct m as [[s1 vertices2]| |]; simpl; [|done..] end.
  destruct (buildComponent this v (sccNodeIDs s1)) as [scc| |] eqn:Hscc;
    simpl; [|done..].
  intros [rest ->]%dfsGraphList_loop_prefix. exists scc, rest. split; [done|].
  by eapply buildComponent_root.
Qed.

(** * Further properties *)

(** ** Vertices and edges *)

Lemma following_alter f (g : CapGraph) k k' :
  following (map_alter f g k) k'
  = if decide (k = k')
    then match node_at g k' with Some nd => neighbors (f nd) | None => [] end
    else following g k'.
Proof.
  unfold following. rewrite node_at_alter. case_decide; [|done].
  by destruct (node_at g k').
Qed.

Lemma followersOf_alter f (g : CapGraph) k k' :
  followersOf (map_alter f g k) k'
  = if decide (k = k')
    then match node_at g k' with Some nd => followers (f nd) | None => [] end
    else followersOf g k'.
Proof.
  unfold followersOf. rewrite node_at_alter. case_decide; [|done].
  by destruct (node_at g k').
Qed.

(** X1.  [addVertex] on a key that is already present: the key list and the
    other vertices stay, the vertex itself is replaced by an empty one, so
    its edges and its flag are gone (entries for it in other vertices'
    lists stay). *)
Theorem addVertex_existing_resets (num : Z) (g : CapGraph) :
  num ∈ getVertexIDs g →
  getVertexIDs (addVertex num g) = getVertexIDs g
  ∧ getVertex (addVertex num g) num = Ok (newCapNode num)
  ∧ following (addVertex num g) num = []
  ∧ followersOf (addVertex num g) num = []
  ∧ flag (addVertex num g) num = false
  ∧ ∀ k, k ≠ num → node_at (addVertex num g) k = node_at g k.
Proof.
  intros Hin.
  assert (Hnode : node_at (addVertex num g) num = Some (newCapNode num)).
  { by rewrite node_at_addVertex, decide_True. }
  split_and!.
  - unfold getVertexIDs, addVertex. rewrite map_keys_set. by rewrite decide_True.
  - by apply getVertex_Ok.
  - unfold following. by rewrite Hnode.
  - unfold followersOf. by rewrite Hnode.
  - unfold flag. by rewrite Hnode.
  - intros k Hk. by rewrite node_at_addVertex, decide_False.
Qed.

Lemma addVertex_existing_resets_witness :
  getVertexIDs (addVertex 1 graph_multi) = getVertexIDs graph_multi
  ∧ getVertex (addVertex 1 graph_multi) 1 = Ok (newCapNode 1)
  ∧ following (addVertex 1 graph_multi) 1 = []
  ∧ followersOf (addVertex 1 graph_multi) 1 = []
  ∧ flag (addVertex 1 graph_multi) 1 = false
  ∧ ∀ k, k ≠ 1 → node_at (addVertex 1 graph_multi) k = node_at graph_multi k.
Proof.
  apply (addVertex_existing_resets 1 graph_multi). vm_compute. left.
Defined.

(** [addVertex] on a new key appends it to the key list with empty lists
    and leaves every other vertex alone. *)
Lemma addVertex_new_appends (num : Z) (g : CapGraph) :
  num ∉ getVertexIDs g →
  getVertexIDs (addVertex num g) = getVertexIDs g ++ [num]
  ∧ getVertex (addVertex num g) num = Ok (newCapNode num)
  ∧ ∀ k, k ≠ num → node_at (addVertex num g) k = node_at g k.
Proof.
  intros Hin. split_and!.
  - unfold getVertexIDs, addVertex. rewrite map_keys_set. by rewrite decide_False.
  - apply getVertex_Ok. by rewrite node_at_addVertex, decide_True.
  - intros k Hk. by rewrite node_at_addVertex, decide_False.
Qed.

Lemma addEdge_known_lists from to (g : CapGraph) k :
  from ∈ getVertexIDs g → to ∈ getVertexIDs g →
  let g' := map_alter (addFollower from) (map_alter (addNeighbor to) g from) to in
  following g' k = following g k ++ (if decide (from = k) then [to] else [])
  ∧ followersOf g' k = followersOf g k ++ (if decide (to = k) then [from] else [])
  ∧ flag g' k = flag g k
  ∧ (from ≠ k → to ≠ k → node_at g' k = node_at g k).
Proof.
  intros Hfrom Hto. simpl.
  destruct (getVertex_present g from Hfrom) as (nf & _ & Hnf).
  destruct (getVertex_present g to Hto) as (nt & _ & Hnt).
  unfold following, followersOf. rewrite !flag_alter by done.
  rewrite !node_at_alter.
  split_and!; [| |done|].
  - destruct (decide (from = k)) as [->|], (decide (to = k)) as [->|];
      rewrite ?Hnf, ?Hnt; simpl; rewrite ?app_nil_r; try done;
      by destruct (node_at g k).
  - destruct (decide (from = k)) as [->|], (decide (to = k)) as [->|];
      rewrite ?Hnf, ?Hnt; simpl; rewrite ?app_nil_r; try done;
      by destruct (node_at g k).
  - intros ? ?. by rewrite !decide_False by done.
Qed.

(** X2.  A successful [addEdge]: [to] is appended to the [following] list of
    [from] and [from] to the [followers] list of [to], whether or not the
    edge was there already; nothing else changes. *)
Theorem addEdge_appends (from to : Z) (g : CapGraph) :
  from ∈ getVertexIDs g → to ∈ getVertexIDs g →
  let g' := (addEdge from to g).2 in
  (addEdge from to g).1 = Ok ()
  ∧ following g' from = following g from ++ [to]
  ∧ followersOf g' to = followersOf g to ++ [from]
  ∧ (∀ k, k ≠ from → following g' k = following g k)
  ∧ (∀ k, k ≠ to → followersOf g' k = followersOf g k)
  ∧ getVertexIDs g' = getVertexIDs g
  ∧ (∀ k, flag g' k = flag g k).
Proof.
  intros Hfrom Hto. simpl. rewrite addEdge_known by done. simpl.
  destruct (getVertex_present g from Hfrom) as (nf & _ & Hnf).
  destruct (getVertex_present g to Hto) as (nt & _ & Hnt).
  unfold following, followersOf.
  split_and!; [done| | | | |by rewrite !getVertexIDs_alter
                           |intros k; by rewrite !flag_alter].
  - rewrite !node_at_alter, (decide_True (P := from = from)), Hnf by done.
    by case_decide.
  - rewrite !node_at_alter, (decide_True (P := to = to)), Hnt by done.
    by case_decide.
  - intros k Hk. rewrite !node_at_alter, (decide_False (P := from = k)) by done.
    case_decide; [|done]. by destruct (node_at g k).
  - intros k Hk. rewrite !node_at_alter, (decide_False (P := to = k)) by done.
    case_decide; [|done]. by destruct (node_at g k).
Qed.

Lemma addEdge_appends_witness :
  let g' := (addEdge 1 2 graph_multi).2 in
  (addEdge 1 2 graph_multi).1 = Ok ()
  ∧ following g' 1 = following graph_multi 1 ++ [2]
  ∧ followersOf g' 2 = followersOf graph_multi 2 ++ [1]
  ∧ (∀ k, k ≠ 1 → following g' k = following graph_multi k)
  ∧ (∀ k, k ≠ 2 → followersOf g' k = followersOf graph_multi k)
  ∧ getVertexIDs g' = getVertexIDs graph_multi
  ∧ (∀ k, flag g' k = flag graph_multi k).
Proof.
  apply (addEdge_appends 1 2 graph_multi).
  - vm_compute. left.
  - vm_compute. right. left.
Defined.

Lemma remove_first_snoc_fresh x xs : x ∉ xs → remove_first x (xs ++ [x]) = xs.
Proof.
  induction xs as [|y xs IH]; simpl; intros Hx.
  - by rewrite decide_True.
  - apply not_elem_of_cons in Hx as [Hne Hx].
    rewrite decide_False by done. by rewrite IH.
Qed.

Lemma remove_first_Permutation x xs : x ∈ xs → xs ≡ₚ x :: remove_first x xs.
Proof.
  induction xs as [|y xs IH]; simpl; [by intros ?%elem_of_nil|].
  intros Hin. case_decide as Hy; [by subst|].
  apply elem_of_cons in Hin as [->|Hin]; [done|].
  rewrite (IH Hin) at 1. apply Permutation_swap.
Qed.

(** X3.  [addEdge] followed by [removeEdge] of the same pair does not undo the
    call: the [following] list of [from] returns to its old content (to the
    old list itself when [to] was not followed before), but [from] stays in
    the [followers] list of [to]. *)
Theorem addEdge_removeEdge (from to : Z) (g : CapGraph) :
  from ∈ getVertexIDs g → to ∈ getVertexIDs g →
  let g1 := (addEdge from to g).2 in
  let g2 := (removeEdge from to g1).2 in
  (removeEdge from to g1).1 = Ok []
  ∧ following g2 from ≡ₚ following g from
  ∧ (to ∉ following g from → following g2 from = following g from)
  ∧ followersOf g2 to = followersOf g to ++ [from].
Proof.
  intros Hfrom Hto.
  pose proof (addEdge_getVertexIDs from to g) as Hkeys.
  destruct (addEdge_known_lists from to g from Hfrom Hto) as (Hfol & _).
  destruct (addEdge_known_lists from to g to Hfrom Hto) as (_ & Hfers & _).
  rewrite decide_True in Hfol by done. rewrite decide_True in Hfers by done.
  assert (Hg1 : (addEdge from to g).2
                = map_alter (addFollower from) (map_alter (addNeighbor to) g from) to)
    by by rewrite addEdge_known.
  simpl in Hfol, Hfers. rewrite <-Hg1 in Hfol, Hfers. clear Hg1.
  simpl. set (g1 := (addEdge from to g).2) in *.
  assert (Hfrom1 : from ∈ getVertexIDs g1) by by rewrite Hkeys.
  destruct (getVertex_present g1 from Hfrom1) as (nd1 & _ & Hnd1).
  destruct (removeEdge_spec from to g1 nd1 Hnd1)
    as (nd2 & Hres & Hnd2 & Hnb & Hfl & _ & Hother).
  assert (Hnb1 : neighbors nd1 = following g from ++ [to]).
  { rewrite <-Hfol. unfold following. by rewrite Hnd1. }
  assert (Hin : to ∈ neighbors nd1) by (rewrite Hnb1; set_solver).
  rewrite decide_True in Hres by done. rewrite decide_True in Hnb by done.
  assert (Hfol2 : following (removeEdge from to g1).2 from
                  = remove_first to (following g from ++ [to])).
  { unfold following at 1. by rewrite Hnd2, Hnb, Hnb1. }
  split_and!.
  - done.
  - rewrite Hfol2. apply (inj (cons to)).
    rewrite <-remove_first_Permutation by set_solver.
    by rewrite Permutation_app_comm.
  - intros Hno. rewrite Hfol2. by apply remove_first_snoc_fresh.
  - rewrite <-Hfers. unfold followersOf.
    destruct (decide (to = from)) as [->|Hne].
    + by rewrite Hnd2, Hnd1, Hfl.
    + by rewrite Hother.
Qed.

Lemma addEdge_removeEdge_witness :
  let g1 := (addEdge 3 1 graph_multi).2 in
  let g2 := (removeEdge 3 1 g1).2 in
  (removeEdge 3 1 g1).1 = Ok []
  ∧ following g2 3 ≡ₚ following graph_multi 3
  ∧ (1 ∉ following graph_multi 3 → following g2 3 = following graph_multi 3)
  ∧ followersOf g2 1 = followersOf graph_multi 1 ++ [3].
Proof.
  apply (addEdge_removeEdge 3 1 graph_multi).
  - vm_compute. right. right. left.
  - vm_compute. left.
Defined.

(** X4.  [removeEdge] throws for an unknown [from] and leaves the graph as it
    was; an unknown [to] is not an error. *)
Theorem removeEdge_unknown (from to : Z) (g : CapGraph) :
  from ∉ getVertexIDs g →
  removeEdge from to g = (Throw (VertexNotFound from), g)
  ∧ ∀ from', from' ∈ getVertexIDs g → ∃ log, (removeEdge from' to g).1 = Ok log.
Proof.
  intros Hfrom. split; [by apply removeEdge_unknown_from|].
  intros from' (nd & Hget & _)%getVertex_present. unfold removeEdge.
  rewrite Hget. eauto.
Qed.

Lemma removeEdge_unknown_witness :
  removeEdge 9 1 graph_multi = (Throw (VertexNotFound 9), graph_multi)
  ∧ ∀ from', from' ∈ getVertexIDs graph_multi →
      ∃ log, (removeEdge from' 1 graph_multi).1 = Ok log.
Proof.
  apply (removeEdge_unknown 9 1 graph_multi). vm_compute. set_solver.
Defined.

(** ** Invariants of reachable graphs *)

Lemma exec_name_is_key op (g : CapGraph) :
  (∀ k nd, node_at g k = Some nd → name nd = k) →
  ∀ k nd, node_at (exec op g) k = Some nd → name nd = k.
Proof.
  intros Hinv k nd. destruct op as [num|from to|from to|]; simpl.
  - rewrite node_at_addVertex. case_decide; [by intros [= <-] | apply Hinv].
  - unfold addEdge. destruct (getVertex g from); [|apply Hinv..].
    destruct (getVertex _ to); simpl; rewrite ?node_at_alter;
      repeat case_decide; subst;
      destruct (node_at g k) as [nd0|] eqn:E; simpl; intros [= <-]; simpl;
      by apply Hinv.
  - unfold removeEdge. destruct (getVertex g from); [|apply Hinv..].
    simpl. rewrite node_at_alter. case_decide; [|apply Hinv]. subst.
    destruct (node_at g k) as [nd0|] eqn:E; simpl; intros [= <-].
    simpl. by apply Hinv.
  - intros Hnd.
    destruct (raised_node_at_Some g _ k nd (raised_identifyTrendSetters g) Hnd)
      as (nd0 & Hnd0 & _ & Hname & _).
    simpl in Hname. rewrite <-Hname. by apply Hinv.
Qed.

(** X5.  In every graph built from [new CapGraph()] by [addVertex], [addEdge],
    [removeEdge] and [identifyTrendSetters] calls, thrown errors caught:
    the keys are distinct, every node answers [getID()] with its key, and
    every [followers] entry is a key. *)
Theorem reachable_invariants (g : CapGraph) :
  reachable g →
  map_ok g
  ∧ (∀ k nd, node_at g k = Some nd → name nd = k)
  ∧ followers_closed g.
Proof.
  intros Hr. split_and!.
  - by apply reachable_map_ok.
  - induction Hr; [by intros ? ? ?|]. by apply exec_name_is_key.
  - by apply reachable_followers_closed.
Qed.

Lemma reachable_invariants_witness :
  map_ok graph_dangling
  ∧ (∀ k nd, node_at graph_dangling k = Some nd → name nd = k)
  ∧ followers_closed graph_dangling.
Proof.
  apply (reachable_invariants graph_dangling).
  apply (reachable_step (AddEdge 1 2)), (reachable_step (AddVertex 1)),
    reachable_new.
Defined.

(** ** [getEgonet] *)

Lemma foldl_addVertex_spec ns (g : CapGraph) :
  map_ok g →
  let g' := foldl (λ g n, addVertex n g) g ns in
  map_ok g'
  ∧ (∀ x, x ∈ getVertexIDs g' ↔ x ∈ getVertexIDs g ∨ x ∈ ns)
  ∧ (∀ k, k ∈ ns → node_at g' k = Some (newCapNode k))
  ∧ (∀ k, k ∉ ns → node_at g' k = node_at g k).
Proof.
  revert g. induction ns as [|n ns IH]; intros g Hok; simpl.
  - split_and!; [done| |by intros k ?%elem_of_nil|done]. set_solver.
  - destruct (IH (addVertex n g)) as (Hok' & Hk' & Hin' & Hout').
    { by apply addVertex_map_ok. }
    split_and!; [done| | |].
    + intros x. rewrite Hk', getVertexIDs_addVertex. set_solver.
    + intros k Hk. destruct (decide (k ∈ ns)) as [?|Hno]; [by apply Hin'|].
      rewrite Hout' by done. apply elem_of_cons in Hk as [->|?]; [|done].
      by rewrite node_at_addVertex, decide_True.
    + intros k Hk. apply not_elem_of_cons in Hk as [? ?].
      rewrite Hout' by done. by rewrite node_at_addVertex, decide_False.
Qed.

(** The inner loop of [getEgonet] for the member [n]. *)
Lemma egonet_copy_spec (egoNodes : list Z) n ns (g : CapGraph) nd :
  node_at g n = Some nd →
  let g' := foldl (λ g neighbor,
                     if includes egoNodes neighbor
                     then map_alter (addNeighbor neighbor) g n else g) g ns in
  getVertexIDs g' = getVertexIDs g
  ∧ node_at g' n
    = Some (mkCapNode (name nd)
              (neighbors nd ++ filter (λ x, x ∈ egoNodes) ns)
              (followers nd) (isTrendSetter nd))
  ∧ ∀ k, k ≠ n → node_at g' k = node_at g k.
Proof.
  revert g nd. induction ns as [|x ns IH]; intros g nd Hnd; simpl.
  - rewrite app_nil_r. split_and!; [done| |done]. rewrite Hnd. by destruct nd.
  - rewrite filter_cons. destruct (includes egoNodes x) eqn:Hinc.
    + apply includes_true in Hinc. rewrite decide_True by done.
      destruct (IH (map_alter (addNeighbor x) g n) (addNeighbor x nd))
        as (Hk & Hn & Ho).
      { by rewrite node_at_alter, decide_True, Hnd. }
      split_and!.
      * by rewrite Hk, getVertexIDs_alter.
      * rewrite Hn. simpl. by rewrite <-app_assoc.
      * intros k Hne. rewrite Ho by done. by rewrite node_at_alter, decide_False.
    + apply includes_false in Hinc. rewrite decide_False by done. by apply IH.
Qed.

Lemma egonet_loop_spec (this : CapGraph) (egoNodes : list Z) ks (ego : CapGraph) :
  NoDup ks → ks ⊆ getVertexIDs ego → ks ⊆ getVertexIDs this →
  ∃ ego',
    forEachM
      (λ n egonet,
         origiNode ← getVertex this n;
         Ok (foldl
               (λ g neighbor,
                  if includes egoNodes neighbor
                  then map_alter (addNeighbor neighbor) g n else g)
               egonet (neighbors origiNode)))
      ks ego = Ok ego'
    ∧ getVertexIDs ego' = getVertexIDs ego
    ∧ (∀ k, k ∈ ks → ∃ nd, node_at ego k = Some nd
         ∧ node_at ego' k
           = Some (mkCapNode (name nd)
                     (neighbors nd
                      ++ filter (λ x, x ∈ egoNodes) (following this k))
                     (followers nd) (isTrendSetter nd)))
    ∧ (∀ k, k ∉ ks → node_at ego' k = node_at ego k).
Proof.
  revert ego. induction ks as [|n ks IH]; intros ego Hnd Hego Hthis; simpl.
  - exists ego. split_and!; [done..| |done]. by intros k ?%elem_of_nil.
  - apply NoDup_cons in Hnd as [Hn Hnd].
    assert (Hnthis : n ∈ getVertexIDs this) by set_solver.
    assert (Hnego : n ∈ getVertexIDs ego) by set_solver.
    destruct (getVertex_present this n Hnthis) as (origiNode & -> & Horig).
    destruct (getVertex_present ego n Hnego) as (nd & _ & Hnode).
    simpl.
    destruct (egonet_copy_spec egoNodes n (neighbors origiNode) ego nd Hnode)
      as (Hk1 & Hn1 & Ho1).
    set (ego1 := foldl _ ego _) in *.
    destruct (IH ego1 Hnd) as (ego' & -> & Hk' & Hin' & Hout').
    { rewrite Hk1. set_solver. }
    { set_solver. }
    exists ego'. split_and!; [done|by rewrite Hk', Hk1| |].
    + intros k [->|Hk]%elem_of_cons.
      * exists nd. split; [done|]. rewrite Hout' by done. rewrite Hn1.
        unfold following. by rewrite Horig.
      * destruct (Hin' k Hk) as (nd' & Hnd' & Hres).
        assert (k ≠ n) by (intros ->; done).
        rewrite Ho1 in Hnd' by done. eauto.
    + intros k Hk. apply not_elem_of_cons in Hk as [? ?].
      rewrite Hout' by done. by apply Ho1.
Qed.

Lemma getEgonet_closed (this : CapGraph) (center : Z) :
  center ∈ getVertexIDs this →
  (∀ n, n ∈ following this center → n ∈ getVertexIDs this) →
  ∃ egonet,
    getEgonet this center = Ok egonet
    ∧ map_ok egonet
    ∧ (∀ x, x ∈ getVertexIDs egonet ↔ x = center ∨ x ∈ following this center)
    ∧ (∀ k, k ∈ getVertexIDs egonet →
         following egonet k
         = filter (λ x, x ∈ getVertexIDs egonet) (following this k)
         ∧ followersOf egonet k = [])
    ∧ (∀ u v, edge egonet u v
         ↔ u ∈ getVertexIDs egonet ∧ v ∈ getVertexIDs egonet ∧ edge this u v)
    ∧ fresh egonet.
Proof.
  intros Hcenter Hfol. unfold getEgonet.
  destruct (getVertex_present this center Hcenter) as (c & -> & Hc). simpl.
  assert (Hfc : following this center = neighbors c).
  { unfold following. by rewrite Hc. }
  rewrite Hfc in Hfol |- *.
  set (egoNodes := neighbors c ++ [center]).
  destruct (foldl_addVertex_spec egoNodes emptyGraph) as (Hok0 & Hk0 & Hin0 & Hout0).
  { apply NoDup_nil_2. }
  set (ego0 := foldl _ emptyGraph egoNodes) in *.
  assert (Hkeys0 : ∀ x, x ∈ getVertexIDs ego0 ↔ x ∈ egoNodes).
  { intros x. rewrite Hk0. unfold emptyGraph. set_solver. }
  destruct (egonet_loop_spec this egoNodes (getVertexIDs ego0) ego0)
    as (ego & Hego & Hk & Hin & _); [done|done| |].
  { intros x Hx%Hkeys0. unfold egoNodes in Hx. set_solver. }
  exists ego.
  assert (Hmem : ∀ x, x ∈ getVertexIDs ego ↔ x ∈ egoNodes).
  { intros x. by rewrite Hk. }
  assert (Hnode : ∀ k, k ∈ getVertexIDs ego →
            node_at ego k
            = Some (mkCapNode k (filter (λ x, x ∈ egoNodes) (following this k))
                      [] false)).
  { intros k Hkin. rewrite Hk in Hkin. destruct (Hin k Hkin) as (nd & Hnd & ->).
    rewrite Hin0 in Hnd by by apply Hkeys0. by injection Hnd as <-. }
  assert (Hfoll : ∀ k, k ∈ getVertexIDs ego →
            following ego k
            = filter (λ x, x ∈ getVertexIDs ego) (following this k)).
  { intros k Hkin. unfold following at 1. rewrite Hnode by done. simpl.
    apply list_filter_iff. intros x. by rewrite Hmem. }
  split_and!.
  - done.
  - unfold map_ok. by rewrite Hk.
  - intros x. rewrite Hmem. unfold egoNodes. set_solver.
  - intros k Hkin. split; [by apply Hfoll|].
    unfold followersOf. by rewrite Hnode.
  - intros u v. split.
    + intros (nd & Hnd & Hv).
      assert (Hu : u ∈ getVertexIDs ego) by by eapply map_get_Some_key.
      assert (Hv' : v ∈ following ego u).
      { unfold following. by rewrite Hnd. }
      rewrite Hfoll in Hv' by done.
      apply list_elem_of_filter in Hv' as [Hv1 Hv2]. split_and!; [done..|].
      unfold following in Hv2. destruct (node_at this u) as [ndu|] eqn:E.
      * by exists ndu.
      * by apply elem_of_nil in Hv2.
    + intros (Hu & Hv & (ndu & Hndu & Hin')).
      eexists. split; [by apply Hnode|]. simpl.
      apply list_elem_of_filter. split; [by apply Hmem|].
      unfold following. by rewrite Hndu.
  - intros k. unfold flag.
    destruct (node_at ego k) as [nd|] eqn:E; [|done].
    assert (Hkin : k ∈ getVertexIDs ego) by by eapply map_get_Some_key.
    rewrite Hnode in E by done. by injection E as <-.
Qed.

(** X6.  [getEgonet] on a key whose followed vertices are keys: it returns a
    graph whose vertices are the centre and the vertices it follows, each
    once; every member keeps exactly its edges to members, in their order
    and multiplicity, so no edge leaves the egonet; no [followers] list and
    no flag is copied. *)
Theorem getEgonet_spec (this : CapGraph) (center : Z) :
  center ∈ getVertexIDs this →
  (∀ n, n ∈ following this center → n ∈ getVertexIDs this) →
  ∃ egonet,
    getEgonet this center = Ok egonet
    ∧ map_ok egonet
    ∧ (∀ x, x ∈ getVertexIDs egonet ↔ x = center ∨ x ∈ following this center)
    ∧ (∀ k, k ∈ getVertexIDs egonet →
         following egonet k
         = filter (λ x, x ∈ getVertexIDs egonet) (following this k)
         ∧ followersOf egonet k = [])
    ∧ (∀ u v, edge egonet u v
         ↔ u ∈ getVertexIDs egonet ∧ v ∈ getVertexIDs egonet ∧ edge this u v)
    ∧ fresh egonet.
Proof. apply getEgonet_closed. Qed.

Lemma getEgonet_spec_witness :
  ∃ egonet,
    getEgonet graph_multi 1 = Ok egonet
    ∧ map_ok egonet
    ∧ (∀ x, x ∈ getVertexIDs egonet ↔ x = 1 ∨ x ∈ following graph_multi 1)
    ∧ (∀ k, k ∈ getVertexIDs egonet →
         following egonet k
         = filter (λ x, x ∈ getVertexIDs egonet) (following graph_multi k)
         ∧ followersOf egonet k = [])
    ∧ (∀ u v, edge egonet u v
         ↔ u ∈ getVertexIDs egonet ∧ v ∈ getVertexIDs egonet
           ∧ edge graph_multi u v)
    ∧ fresh egonet.
Proof.
  apply (getEgonet_spec graph_multi 1).
  - vm_compute. left.
  - vm_compute. set_solver.
Defined.

Lemma egonet_loop_throws (this : CapGraph) (egoNodes : list Z) ks (ego : CapGraph) m :
  m ∈ ks → m ∉ getVertexIDs this →
  ∃ n, forEachM
         (λ n egonet,
            origiNode ← getVertex this n;
            Ok (foldl
                  (λ g neighbor,
                     if includes egoNodes neighbor
                     then map_alter (addNeighbor neighbor) g n else g)
                  egonet (neighbors origiNode)))
         ks ego = Throw (VertexNotFound n)
       ∧ n ∈ ks ∧ n ∉ getVertexIDs this.
Proof.
  revert ego. induction ks as [|k ks IH]; intros ego Hm Hno; simpl.
  - by apply elem_of_nil in Hm.
  - destruct (decide (k ∈ getVertexIDs this)) as [Hk|Hk].
    + destruct (getVertex_present this k Hk) as (nd & -> & _). simpl.
      apply elem_of_cons in Hm as [->|Hm]; [done|].
      match goal with |- context [forEachM _ ks ?e] =>
        destruct (IH e Hm Hno) as (n & -> & Hn & Hnn) end.
      exists n. split_and!; [done| by right |done].
    + rewrite getVertex_absent by done. simpl. exists k. split_and!; [done|left|done].
Qed.

(** X7.  [getEgonet] throws the lookup error when the centre is unknown, and
    when the centre follows an unknown vertex; the error names an unknown
    vertex among these. *)
Theorem getEgonet_unknown (this : CapGraph) (center m : Z) :
  center ∉ getVertexIDs this
  ∨ (m ∈ following this center ∧ m ∉ getVertexIDs this) →
  ∃ n, getEgonet this center = Throw (VertexNotFound n)
    ∧ n ∉ getVertexIDs this
    ∧ (n = center ∨ n ∈ following this center).
Proof.
  intros [Hc|[Hm Hno]].
  - exists center. unfold getEgonet. rewrite getVertex_absent by done.
    split_and!; [done..|by left].
  - unfold getEgonet, following in *.
    destruct (node_at this center) as [c|] eqn:Hc; [|by apply elem_of_nil in Hm].
    apply getVertex_Ok in Hc as Hget. rewrite Hget. simpl.
    set (egoNodes := neighbors c ++ [center]).
    destruct (foldl_addVertex_spec egoNodes emptyGraph) as (_ & Hk0 & _).
    { apply NoDup_nil_2. }
    set (ego0 := foldl _ emptyGraph egoNodes) in *.
    destruct (egonet_loop_throws this egoNodes (getVertexIDs ego0) ego0 m)
      as (n & -> & Hn & Hnn); [|done|].
    { apply Hk0. right. unfold egoNodes. set_solver. }
    exists n. split_and!; [done..|]. right.
    apply Hk0 in Hn as [Hn|Hn]; [by apply elem_of_nil in Hn|].
    unfold egoNodes in Hn. apply elem_of_app in Hn as [?|Heq%list_elem_of_singleton];
      [done|]. subst n. exfalso. apply Hnn. by eapply map_get_Some_key.
Qed.

Lemma getEgonet_unknown_witness :
  ∃ n, getEgonet graph_dangling 1 = Throw (VertexNotFound n)
    ∧ n ∉ getVertexIDs graph_dangling
    ∧ (n = 1 ∨ n ∈ following graph_dangling 1).
Proof.
  apply (getEgonet_unknown graph_dangling 1 2). right. split.
  - vm_compute. left.
  - vm_compute. set_solver.
Defined.

(** ** [exportGraph] *)

Lemma set_add_spec x xs : NoDup xs →
  NoDup (set_add x xs) ∧ ∀ y, y ∈ set_add x xs ↔ y = x ∨ y ∈ xs.
Proof.
  intros Hnd. unfold set_add. destruct (includes xs x) eqn:E.
  - apply includes_true in E. split; [done|]. set_solver.
  - apply includes_false in E. split.
    + apply NoDup_app. split_and!; [done| |apply NoDup_singleton].
      intros y Hy ->%list_elem_of_singleton. done.
    + intros y. rewrite elem_of_app, list_elem_of_singleton. tauto.
Qed.

(** A [Set] filled from an array holds the elements of the array, once
    each. *)
Lemma foldl_set_add_spec ns s :
  NoDup s →
  NoDup (foldl (λ s n, set_add n s) s ns)
  ∧ ∀ y, y ∈ foldl (λ s n, set_add n s) s ns ↔ y ∈ s ∨ y ∈ ns.
Proof.
  revert s. induction ns as [|n ns IH]; intros s Hnd; simpl.
  - split; [done|]. set_solver.
  - destruct (set_add_spec n s Hnd) as [Hnd1 Hmem1].
    destruct (IH _ Hnd1) as [Hnd2 Hmem2]. split; [done|].
    intros y. rewrite Hmem2, Hmem1. set_solver.
Qed.

Lemma map_get_snoc {V} (m : list (Z * V)) k v k' :
  map_get (m ++ [(k, v)]) k'
  = match map_get m k' with
    | Some v' => Some v'
    | None => if decide (k = k') then Some v else None
    end.
Proof.
  induction m as [|[k0 v0] m IH]; simpl.
  - by case_decide.
  - destruct (decide (k0 = k')); [done | apply IH].
Qed.

Lemma exportGraph_snoc (this : CapGraph) e :
  exportGraph (this ++ [e])
  = map_set (exportGraph this) e.1
      (foldl (λ s n, set_add n s) [] (neighbors e.2)).
Proof. unfold exportGraph. by rewrite foldl_app. Qed.

(** X8.  [exportGraph] lists the keys in their order, each with the set of the
    vertices it follows: duplicates of the [following] list are dropped,
    nothing else is. *)
Theorem exportGraph_spec (this : CapGraph) :
  map_ok this →
  map_keys (exportGraph this) = getVertexIDs this
  ∧ ∀ k, k ∈ getVertexIDs this →
      ∃ set, map_get (exportGraph this) k = Some set
        ∧ NoDup set
        ∧ ∀ x, x ∈ set ↔ x ∈ following this k.
Proof.
  unfold map_ok, following, node_at, getVertexIDs.
  induction this as [|[k0 nd0] this IH] using rev_ind; intros Hok.
  - split; [done|]. by intros k ?%elem_of_nil.
  - unfold map_keys in *. rewrite fmap_app in Hok |- *. simpl in *.
    apply NoDup_app in Hok as (Hok & Hdisj & _).
    destruct (IH Hok) as [IHk IHm]. rewrite exportGraph_snoc. simpl.
    assert (Hfresh : k0 ∉ this.*1).
    { intros Hin. eapply Hdisj; [done|]. set_solver. }
    split.
    + pose proof (map_keys_set (exportGraph this) k0
                    (foldl (λ s n, set_add n s) [] (neighbors nd0))) as Hks.
      unfold map_keys in Hks. rewrite Hks, IHk. by rewrite decide_False.
    + intros k Hk. rewrite map_get_set, map_get_snoc.
      destruct (decide (k0 = k)) as [->|Hne].
      * apply map_get_None in Hfresh. rewrite Hfresh.
        destruct (foldl_set_add_spec (neighbors nd0) []) as [Hnd Hmem];
          [constructor|].
        eexists. split_and!; [done..|]. intros x. rewrite Hmem. set_solver.
      * apply elem_of_app in Hk as [Hk|Hk]; [|set_solver].
        destruct (IHm k Hk) as (set & Hset & Hnd & Hmem).
        exists set. split_and!; [done..|]. intros x. rewrite Hmem.
        apply map_get_is_Some in Hk as [nd Hnd']. by rewrite Hnd'.
Qed.

Lemma exportGraph_spec_witness :
  map_keys (exportGraph graph_multi) = getVertexIDs graph_multi
  ∧ ∀ k, k ∈ getVertexIDs graph_multi →
      ∃ set, map_get (exportGraph graph_multi) k = Some set
        ∧ NoDup set
        ∧ ∀ x, x ∈ set ↔ x ∈ following graph_multi k.
Proof.
  apply (exportGraph_spec graph_multi).
  unfold map_ok. vm_compute. repeat constructor; set_solver.
Defined.

(** ** The transpose graph reverses the edges *)

Lemma edge_following (g : CapGraph) u v : edge g u v ↔ v ∈ following g u.
Proof.
  unfold edge, following. split.
  - intros (nd & -> & Hv). done.
  - destruct (node_at g u) as [nd|]; [eauto | by intros ?%elem_of_nil].
Qed.

Lemma following_key (g : CapGraph) u v : v ∈ following g u → u ∈ getVertexIDs g.
Proof.
  unfold following. destruct (node_at g u) as [nd|] eqn:E;
    [intros _; by eapply map_get_Some_key | by intros ?%elem_of_nil].
Qed.

Lemma following_addVertex_fresh num (g : CapGraph) k :
  num ∉ getVertexIDs g → following (addVertex num g) k = following g k.
Proof.
  intros Hnum. unfold following. rewrite node_at_addVertex.
  case_decide; [|done]. subst. apply map_get_None in Hnum.
  unfold node_at. by rewrite Hnum.
Qed.

(** One step of the inner loop of [transpose]. *)
Lemma transpose_step_following v x (t : CapGraph) a :
  let t1 := if bool_decide (x ∈ getVertexIDs t) then t else addVertex x t in
  following (map_alter (addNeighbor v) t1 x) a
  = following t a ++ (if decide (x = a) then [v] else []).
Proof.
  simpl. rewrite following_alter.
  assert (Hfol : ∀ k, following
            (if bool_decide (x ∈ getVertexIDs t) then t else addVertex x t) k
            = following t k).
  { intros k. case_bool_decide; [done | by apply following_addVertex_fresh]. }
  destruct (decide (x = a)) as [Hx|Hx]; [|by rewrite Hfol, app_nil_r]. subst a.
  specialize (Hfol x). unfold following in Hfol |- *.
  case_bool_decide as Hin.
  - apply getVertex_present in Hin as (nd & _ & ->). done.
  - rewrite node_at_addVertex, decide_True by done. simpl.
    apply map_get_None in Hin. unfold node_at. by rewrite Hin.
Qed.

Lemma transpose_neighbors_edges v ns (t : CapGraph) :
  let t' :=
    foldl (λ t neighbor,
             let t' := if bool_decide (neighbor ∈ getVertexIDs t)
                       then t else addVertex neighbor t in
             map_alter (addNeighbor v) t' neighbor) t ns in
  ∀ a b, b ∈ following t' a ↔ b ∈ following t a ∨ (a ∈ ns ∧ b = v).
Proof.
  revert t. induction ns as [|x ns IH]; intros t; simpl.
  - intros a b. split; [by left | intros [?|[?%elem_of_nil _]]; done].
  - intros a b. rewrite IH. rewrite (transpose_step_following v x t a).
    rewrite elem_of_app, elem_of_cons. case_decide as Hx.
    + rewrite list_elem_of_singleton. subst. tauto.
    + split.
      * intros [[?|?%elem_of_nil]|[? ?]]; [by left|done|right; tauto].
      * intros [?|[[?|?] ?]]; [by left; left|congruence|by right].
Qed.

Lemma transpose_fold_edges (g : CapGraph) vs (t : CapGraph) :
  vs ⊆ getVertexIDs g →
  let t' :=
    foldl (λ transposedGraph v,
             match getVertex g v with
             | Ok origiNode =>
                 let t1 := if bool_decide (v ∈ getVertexIDs transposedGraph)
                           then transposedGraph else addVertex v transposedGraph in
                 foldl (λ t neighbor,
                          let t' := if bool_decide (neighbor ∈ getVertexIDs t)
                                    then t else addVertex neighbor t in
                          map_alter (addNeighbor v) t' neighbor)
                   t1 (neighbors origiNode)
             | _ => transposedGraph
             end) t vs in
  ∀ a b, b ∈ following t' a
         ↔ b ∈ following t a ∨ (b ∈ vs ∧ a ∈ following g b).
Proof.
  revert t. induction vs as [|v vs IH]; intros t Hvs; simpl.
  - intros a b. split; [by left | intros [?|[?%elem_of_nil _]]; done].
  - assert (Hv : v ∈ getVertexIDs g) by set_solver.
    destruct (getVertex_present g v Hv) as (origiNode & -> & Hnode).
    intros a b. rewrite IH by set_solver.
    rewrite (transpose_neighbors_edges v (neighbors origiNode)).
    assert (Hfol : following g v = neighbors origiNode).
    { unfold following. by rewrite Hnode. }
    assert (Hens : following
              (if bool_decide (v ∈ getVertexIDs t) then t else addVertex v t) a
              = following t a).
    { case_bool_decide; [done | by apply following_addVertex_fresh]. }
    rewrite Hens, elem_of_cons, <-Hfol. split.
    + intros [[?|[? ->]]|[? ?]]; [by left|right; split; [by left|done]|].
      right. split; [by right|done].
    + intros [?|[[->|?] ?]]; [by left; left|left; by right|by right].
Qed.

Lemma transpose_edge_iff (g : CapGraph) (u v : Z) :
  edge (transpose g) v u ↔ edge g u v.
Proof.
  rewrite !edge_following. unfold transpose.
  rewrite (transpose_fold_edges g (getVertexIDs g) emptyGraph) by done.
  split.
  - intros [?%elem_of_nil|[_ ?]]; done.
  - intros Hv. right. split; [|done]. by eapply following_key.
Qed.

Lemma transpose_map_ok (g : CapGraph) : map_ok (transpose g).
Proof.
  unfold transpose.
  assert (Hgen : ∀ vs (t : CapGraph), map_ok t →
    map_ok (foldl (λ transposedGraph v,
           match getVertex g v with
           | Ok origiNode =>
               let t1 := if bool_decide (v ∈ getVertexIDs transposedGraph)
                         then transposedGraph else addVertex v transposedGraph in
               foldl (λ t neighbor,
                        let t' := if bool_decide (neighbor ∈ getVertexIDs t)
                                  then t else addVertex neighbor t in
                        map_alter (addNeighbor v) t' neighbor)
                 t1 (neighbors origiNode)
           | _ => transposedGraph
           end) t vs)).
  { induction vs as [|x vs IH]; intros t Hok; simpl; [done|].
    apply IH. destruct (getVertex g x); [|done..].
    apply (transpose_neighbors_spec x (λ _, True)); [|done|by intros ? ? ? ? ?].
    case_bool_decide; [done | by apply addVertex_map_ok]. }
  apply Hgen, NoDup_nil_2.
Qed.

(** X9.  [transpose] builds a graph with exactly the reversed edges: [v]
    follows [u] in the transpose when [u] follows [v] in the graph.  Its
    keys are distinct. *)
Theorem transpose_reverses_edges (g : CapGraph) (u v : Z) :
  (edge (transpose g) v u ↔ edge g u v) ∧ map_ok (transpose g).
Proof. split; [apply transpose_edge_iff | apply transpose_map_ok]. Qed.

(** ** What a search call leaves behind *)

Lemma visit_each_outcome graph fuel ns s :
  (∀ v s, v ∉ visited s → (unvisited graph (visited s) < fuel)%nat →
     visit_outcome_ok graph v s (dfsVisit fuel graph v s)) →
  (unvisited graph (visited s) < fuel)%nat →
  match forEachM (λ n s', if bool_decide (n ∈ visited s') then Ok s'
                          else dfsVisit fuel graph n s') ns s with
  | Ok s' =>
      visited s ⊆ visited s' ∧ (∀ n, n ∈ ns → n ∈ visited s')
      ∧ ∀ x, x ∈ visited s' → x ∉ visited s →
          x ∈ getVertexIDs graph ∧ ∀ n, n ∈ following graph x → n ∈ visited s'
  | Throw (VertexNotFound n) =>
      n ∉ getVertexIDs graph ∧ (n ∈ ns ∨ ∃ u, edge graph u n)
  | OutOfFuel => False
  end.
Proof.
  intros Hvisit. revert s. induction ns as [|n ns IH]; intros s Hfuel; simpl.
  - split_and!; [done| by intros ? ?%elem_of_nil | done].
  - case_bool_decide as Hseen; simpl.
    + specialize (IH s Hfuel). destruct (forEachM _ ns s) as [s'|[m]|]; [| |done].
      * destruct IH as (Hsub & Hall & Hnew). split_and!; [done| |done].
        intros x [->|?]%elem_of_cons; [by apply Hsub | by apply Hall].
      * destruct IH as (? & [?|?]); split; [done|left; by right|done|by right].
    + pose proof (Hvisit n s Hseen Hfuel) as Hn.
      destruct (dfsVisit fuel graph n s) as [sa|[m]|]; simpl; [| |done].
      * destruct Hn as (Hsub1 & Hn1 & Hnew1).
        assert (Hfuel' : (unvisited graph (visited sa) < fuel)%nat).
        { pose proof (unvisited_mono graph _ _ Hsub1). lia. }
        specialize (IH sa Hfuel').
        destruct (forEachM _ ns sa) as [s'|[m]|]; [| |done].
        -- destruct IH as (Hsub2 & Hall2 & Hnew2). split_and!.
           ++ set_solver.
           ++ intros x [->|?]%elem_of_cons; [by apply Hsub2 | by apply Hall2].
           ++ intros x Hx Hno. destruct (decide (x ∈ visited sa)) as [Hxa|Hxa].
              ** destruct (Hnew1 x Hxa Hno) as [? Hf]. split; [done|].
                 intros m Hm. by apply Hsub2, Hf.
              ** by apply Hnew2.
        -- destruct IH as (? & [?|?]); split; [done|left; by right|done|by right].
      * destruct Hn as (? & [->|?]); split; [done|left; left|done|by right].
Qed.

(** A [dfsVisit] call from an unvisited vertex, with more fuel than there
    are unvisited keys. *)
Lemma dfsVisit_outcome graph fuel v s :
  v ∉ visited s → (unvisited graph (visited s) < fuel)%nat →
  visit_outcome_ok graph v s (dfsVisit fuel graph v s).
Proof.
  revert v s. induction fuel as [|fuel IH]; intros v s Hseen Hfuel; [lia|].
  simpl. destruct (decide (v ∈ getVertexIDs graph)) as [Hv|Hv].
  - destruct (getVertex_present graph v Hv) as (vNode & -> & Hnode). simpl.
    set (s1 := mkDfs ({[v]} ∪ visited s) (finished s) (sccNodeIDs s)).
    pose proof (visit_each_outcome graph fuel (neighbors vNode) s1 IH) as Hloop.
    assert (Hfuel1 : (unvisited graph (visited s1) < fuel)%nat).
    { pose proof (unvisited_visit graph (visited s) v Hv Hseen). simpl. lia. }
    specialize (Hloop Hfuel1).
    destruct (forEachM _ (neighbors vNode) s1) as [s2|[m]|]; simpl; [| |done].
    + destruct Hloop as (Hsub & Hall & Hnew). simpl in Hsub. split_and!.
      * set_solver.
      * set_solver.
      * intros x Hx Hno. destruct (decide (x = v)) as [->|Hne].
        -- split; [done|]. unfold following. rewrite Hnode. apply Hall.
        -- apply Hnew; [done|]. simpl. set_solver.
    + destruct Hloop as (Hm & [Hin|?]); split; [done| |done|by right].
      right. exists v, vNode. done.
  - rewrite getVertex_absent by done. simpl. split; [done | by left].
Qed.

(** The first pass on a graph with distinct keys: it returns exactly when
    the [following] lists mention keys only, and otherwise throws for an
    unknown vertex that some key follows. *)
Lemma first_pass_outcome (g : CapGraph) :
  map_ok g →
  match dfs (S (length g)) g (getVertexIDs g) [] with
  | Ok _ => neighbors_closed g
  | Throw (VertexNotFound n) => n ∉ getVertexIDs g ∧ ∃ u, edge g u n
  | OutOfFuel => False
  end.
Proof.
  intros Hok. unfold dfs.
  pose proof (visit_each_outcome g (S (length g)) (reverse (getVertexIDs g))
                (mkDfs ∅ [] []) (dfsVisit_outcome g (S (length g)))) as Hloop.
  assert (Hfuel : (unvisited g (visited (mkDfs ∅ [] [])) < S (length g))%nat).
  { pose proof (unvisited_bound g ∅ Hok). simpl. lia. }
  specialize (Hloop Hfuel).
  destruct (forEachM _ _ _) as [s|[m]|]; [| |done].
  - destruct Hloop as (_ & Hall & Hnew). intros k nd Hnd n Hn.
    assert (Hk : k ∈ visited s).
    { apply Hall, elem_of_reverse. by eapply map_get_Some_key. }
    destruct (Hnew k Hk) as [_ Hfol]; [set_solver|].
    apply (Hnew n); [|set_solver]. apply Hfol. unfold following. by rewrite Hnd.
  - destruct Hloop as (Hm & [Hin|Hu]).
    + exfalso. apply Hm. revert Hin. apply elem_of_reverse.
    + split; [exact Hm | exact Hu].
Qed.

(** X10.  [getSCCs] on a graph with distinct keys returns exactly when every
    followed vertex is a key; otherwise it throws the lookup error for an
    unknown vertex that some key follows. *)
Theorem getSCCs_returns_iff_closed (g : CapGraph) :
  map_ok g →
  ((∃ sccs, getSCCs g = Ok sccs) ↔ neighbors_closed g)
  ∧ (¬ neighbors_closed g →
     ∃ n u, getSCCs g = Throw (VertexNotFound n)
       ∧ n ∉ getVertexIDs g ∧ edge g u n).
Proof.
  intros Hok. pose proof (first_pass_outcome g Hok) as Hfirst.
  assert (Hret : neighbors_closed g → ∃ sccs, getSCCs g = Ok sccs).
  { intros Hcl. destruct (getSCCs_spec g Hok Hcl) as (sccs & ? & _). eauto. }
  unfold getSCCs in *.
  destruct (dfs (S (length g)) g (getVertexIDs g) []) as [s|[m]|]; [| |done].
  - split; [by split|]. by intros [].
  - destruct Hfirst as [Hm [u Hu]]. simpl in *. split.
    + split; [by intros [? ?]|]. intros [sccs ?]%Hret. done.
    + intros _. by exists m, u.
Qed.

Lemma getSCCs_returns_iff_closed_witness :
  ((∃ sccs, getSCCs graph_dangling = Ok sccs) ↔ neighbors_closed graph_dangling)
  ∧ (¬ neighbors_closed graph_dangling →
     ∃ n u, getSCCs graph_dangling = Throw (VertexNotFound n)
       ∧ n ∉ getVertexIDs graph_dangling ∧ edge graph_dangling u n).
Proof.
  apply (getSCCs_returns_iff_closed graph_dangling).
  unfold map_ok. vm_compute. repeat constructor. set_solver.
Defined.

(** ** Components and the edges of the searched graph *)

Lemma members_lookup sccs x :
  x ∈ members sccs ↔ ∃ j scc, sccs !! j = Some scc ∧ x ∈ getVertexIDs scc.
Proof.
  unfold members. rewrite elem_of_concat. split.
  - intros (l & Hl & Hx). apply list_elem_of_fmap in Hl as (scc & -> & Hscc).
    apply list_elem_of_lookup in Hscc as [j Hj]. eauto.
  - intros (j & scc & Hj & Hx). exists (getVertexIDs scc). split; [|done].
    apply list_elem_of_fmap. exists scc. split; [done|].
    by eapply list_elem_of_lookup_2.
Qed.

Section second_pass_order.
Context (this graph : CapGraph).
Context (Hclosed : neighbors_closed graph) (Hok : map_ok graph).
Context (Hkeys : getVertexIDs graph ⊆ getVertexIDs this).

(** An edge of the searched graph never leads from a component to a
    component returned later. *)
Lemma dfsGraphList_loop_order fuel iters vertices s sccList sccs :
  (length graph < fuel)%nat →
  (∀ x, x ∈ vertices → x ∈ getVertexIDs graph ∧ x ∉ visited s) →
  sccNodeIDs s = [] →
  (∀ x, x ∈ members sccList ↔ x ∈ visited s) →
  (∀ x n, x ∈ visited s → n ∈ following graph x → n ∈ visited s) →
  dfsGraphList_loop iters fuel this graph vertices s sccList = Ok sccs →
  ∀ i ci x y, sccs !! i = Some ci → (length sccList ≤ i)%nat →
    x ∈ getVertexIDs ci → y ∈ following graph x →
    ∃ j cj, (j ≤ i)%nat ∧ sccs !! j = Some cj ∧ y ∈ getVertexIDs cj.
Proof.
  intros Hfuel. revert vertices s sccList.
  induction iters as [|iters IH]; intros vertices s sccList Hvs Hids Hmem Hcl; simpl.
  - destruct (pop vertices) as [[v vertices1]|]; [done|]. intros [= <-].
    intros i ci x y Hi Hlen. apply lookup_lt_Some in Hi. lia.
  - pose proof (pop_inv vertices) as Hpop.
    destruct (pop vertices) as [[v vertices1]|]; subst vertices.
    2:{ intros [= <-] i ci x y Hi Hlen. apply lookup_lt_Some in Hi. lia. }
    destruct (Hvs v) as [Hv Hseen]; [set_solver|].
    rewrite bool_decide_eq_false_2 by done.
    pose proof (unvisited_bound graph (visited s) Hok) as Hunv.
    pose proof (dfsVisit_outcome graph fuel v s Hseen ltac:(lia)) as Hout.
    destruct (dfsVisit_spec graph Hclosed fuel v s Hv Hseen ltac:(lia))
      as (new & s' & Hvisit & (Hv' & _ & Hc') & Hndnew & Hlast & Hnew).
    rewrite Hvisit in Hout |- *. simpl. destruct Hout as (_ & _ & Hnewcl).
    rewrite Hids in Hc'. simpl in Hc'. rewrite Hc'.
    apply last_Some in Hlast as Hvin. destruct Hvin as [l' Hl'].
    destruct (buildComponent_spec this v new) as (scc & Hscc & Hokc & Hkc & _).
    { intros x Hx. apply Hkeys. by apply Hnew. }
    { rewrite Hl'. set_solver. }
    rewrite Hscc. simpl. intros Hloop.
    pose proof (dfsGraphList_loop_prefix _ _ _ _ _ _ _ _ Hloop) as [rest Hrest].
    assert (Hmem' : ∀ x, x ∈ members (sccList ++ [scc]) ↔ x ∈ visited s').
    { intros x. rewrite members_snoc, elem_of_app, Hmem, Hkc, Hv'. set_solver. }
    assert (Hcl' : ∀ x n, x ∈ visited s' → n ∈ following graph x → n ∈ visited s').
    { intros x n Hx Hn. destruct (decide (x ∈ visited s)) as [Hxs|Hxs].
      - rewrite Hv'. apply elem_of_union. left. by eapply Hcl.
      - by apply (Hnewcl x Hx Hxs). }
    assert (Hvs' : ∀ x, x ∈ filter (λ id, negb (includes new id)) vertices1 →
              x ∈ getVertexIDs graph ∧ x ∉ visited s').
    { intros x [Hx2 Hx1]%list_elem_of_filter.
      apply negb_True in Hx2. rewrite Is_true_true, includes_true in Hx2.
      destruct (Hvs x) as [? ?]; [set_solver|]. split; [done|].
      rewrite Hv'. set_solver. }
    intros i ci x y Hi Hlen Hx Hy.
    destruct (decide (i = length sccList)) as [->|Hne].
    + assert (ci = scc) as ->.
      { rewrite Hrest, <-app_assoc in Hi.
        rewrite lookup_app_r, Nat.sub_diag in Hi by lia. by injection Hi. }
      assert (Hys : y ∈ visited s').
      { apply (Hcl' x); [|done]. apply Hmem'. rewrite members_snoc. set_solver. }
      apply Hmem', members_lookup in Hys as (j & cj & Hj & Hyj).
      exists j, cj. split_and!; [|by rewrite Hrest; apply lookup_app_l_Some|done].
      apply lookup_lt_Some in Hj. rewrite length_app in Hj. simpl in Hj. lia.
    + apply (IH (filter (λ id, negb (includes new id)) vertices1)
               (mkDfs (visited s') (finished s') []) (sccList ++ [scc])
               Hvs' eq_refl Hmem' Hcl' Hloop i ci x y Hi); [|done..].
      rewrite length_app. simpl. lia.
Qed.

End second_pass_order.

Lemma path_transpose (g : CapGraph) u w :
  path g u w → path (transpose g) w u.
Proof.
  unfold path. induction 1 as [|u m w Hedge _ IH]; [done|].
  eapply rtc_r; [exact IH|]. by apply transpose_edge_iff.
Qed.

(** X11.  [getSCCs] never separates vertices that reach each other: whatever
    two vertices lie on a common cycle are returned in the same component.
    (The components may be larger than that.) *)
Theorem getSCCs_keeps_cycles_together (g : CapGraph) sccs (u w : Z) :
  map_ok g → neighbors_closed g → getSCCs g = Ok sccs →
  u ∈ getVertexIDs g → path g u w → path g w u →
  ∃ scc, scc ∈ sccs ∧ u ∈ getVertexIDs scc ∧ w ∈ getVertexIDs scc.
Proof.
  intros Hok Hcl Hget Hu Huw Hwu.
  destruct (getSCCs_spec g Hok Hcl) as (sccs' & Hget' & Hnd & Hmem).
  rewrite Hget in Hget'. injection Hget' as <-.
  destruct (transpose_spec g Hcl) as (Hokt & Hkt & Hclt).
  assert (Horder : ∀ i ci x y, sccs !! i = Some ci → x ∈ getVertexIDs ci →
            edge (transpose g) x y →
            ∃ j cj, (j ≤ i)%nat ∧ sccs !! j = Some cj ∧ y ∈ getVertexIDs cj).
  { unfold getSCCs in Hget.
    destruct (dfs_spec g Hcl (S (length g)) [] Hok) as (s & Hs & _ & Hfin); [lia|].
    rewrite Hs in Hget. simpl in Hget. unfold dfsGraphList in Hget.
    intros i ci x y Hi Hx Hy%edge_following.
    apply (dfsGraphList_loop_order g (transpose g) Hclt Hokt
             (λ x, proj1 (Hkt x)) (S (length (transpose g)))
             (length (finished s)) (finished s) (mkDfs ∅ [] []) [] sccs)
      with (i := i) (ci := ci) (x := x); [lia| |done| | |exact Hget|done|simpl; lia|done..].
    - intros z Hz. split; [by apply Hkt, Hfin | set_solver].
    - intros z. simpl. set_solver.
    - intros z n Hz. simpl in Hz. set_solver. }
  assert (Hpath : ∀ x y, path (transpose g) x y →
            ∀ i ci, sccs !! i = Some ci → x ∈ getVertexIDs ci →
            ∃ j cj, (j ≤ i)%nat ∧ sccs !! j = Some cj ∧ y ∈ getVertexIDs cj).
  { intros x y Hxy. induction Hxy as [x|x m y Hedge _ IH]; intros i ci Hi Hx.
    - exists i, ci. by split_and!.
    - destruct (Horder i ci x m Hi Hx Hedge) as (j & cj & Hji & Hj & Hm).
      destruct (IH j cj Hj Hm) as (k & ck & Hkj & Hk & Hy).
      exists k, ck. split_and!; [lia|done..]. }
  apply Hmem, members_lookup in Hu as (i & ci & Hi & Hui).
  destruct (Hpath u w (path_transpose g w u Hwu) i ci Hi Hui)
    as (j & cj & Hji & Hj & Hwj).
  destruct (Hpath w u (path_transpose g u w Huw) j cj Hj Hwj)
    as (k & ck & Hkj & Hk & Huk).
  assert (k = i).
  { apply (NoDup_concat_unique (getVertexIDs <$> sccs) k i
             (getVertexIDs ck) (getVertexIDs ci) u); [exact Hnd| | |done..].
    - by rewrite list_lookup_fmap, Hk.
    - by rewrite list_lookup_fmap, Hi. }
  assert (j = i) as -> by lia. rewrite Hi in Hj. injection Hj as <-.
  exists ci. split_and!; [|done..]. by eapply list_elem_of_lookup_2.
Qed.

Lemma getSCCs_keeps_cycles_together_witness :
  ∃ scc, scc ∈ [[(2, mkCapNode 2 [3] [] false); (3, mkCapNode 3 [1] [] false);
                 (1, mkCapNode 1 [2] [] false)]]
    ∧ 1 ∈ getVertexIDs scc ∧ 3 ∈ getVertexIDs scc.
Proof.
  apply (getSCCs_keeps_cycles_together graph_cycle3 _ 1 3).
  - apply reachable_map_ok, quietly_reachable, graph_cycle3_quietly.
  - apply reachable_quietly_refs_closed, graph_cycle3_quietly.
  - vm_compute. reflexivity.
  - vm_compute. left.
  - apply (rtc_l _ 1 2 3); [|apply rtc_once]; eexists;
      (split; [reflexivity|]); simpl; set_solver.
  - apply rtc_once. eexists. split; [reflexivity|]. simpl. set_solver.
Defined.

(** ** What a component graph holds *)

Lemma visit_each_extends fuel graph ns s s' :
  (∀ v s s', dfsVisit fuel graph v s = Ok s' →
     ∃ new, dfs_extends s s' new ∧ last new = Some v) →
  forEachM (λ n s', if bool_decide (n ∈ visited s') then Ok s'
                    else dfsVisit fuel graph n s') ns s = Ok s' →
  ∃ new, dfs_extends s s' new.
Proof.
  intros Hvisit. revert s. induction ns as [|n ns IH]; intros s; simpl.
  - intros [= <-]. exists []. apply dfs_extends_nil.
  - case_bool_decide; simpl; [apply IH|].
    destruct (dfsVisit fuel graph n s) as [sa| |] eqn:E; simpl; [|done..].
    intros (new2 & Hext2)%IH. destruct (Hvisit n s sa E) as (new1 & Hext1 & _).
    exists (new1 ++ new2). by eapply dfs_extends_app.
Qed.

(** A returning [dfsVisit] call pushes the vertices it finishes, its own
    vertex last. *)
Lemma dfsVisit_extends fuel graph v s s' :
  dfsVisit fuel graph v s = Ok s' →
  ∃ new, dfs_extends s s' new ∧ last new = Some v.
Proof.
  revert v s s'. induction fuel as [|fuel IH]; intros v s s'; simpl; [done|].
  destruct (getVertex graph v); simpl; [|done..].
  set (s1 := mkDfs ({[v]} ∪ visited s) (finished s) (sccNodeIDs s)).
  destruct (forEachM _ _ s1) as [s2| |] eqn:E; simpl; [|done..].
  intros [= <-]. apply (visit_each_extends fuel graph _ s1 s2 IH) in E
    as (new & Hv & Hf & Hc).
  exists (new ++ [v]). split; [|apply last_snoc].
  unfold dfs_extends. simpl in *. rewrite Hv, Hf, Hc, reverse_snoc, app_assoc.
  split_and!; [|done..]. rewrite list_to_set_snoc_L. set_solver.
Qed.

Lemma foldl_addNeighbor_node ns (g : CapGraph) k nd :
  node_at g k = Some nd →
  node_at (foldl (λ g n, map_alter (addNeighbor n) g k) g ns) k
  = Some (mkCapNode (name nd) (neighbors nd ++ ns) (followers nd)
            (isTrendSetter nd))
  ∧ ∀ k', k' ≠ k →
      node_at (foldl (λ g n, map_alter (addNeighbor n) g k) g ns) k'
      = node_at g k'.
Proof.
  revert g nd. induction ns as [|n ns IH]; intros g nd Hnd; simpl.
  - rewrite app_nil_r. split; [|done]. rewrite Hnd. by destruct nd.
  - destruct (IH (map_alter (addNeighbor n) g k) (addNeighbor n nd)) as [Hk Ho].
    { by rewrite node_at_alter, decide_True, Hnd. }
    split.
    + rewrite Hk. simpl. by rewrite <-app_assoc.
    + intros k' Hk'. rewrite Ho by done. by rewrite node_at_alter, decide_False.
Qed.

Lemma buildComponent_loop_copies this ids (scc : CapGraph) (done : list Z) scc' :
  (∀ k, k ∈ getVertexIDs scc →
     followersOf scc k = []
     ∧ if decide (k ∈ done) then following scc k = following this k
       else following scc k = []) →
  forEachM
    (λ nodeID scc,
       origiNode ← getVertex this nodeID;
       Ok (foldl (λ g n, map_alter (addNeighbor n) g nodeID)
             (addVertex nodeID scc) (neighbors origiNode)))
    ids scc = Ok scc' →
  (∀ k, k ∈ ids → k ∈ getVertexIDs this)
  ∧ ∀ k, k ∈ getVertexIDs scc' →
      (k ∈ getVertexIDs scc ∨ k ∈ ids)
      ∧ followersOf scc' k = []
      ∧ if decide (k ∈ done ∨ k ∈ ids) then following scc' k = following this k
        else following scc' k = [].
Proof.
  revert scc done. induction ids as [|nodeID ids IH]; intros scc done Hinv; simpl.
  - intros [= <-]. split; [by intros k ?%elem_of_nil|]. intros k Hk.
    destruct (Hinv k Hk) as [Hf Hn]. split_and!; [by left|done|].
    destruct (decide (k ∈ done)).
    + rewrite decide_True by by left. done.
    + rewrite decide_False; [done|]. by intros [?|?%elem_of_nil].
  - destruct (getVertex this nodeID) as [origiNode| |] eqn:Hget; simpl; [|done..].
    apply getVertex_Ok in Hget as Horig.
    set (scc1 := addVertex nodeID scc).
    assert (Hn1 : node_at scc1 nodeID = Some (newCapNode nodeID)).
    { unfold scc1. by rewrite node_at_addVertex, decide_True. }
    destruct (foldl_addNeighbor_node (neighbors origiNode) scc1 nodeID _ Hn1)
      as [Hk2 Ho2].
    set (scc2 := foldl _ scc1 _) in *.
    assert (Hkeys2 : ∀ k, k ∈ getVertexIDs scc2 ↔ k = nodeID ∨ k ∈ getVertexIDs scc).
    { intros k. unfold scc2. rewrite (getVertexIDs_foldl_alter addNeighbor).
      apply getVertexIDs_addVertex. }
    intros Hloop. apply (IH scc2 (done ++ [nodeID])) in Hloop as [Hids Hres].
    + split.
      * intros k [->|?]%elem_of_cons; [by eapply map_get_Some_key | by apply Hids].
      * intros k Hk. destruct (Hres k Hk) as (Hin & Hf & Hn). split_and!.
        -- destruct Hin as [Hin|?]; [|right; by right].
           apply Hkeys2 in Hin as [->|?]; [right; left | by left].
        -- done.
        -- destruct (decide ((k ∈ done ++ [nodeID]) ∨ k ∈ ids)) as [Hd|Hd].
           ++ rewrite decide_True; [done|]. set_solver.
           ++ rewrite decide_False; [done|]. set_solver.
    + intros k Hk. destruct (decide (k = nodeID)) as [->|Hne].
      * unfold followersOf, following. rewrite Hk2. simpl.
        split; [done|]. rewrite decide_True by set_solver. by rewrite Horig.
      * unfold followersOf, following. rewrite Ho2 by done.
        unfold scc1. rewrite node_at_addVertex, decide_False by done.
        apply Hkeys2 in Hk as [?|Hk]; [done|].
        destruct (Hinv k Hk) as [Hf Hn]. split; [done|].
        destruct (decide (k ∈ done)).
        -- rewrite decide_True by set_solver. done.
        -- rewrite decide_False by set_solver. done.
Qed.

(** A component graph built around a collected root: every vertex of it
    was collected, is a key of the graph searched, and carries a copy of
    its whole [following] list and no followers. *)
Lemma buildComponent_copies this v ids scc :
  v ∈ ids → buildComponent this v ids = Ok scc →
  ∀ k, k ∈ getVertexIDs scc →
    k ∈ ids ∧ k ∈ getVertexIDs this
    ∧ following scc k = following this k ∧ followersOf scc k = [].
Proof.
  intros Hv. unfold buildComponent. cbv zeta. intros Hloop.
  apply (buildComponent_loop_copies this ids (newCapGraph v) []) in Hloop
    as [Hids Hres].
  - intros k Hk. destruct (Hres k Hk) as (Hin & Hf & Hn).
    assert (Hkin : k ∈ ids).
    { destruct Hin as [Hin|?]; [|done]. unfold newCapGraph in Hin.
      apply getVertexIDs_addVertex in Hin as [->|?%elem_of_nil]; done. }
    split_and!; [done|by apply Hids| |done].
    rewrite decide_True in Hn by by right. done.
  - intros k Hk. unfold newCapGraph in *.
    apply getVertexIDs_addVertex in Hk as [->|?%elem_of_nil]; [|done].
    unfold followersOf, following. rewrite node_at_addVertex, decide_True by done.
    split; [done|]. by rewrite decide_False by apply not_elem_of_nil.
Qed.

Lemma dfsGraphList_loop_built (Q : CapGraph → Prop) iters fuel this graph
    vertices s sccList sccs :
  (∀ v ids scc, v ∈ ids → buildComponent this v ids = Ok scc → Q scc) →
  (∀ x, x ∈ vertices → x ∉ visited s) →
  sccNodeIDs s = [] →
  Forall Q sccList →
  dfsGraphList_loop iters fuel this graph vertices s sccList = Ok sccs →
  Forall Q sccs.
Proof.
  intros HQ. revert vertices s sccList.
  induction iters as [|iters IH]; intros vertices s sccList Hvs Hids Hall; simpl.
  - destruct (pop vertices) as [[v vertices1]|]; [done|]. by intros [= <-].
  - pose proof (pop_inv vertices) as Hpop.
    destruct (pop vertices) as [[v vertices1]|]; subst vertices;
      [|by intros [= <-]].
    rewrite bool_decide_eq_false_2 by (apply Hvs; set_solver).
    destruct (dfsVisit fuel graph v s) as [s'| |] eqn:Hvisit; simpl; [|done..].
    apply dfsVisit_extends in Hvisit as (new & (Hv' & _ & Hc') & Hlast).
    rewrite Hids in Hc'. simpl in Hc'. rewrite Hc'.
    destruct (buildComponent this v new) as [scc| |] eqn:Hscc; simpl; [|done..].
    apply IH; [| done |].
    + intros x [Hx2 Hx1]%list_elem_of_filter. simpl.
      apply negb_True in Hx2. rewrite Is_true_true, includes_true in Hx2.
      rewrite Hv'. assert (x ∉ visited s) by (apply Hvs; set_solver). set_solver.
    + apply Forall_app. split; [done|]. apply Forall_singleton.
      apply (HQ v new); [|done]. apply last_Some in Hlast as [l' ->]. set_solver.
Qed.

(** X12.  Every graph [getSCCs] returns is non-empty and holds keys of the
    graph; each of its vertices carries a copy of its whole [following]
    list, so that edges to vertices outside the component are kept, and an
    empty [followers] list. *)
Theorem getSCCs_components_copy (g : CapGraph) sccs scc :
  getSCCs g = Ok sccs → scc ∈ sccs →
  (∃ v, component_root scc = Some v)
  ∧ ∀ k, k ∈ getVertexIDs scc →
      k ∈ getVertexIDs g
      ∧ following scc k = following g k ∧ followersOf scc k = [].
Proof.
  unfold getSCCs. destruct (dfs _ _ _ _) as [s| |]; simpl; [|done..].
  unfold dfsGraphList. intros Hloop Hin.
  apply (dfsGraphList_loop_built
           (λ scc, (∃ v, component_root scc = Some v)
              ∧ ∀ k, k ∈ getVertexIDs scc →
                  k ∈ getVertexIDs g
                  ∧ following scc k = following g k ∧ followersOf scc k = []))
    in Hloop; [by eapply Forall_forall in Hloop| |set_solver|done|constructor].
  intros v ids scc' Hv Hscc. split.
  - exists v. by eapply buildComponent_root.
  - intros k Hk. by destruct (buildComponent_copies g v ids scc' Hv Hscc k Hk)
      as (_ & ? & ? & ?).
Qed.

Lemma getSCCs_components_copy_witness :
  let scc := [(2, mkCapNode 2 [] [] false); (1, mkCapNode 1 [2] [] false)] in
  (∃ v, component_root scc = Some v)
  ∧ ∀ k, k ∈ getVertexIDs scc →
      k ∈ getVertexIDs graph_edge_1_2
      ∧ following scc k = following graph_edge_1_2 k ∧ followersOf scc k = [].
Proof.
  eapply (getSCCs_components_copy graph_edge_1_2).
  - vm_compute. reflexivity.
  - left.
Defined.

(** ** What a propagation run reports *)

#[local] Arguments Nat.min : simpl never.

Lemma forEachM_app {A S} (body : A → S → outcome S) xs ys s :
  forEachM body (xs ++ ys) s = (s' ← forEachM body xs s; forEachM body ys s').
Proof.
  revert s. induction xs as [|x xs IH]; intros s; simpl; [done|].
  destruct (body x s); simpl; [apply IH | done..].
Qed.

Lemma addVertices_known this sub nodes :
  nodes ⊆ getVertexIDs sub → addVertices this sub nodes = Ok sub.
Proof.
  unfold addVertices. induction nodes as [|x nodes IH]; intros Hsub; simpl; [done|].
  rewrite bool_decide_eq_true_2 by set_solver. simpl. apply IH. set_solver.
Qed.

Lemma addVertices_new this sub n sub' :
  n ∉ getVertexIDs sub → addVertices this sub [n] = Ok sub' →
  getVertexIDs sub' = getVertexIDs sub ++ [n].
Proof.
  intros Hn. unfold addVertices. simpl. rewrite bool_decide_eq_false_2 by done.
  destruct (getVertex this n); simpl; [|done..]. intros [= <-].
  rewrite (getVertexIDs_foldl_alter addNeighbor).
  unfold getVertexIDs, addVertex. rewrite map_keys_set. by rewrite decide_False.
Qed.

(** The vertices of the sub-graph follow the visited set. *)
Lemma addVertices_visited this sub visitedNodes sub' :
  getVertexIDs sub = visitedNodes →
  addVertices this sub visitedNodes = Ok sub' → sub' = sub.
Proof.
  intros Hkeys. rewrite addVertices_known; [by intros [= <-]|]. by rewrite Hkeys.
Qed.

Lemma addVertices_visited_snoc this sub visitedNodes n sub' :
  getVertexIDs sub = visitedNodes → n ∉ visitedNodes →
  addVertices this sub (visitedNodes ++ [n]) = Ok sub' →
  getVertexIDs sub' = visitedNodes ++ [n].
Proof.
  intros Hkeys Hn. unfold addVertices. rewrite forEachM_app.
  fold (addVertices this sub visitedNodes).
  rewrite addVertices_known by by rewrite Hkeys. simpl.
  intros Hnew. apply addVertices_new in Hnew; [|by rewrite Hkeys].
  by rewrite Hnew, Hkeys.
Qed.

Lemma generations_snoc_small visitedNodes n :
  (length visitedNodes < 10)%nat →
  generations (visitedNodes ++ [n])
  = generations visitedNodes
    ++ [(Z.of_nat (S (length visitedNodes)), visitedNodes ++ [n])].
Proof.
  intros Hlen. unfold generations. rewrite length_app. simpl.
  replace (10 `min` (length visitedNodes + 1))%nat
    with (S (length visitedNodes)) by lia.
  replace (10 `min` length visitedNodes)%nat with (length visitedNodes) by lia.
  rewrite seq_S, fmap_app. simpl. f_equal.
  - apply list_fmap_ext. intros i x Hx. f_equal.
    apply lookup_seq in Hx as [-> Hi]. rewrite take_app_le by lia. done.
  - do 2 f_equal. rewrite take_ge; [done|]. rewrite length_app. simpl. lia.
Qed.

Lemma generations_snoc_full visitedNodes n :
  (10 ≤ length visitedNodes)%nat →
  generations (visitedNodes ++ [n]) = generations visitedNodes.
Proof.
  intros Hlen. unfold generations. rewrite length_app. simpl.
  replace (10 `min` (length visitedNodes + 1))%nat with 10%nat by lia.
  replace (10 `min` length visitedNodes)%nat with 10%nat by lia.
  apply list_fmap_ext. intros i x Hx. f_equal.
  apply lookup_seq in Hx as [-> Hi]. rewrite take_app_le by lia. done.
Qed.

(** One iteration keeps the bookkeeping of the generations in step with
    the visited set. *)
Lemma sharingIteration_reports this nodeID queue st st' :
  sharingIteration this nodeID queue st = Ok st' →
  NoDup (sim_visited st) →
  getVertexIDs (subGraph st) = sim_visited st →
  generation st = 1 + Z.of_nat (10 `min` length (sim_visited st)) →
  previousGraphLength st = Z.of_nat (10 `min` length (sim_visited st)) →
  emitted st = generations (sim_visited st) →
  NoDup (sim_visited st')
  ∧ getVertexIDs (subGraph st') = sim_visited st'
  ∧ generation st' = 1 + Z.of_nat (10 `min` length (sim_visited st'))
  ∧ previousGraphLength st' = Z.of_nat (10 `min` length (sim_visited st'))
  ∧ emitted st' = generations (sim_visited st').
Proof.
  intros Hit Hnd Hkeys Hgen Hprev Hem. unfold sharingIteration in Hit.
  destruct (includes (sim_visited st) nodeID) eqn:Hinc.
  - simpl in Hit.
    destruct (addVertices _ _ _) as [sub1| |] eqn:Hadd; simpl in Hit; [|done..].
    apply addVertices_visited in Hadd as ->; [|done].
    rewrite Hkeys in Hit. unfold shouldContinueGenerating in Hit.
    rewrite Hgen, Hprev in Hit.
    destruct (decide (length (sim_visited st) ≤ 10)%nat).
    + replace (10 `min` length (sim_visited st))%nat
        with (length (sim_visited st)) in Hit by lia.
      rewrite (bool_decide_eq_true_2 (_ = _)), andb_false_r in Hit by done.
      injection Hit as <-. simpl. split_and!; try done; lia.
    + rewrite (bool_decide_eq_false_2 (_ ≤ _)) in Hit by lia.
      injection Hit as <-. simpl. split_and!; try done; lia.
  - apply includes_false in Hinc.
    destruct (shareVideo _ _ _ _) as [[q vw]| |]; simpl in Hit; [|done..].
    rewrite set_add_fresh in Hit by done.
    destruct (addVertices _ _ _) as [sub1| |] eqn:Hadd; simpl in Hit; [|done..].
    apply addVertices_visited_snoc in Hadd; [|done..].
    assert (Hnd' : NoDup (sim_visited st ++ [nodeID])).
    { apply NoDup_app. split_and!; [done| |apply NoDup_singleton].
      by intros x Hx ->%list_elem_of_singleton. }
    rewrite Hadd in Hit. unfold shouldContinueGenerating in Hit.
    rewrite Hgen, Hprev, length_app in Hit. simpl in Hit.
    destruct (decide (length (sim_visited st) < 10)%nat).
    + rewrite (bool_decide_eq_true_2 (_ ≤ _)) in Hit by lia.
      rewrite (bool_decide_eq_false_2 (_ = _)) in Hit by lia.
      injection Hit as <-. simpl. rewrite length_app. simpl.
      split_and!; [done|done|lia|lia|].
      rewrite generations_snoc_small, Hem by done. do 3 f_equal. lia.
    + rewrite (bool_decide_eq_false_2 (_ ≤ _)) in Hit by lia.
      injection Hit as <-. simpl. rewrite length_app. simpl.
      split_and!; [done|done|lia|lia|].
      rewrite generations_snoc_full by lia. done.
Qed.

Lemma sharingLoop_reports this fuel st :
  NoDup (sim_visited st) →
  getVertexIDs (subGraph st) = sim_visited st →
  generation st = 1 + Z.of_nat (10 `min` length (sim_visited st)) →
  previousGraphLength st = Z.of_nat (10 `min` length (sim_visited st)) →
  emitted st = generations (sim_visited st) →
  NoDup (sim_visited (sharingLoop fuel this st).2)
  ∧ emitted (sharingLoop fuel this st).2
    = generations (sim_visited (sharingLoop fuel this st).2).
Proof.
  revert st. induction fuel as [|fuel IH]; intros st Hnd Hkeys Hgen Hprev Hem;
    simpl; destruct (toVisit st) as [|nodeID queue]; [done..|].
  destruct (sharingIteration this nodeID queue st) as [st'| |] eqn:Hit; [|done..].
  apply sharingIteration_reports in Hit as (? & ? & ? & ? & ?); [|done..].
  by apply IH.
Qed.

(** X13.  [startViralSharing] reports at most ten generations; the [i]-th one,
    numbered [i], lists the first [i] nodes the run visited, in visiting
    order, and no node is visited twice.  This holds for the state the run
    is left in however it ends. *)
Theorem startViralSharing_reports_prefixes (fuel : nat) (this : CapGraph)
    (startingNodeID : Z) :
  let st := (startViralSharing fuel this startingNodeID).2 in
  NoDup (sim_visited st) ∧ emitted st = generations (sim_visited st).
Proof.
  simpl. unfold startViralSharing.
  destruct (getVertex this startingNodeID); simpl;
    [|split; [constructor|done]..].
  apply sharingLoop_reports; simpl; [constructor|done..].
Qed.

(** *** The depth-bounded run *)

Lemma generation_sizes_snoc_small (visitedNodes : list Z) (n : Z) :
  (length visitedNodes < 10)%nat →
  generation_sizes (visitedNodes ++ [n])
  = generation_sizes visitedNodes
    ++ [(Z.of_nat (S (length visitedNodes)), Z.of_nat (S (length visitedNodes)))].
Proof.
  intros Hlen. unfold generation_sizes. rewrite length_app. cbn [length].
  replace (10 `min` (length visitedNodes + 1))%nat
    with (S (length visitedNodes)) by lia.
  replace (10 `min` length visitedNodes)%nat with (length visitedNodes) by lia.
  by rewrite seq_S, fmap_app.
Qed.

Lemma generation_sizes_snoc_full (visitedNodes : list Z) (n : Z) :
  (10 ≤ length visitedNodes)%nat →
  generation_sizes (visitedNodes ++ [n]) = generation_sizes visitedNodes.
Proof.
  intros Hlen. unfold generation_sizes. rewrite length_app. cbn [length].
  replace (10 `min` (length visitedNodes + 1))%nat with 10%nat by lia.
  by replace (10 `min` length visitedNodes)%nat with 10%nat by lia.
Qed.

Lemma limitIteration_reports this nodeID depth queue st st' :
  limitIteration this nodeID depth queue st = Ok st' →
  NoDup (lim_visited st) →
  getVertexIDs (lim_subGraph st) = lim_visited st →
  lim_generation st = 1 + Z.of_nat (10 `min` length (lim_visited st)) →
  lim_previousGraphLength st = Z.of_nat (10 `min` length (lim_visited st)) →
  lim_emitted st = generation_sizes (lim_visited st) →
  (NoDup (lim_visited st')
   ∧ getVertexIDs (lim_subGraph st') = lim_visited st'
   ∧ lim_generation st' = 1 + Z.of_nat (10 `min` length (lim_visited st'))
   ∧ lim_previousGraphLength st' = Z.of_nat (10 `min` length (lim_visited st'))
   ∧ lim_emitted st' = generation_sizes (lim_visited st'))
  ∧ (length (lim_visited st') ≤ S (length (lim_visited st)))%nat.
Proof.
  intros Hit Hnd Hkeys Hgen Hprev Hem. unfold limitIteration in Hit.
  destruct (includes (lim_visited st) nodeID) eqn:Hinc.
  - simpl in Hit.
    destruct (addVertices _ _ _) as [sub1| |] eqn:Hadd; simpl in Hit; [|done..].
    apply addVertices_visited in Hadd as ->; [|done].
    rewrite Hkeys in Hit. unfold shouldContinueGenerating in Hit.
    rewrite Hgen, Hprev in Hit.
    destruct (decide (length (lim_visited st) ≤ 10)%nat).
    + replace (10 `min` length (lim_visited st))%nat
        with (length (lim_visited st)) in Hit by lia.
      rewrite (bool_decide_eq_true_2 (_ = _)), andb_false_r in Hit by done.
      injection Hit as <-. simpl. split_and!; try done; lia.
    + rewrite (bool_decide_eq_false_2 (_ ≤ _)) in Hit by lia.
      injection Hit as <-. simpl. split_and!; try done; lia.
  - apply includes_false in Hinc.
    destruct (shareVideoWithDepth _ _ _ _ _) as [[q vw]| |]; simpl in Hit;
      [|done..].
    rewrite set_add_fresh in Hit by done.
    destruct (addVertices _ _ _) as [sub1| |] eqn:Hadd; simpl in Hit; [|done..].
    apply addVertices_visited_snoc in Hadd; [|done..].
    assert (Hnd' : NoDup (lim_visited st ++ [nodeID])).
    { apply NoDup_app. split_and!; [done| |apply NoDup_singleton].
      by intros x Hx ->%list_elem_of_singleton. }
    rewrite Hadd in Hit. unfold shouldContinueGenerating in Hit.
    rewrite Hgen, Hprev, length_app in Hit. simpl in Hit.
    destruct (decide (length (lim_visited st) < 10)%nat).
    + rewrite (bool_decide_eq_true_2 (_ ≤ _)) in Hit by lia.
      rewrite (bool_decide_eq_false_2 (_ = _)) in Hit by lia.
      injection Hit as <-. simpl. rewrite length_app. simpl.
      split_and!; [done|done|lia|lia| |lia].
      rewrite generation_sizes_snoc_small, Hem by done.
      do 2 f_equal. f_equal; lia.
    + rewrite (bool_decide_eq_false_2 (_ ≤ _)) in Hit by lia.
      injection Hit as <-. simpl. rewrite length_app. simpl.
      split_and!; [done|done|lia|lia| |lia].
      rewrite generation_sizes_snoc_full by lia. done.
Qed.

Lemma limitLoop_reports this maxDepth fuel st :
  NoDup (lim_visited st) →
  getVertexIDs (lim_subGraph st) = lim_visited st →
  lim_generation st = 1 + Z.of_nat (10 `min` length (lim_visited st)) →
  lim_previousGraphLength st = Z.of_nat (10 `min` length (lim_visited st)) →
  lim_emitted st = generation_sizes (lim_visited st) →
  Z.of_nat (length (lim_visited st)) ≤ 100000 →
  let st' := (limitLoop fuel this maxDepth st).2 in
  NoDup (lim_visited st')
  ∧ lim_emitted st' = generation_sizes (lim_visited st')
  ∧ Z.of_nat (length (lim_visited st')) ≤ 100001.
Proof.
  revert st.
  induction fuel as [|fuel IH]; intros st Hnd Hkeys Hgen Hprev Hem Hlen; simpl;
    destruct (lim_toVisit st) as [|[nodeID depth] queue]; simpl;
    [split_and!; [done..|lia] | split_and!; [done..|lia]
     | split_and!; [done..|lia] |].
  case_decide; [by apply IH|].
  destruct (limitIteration this nodeID depth queue st) as [st'| |] eqn:Hit;
    [|simpl; split_and!; [done..|lia]..].
  apply limitIteration_reports in Hit as ((? & ? & ? & ? & ?) & ?); [|done..].
  case_decide.
  - simpl. split_and!; [done..|lia].
  - apply IH; [done..|lia].
Qed.

(** X14.  [startViralSharingWithLimit] writes at most ten "Generation" lines;
    the [i]-th is numbered [i] and reports [i] affected nodes.  No node is
    visited twice, and a run never holds more than 100001 visited nodes. *)
Theorem startViralSharingWithLimit_reports_sizes (fuel : nat) (this : CapGraph)
    (startingNodeID maxDepth : Z) :
  let st := (startViralSharingWithLimit fuel this startingNodeID maxDepth).2 in
  NoDup (lim_visited st)
  ∧ lim_emitted st = generation_sizes (lim_visited st)
  ∧ Z.of_nat (length (lim_visited st)) ≤ 100001.
Proof.
  simpl. unfold startViralSharingWithLimit.
  destruct (getVertex this startingNodeID); simpl;
    [|split_and!; [constructor|done|lia]..].
  apply limitLoop_reports; simpl; [constructor|done..|lia].
Qed.

(** ** Whom a propagation run reaches *)

Lemma sharingLoop_follows this start fuel st :
  (∀ x, x ∈ toVisit st ∨ x ∈ sim_visited st → spreads_to this start x) →
  ∀ x, x ∈ toVisit (sharingLoop fuel this st).2
       ∨ x ∈ sim_visited (sharingLoop fuel this st).2 →
       spreads_to this start x.
Proof.
  revert st. induction fuel as [|fuel IH]; intros st Hinv; simpl;
    destruct (toVisit st) as [|nodeID queue] eqn:Hq; simpl; rewrite ?Hq;
    [done..|].
  destruct (sharingIteration this nodeID queue st) as [st'| |] eqn:Hit;
    simpl; rewrite ?Hq; [|done..].
  apply IH. intros x Hx.
  apply sharingIteration_inv in Hit
    as [(_ & Hq' & Hv' & _)|(_ & [vw Hshare] & Hv' & _)].
  - rewrite Hq', Hv' in Hx. apply Hinv. set_solver.
  - apply shareVideo_inv in Hshare as (node & added & Hnode & Hq' & _ & Hadd).
    rewrite Hq', Hv' in Hx.
    assert (Hn : spreads_to this start nodeID) by (apply Hinv; set_solver).
    destruct Hx as [[Hx|Hx]%elem_of_app|[Hx|Hx%list_elem_of_singleton]%elem_of_app].
    + apply Hinv. set_solver.
    + eapply rtc_r; [done|]. exists node. split; [done|]. by apply Hadd.
    + apply Hinv. by right.
    + by subst x.
Qed.

(** X15.  Every node [startViralSharing] visits or still holds in its queue is
    linked to the start node by a chain of [followers] entries. *)
Theorem startViralSharing_follows_follower_links (fuel : nat) (this : CapGraph)
    (startingNodeID x : Z) :
  let st := (startViralSharing fuel this startingNodeID).2 in
  x ∈ sim_visited st ∨ x ∈ toVisit st → spreads_to this startingNodeID x.
Proof.
  simpl. unfold startViralSharing.
  destruct (getVertex this startingNodeID) as [startingNode| |] eqn:Hget; simpl;
    [|by intros [?%elem_of_nil|?%elem_of_nil]..].
  apply getVertex_Ok in Hget. intros Hx.
  eapply sharingLoop_follows; [|destruct Hx; [right|left]; done].
  simpl. intros y [[->|Hy]%elem_of_cons|Hy%elem_of_nil]; [done| |done].
  apply rtc_once. by exists startingNode.
Qed.

(** On a graph without trend setters [shareVideo] leaves every follower
    of the node in the queue. *)
Lemma shareVideo_fresh this nodeID queue viewed q vw :
  fresh this → shareVideo this nodeID queue viewed = Ok (q, vw) →
  queue ⊆ q ∧ followersOf this nodeID ⊆ q.
Proof.
  intros Hfresh. unfold shareVideo, followersOf.
  destruct (getVertex this nodeID) as [node| |] eqn:E; simpl; [|done..].
  apply getVertex_Ok in E. rewrite E.
  specialize (Hfresh nodeID). unfold flag in Hfresh. rewrite E in Hfresh.
  rewrite Hfresh. simpl.
  destruct (enqueueFollowers_spec (followers node) queue ({[nodeID]} ∪ viewed))
    as (added & -> & _ & Hmem & _).
  intros [= <- <-]. split; [set_solver|].
  intros f Hf. destruct (decide (f ∈ queue)); [set_solver|].
  apply elem_of_app. right. by apply Hmem.
Qed.

Lemma sharingLoop_closed this start fuel st :
  fresh this →
  (start ∈ toVisit st ∨ start ∈ sim_visited st) →
  (∀ u f, u ∈ sim_visited st → f ∈ followersOf this u →
     f ∈ toVisit st ∨ f ∈ sim_visited st) →
  let st' := (sharingLoop fuel this st).2 in
  (start ∈ toVisit st' ∨ start ∈ sim_visited st')
  ∧ ∀ u f, u ∈ sim_visited st' → f ∈ followersOf this u →
      f ∈ toVisit st' ∨ f ∈ sim_visited st'.
Proof.
  intros Hfresh. revert st. induction fuel as [|fuel IH]; intros st Hs Hinv; simpl;
    destruct (toVisit st) as [|nodeID queue] eqn:Hq; simpl; rewrite ?Hq;
    [done..|].
  destruct (sharingIteration this nodeID queue st) as [st'| |] eqn:Hit;
    simpl; rewrite ?Hq; [|done..].
  apply sharingIteration_inv in Hit
    as [(Hvis & Hq' & Hv' & _)|(_ & [vw Hshare] & Hv' & _)].
  - apply IH; rewrite Hq', Hv'.
    + destruct Hs as [[->|?]%elem_of_cons|?]; auto.
    + intros u f Hu Hf.
      destruct (Hinv u f Hu Hf) as [[->|?]%elem_of_cons|?]; auto.
  - apply shareVideo_fresh in Hshare as [Hsub Hfol]; [|done].
    apply IH; rewrite Hv'.
    + destruct Hs as [[->|?]%elem_of_cons|?]; [right|left|right]; set_solver.
    + intros u f [Hu|Hu%list_elem_of_singleton]%elem_of_app Hf; [|subst u].
      * destruct (Hinv u f Hu Hf) as [[->|?]%elem_of_cons|?];
          [right|left|right]; set_solver.
      * left. by apply Hfol.
Qed.

(** X16.  On a graph without trend setters whose [followers] lists mention keys
    only, a run of [startViralSharing] from a key returns, and the nodes it
    visited are exactly those linked to the start node by a chain of
    [followers] entries. *)
Theorem startViralSharing_fresh_reaches_all (fuel : nat) (this : CapGraph)
    (startingNodeID : Z) :
  fresh this → followers_closed this →
  startingNodeID ∈ getVertexIDs this →
  (sharingFuel this startingNodeID ≤ fuel)%nat →
  let run := startViralSharing fuel this startingNodeID in
  run.1 = Ok ()
  ∧ ∀ x, x ∈ sim_visited run.2 ↔ spreads_to this startingNodeID x.
Proof.
  intros Hfresh Hcl Hkey Hfuel. simpl. unfold sharingFuel in Hfuel.
  unfold startViralSharing.
  destruct (getVertex_present this startingNodeID Hkey) as (nd & Hget & Hnd).
  rewrite Hget. rewrite Hnd in Hfuel.
  set (st0 := mkSim _ _ _ _ _ _ _ _).
  assert (Hfol : followers nd ⊆ getVertexIDs this).
  { intros y Hy. by eapply Hcl. }
  destruct (sharingLoop_terminates this fuel st0) as [_ Hend]; [simpl; lia|].
  destruct Hend as [Hok Hempty]; [done|simpl; set_solver|set_solver|].
  split; [done|].
  pose proof (sharingLoop_follows this startingNodeID fuel st0) as Hsound.
  destruct (sharingLoop_closed this startingNodeID fuel st0 Hfresh) as [Hs Hclosed].
  { left. simpl. left. }
  { by intros u f ?%elem_of_nil. }
  rewrite Hempty in Hs, Hclosed. intros x. split.
  - intros Hx. apply Hsound; [|by right].
    simpl. intros y [[->|Hy]%elem_of_cons|Hy%elem_of_nil]; [done| |done].
    apply rtc_once. by exists nd.
  - revert x. unfold spreads_to. apply rtc_ind_r.
    + destruct Hs as [?%elem_of_nil|?]; done.
    + intros u v _ (ndu & Hu & Hv) IH.
      destruct (Hclosed u v IH) as [?%elem_of_nil|?]; [|done..].
      unfold followersOf. by rewrite Hu.
Qed.

Lemma startViralSharing_fresh_reaches_all_witness :
  let run := startViralSharing 7 graph_cycle3 1 in
  run.1 = Ok () ∧ ∀ x, x ∈ sim_visited run.2 ↔ spreads_to graph_cycle3 1 x.
Proof.
  apply (startViralSharing_fresh_reaches_all 7 graph_cycle3 1).
  - apply graph_cycle3_fresh.
  - apply reachable_quietly_refs_closed, graph_cycle3_quietly.
  - vm_compute. set_solver.
  - vm_compute. lia.
Defined.

(** *** Depths *)

Lemma enqueueFollowersWithDepth_depths fs queue viewed depth :
  ∃ added,
    (enqueueFollowersWithDepth fs queue viewed depth).1 = queue ++ added
    ∧ ∀ item, item ∈ added → item.1 ∈ fs ∧ item.2 = depth + 1.
Proof.
  revert queue viewed. induction fs as [|f fs IH]; intros queue viewed.
  - exists []. rewrite app_nil_r. split; [done|]. by intros item ?%elem_of_nil.
  - rewrite enqueueFollowersWithDepth_cons. case_match.
    + destruct (IH queue ({[f]} ∪ viewed)) as (added & -> & Hadd).
      exists added. split; [done|]. intros item [? ?]%Hadd. split; [by right|done].
    + destruct (IH (queue ++ [(f, depth + 1)]) ({[f]} ∪ viewed))
        as (added & -> & Hadd).
      exists ((f, depth + 1) :: added). split; [by rewrite <-app_assoc|].
      intros item [->|[? ?]%Hadd]%elem_of_cons; simpl; [split; [left|done]|].
      split; [by right|done].
Qed.

Lemma shareVideoWithDepth_depths this nodeID queue viewed depth q vw :
  shareVideoWithDepth this nodeID queue viewed depth = Ok (q, vw) →
  ∃ added,
    q = queue ++ added
    ∧ ∀ item, item ∈ added →
        shares_with this nodeID item.1 ∧ item.2 = depth + 1.
Proof.
  unfold shareVideoWithDepth. destruct (getVertex this nodeID) as [node| |] eqn:E;
    simpl; [|done..].
  apply getVertex_Ok in E. intros Hres.
  destruct (isTrendSetter node && _).
  - exists []. simplify_eq. rewrite app_nil_r. split; [done|].
    by intros item ?%elem_of_nil.
  - destruct (enqueueFollowersWithDepth_depths (followers node) queue
                ({[nodeID]} ∪ viewed) depth) as (added & Heq & Hadd).
    injection Hres as Hres. rewrite Hres in Heq. simpl in Heq.
    exists added. split; [done|]. intros item [? ?]%Hadd. split; [|done].
    by exists node.
Qed.

Lemma limitLoop_depths this start maxDepth fuel st :
  (∀ item, item ∈ lim_toVisit st →
     ∃ n, item.2 = Z.of_nat n ∧ nsteps (shares_with this) n start item.1) →
  (∀ x, x ∈ lim_visited st →
     ∃ n, Z.of_nat n ≤ maxDepth ∧ nsteps (shares_with this) n start x) →
  ∀ x, x ∈ lim_visited (limitLoop fuel this maxDepth st).2 →
    ∃ n, Z.of_nat n ≤ maxDepth ∧ nsteps (shares_with this) n start x.
Proof.
  revert st. induction fuel as [|fuel IH]; intros st Hq Hv; simpl;
    destruct (lim_toVisit st) as [|[nodeID depth] queue] eqn:E; simpl;
    [done..|].
  case_decide as Hdeep.
  { apply IH; simpl; [|done]. intros item Hitem. apply Hq. by right. }
  destruct (limitIteration this nodeID depth queue st) as [st'| |] eqn:Hit;
    [|done..].
  assert (Hnext :
    (∀ item, item ∈ lim_toVisit st' →
       ∃ n, item.2 = Z.of_nat n ∧ nsteps (shares_with this) n start item.1)
    ∧ ∀ x, x ∈ lim_visited st' →
        ∃ n, Z.of_nat n ≤ maxDepth ∧ nsteps (shares_with this) n start x).
  { destruct (Hq (nodeID, depth)) as (n & Hn & Hsteps); [left|]. simpl in *.
    apply limitIteration_inv in Hit
      as [(_ & Hq' & Hv')|(_ & [vw Hshare] & Hv')]; rewrite Hv'.
    - rewrite Hq'. split; [|done]. intros item Hitem. apply Hq. by right.
    - apply shareVideoWithDepth_depths in Hshare as (added & -> & Hadd). split.
      + intros item [Hitem|Hitem]%elem_of_app; [apply Hq; by right|].
        destruct (Hadd item Hitem) as [Hshare ->]. exists (S n).
        split; [lia|]. by eapply nsteps_r.
      + intros x [Hx|Hx%list_elem_of_singleton]%elem_of_app; [by apply Hv|].
        subst x. exists n. split; [lia|done]. }
  destruct Hnext as [Hq1 Hv1]. case_decide; [done|]. by apply IH.
Qed.

(** X17.  Every node [startViralSharingWithLimit] visits is linked to the start
    node by a chain of at most [maxDepth] [followers] entries; with a
    negative [maxDepth] nothing is visited. *)
Theorem startViralSharingWithLimit_depth_bound (fuel : nat) (this : CapGraph)
    (startingNodeID maxDepth x : Z) :
  let st := (startViralSharingWithLimit fuel this startingNodeID maxDepth).2 in
  x ∈ lim_visited st →
  ∃ n : nat, Z.of_nat n ≤ maxDepth
             ∧ nsteps (shares_with this) n startingNodeID x.
Proof.
  simpl. unfold startViralSharingWithLimit.
  destruct (getVertex this startingNodeID) as [startingNode| |] eqn:Hget; simpl;
    [|by intros ?%elem_of_nil..].
  apply getVertex_Ok in Hget. apply limitLoop_depths; simpl.
  - intros item [->|Hitem]%elem_of_cons.
    + exists O. split; [done|]. constructor.
    + apply list_elem_of_fmap in Hitem as (f & -> & Hf). exists 1%nat.
      split; [done|]. apply nsteps_once. by exists startingNode.
  - by intros y ?%elem_of_nil.
Qed.

Lemma startViralSharingWithLimit_depth_bound_witness :
  ∃ n : nat, Z.of_nat n ≤ 1 ∧ nsteps (shares_with graph_cycle3) n 1 3.
Proof.
  apply (startViralSharingWithLimit_depth_bound 7 graph_cycle3 1 1 3).
  vm_compute. set_solver.
Defined.

Lemma startViralSharing_follows_follower_links_witness :
  spreads_to graph_cycle3 1 2.
Proof.
  apply (startViralSharing_follows_follower_links 7 graph_cycle3 1 2).
  vm_compute. left. set_solver.
Defined.

(** ** Who is ranked first *)

Lemma raised_outDegree (g g' : CapGraph) k :
  Forall2 entry_raised g g' → outDegree g' k = outDegree g k.
Proof.
  intros Hr. pose proof (raised_node_at g g' k Hr) as H.
  unfold outDegree, following.
  destruct (node_at g k), (node_at g' k); try done.
  destruct H as (_ & _ & Hn & _). simpl in Hn. by rewrite Hn.
Qed.

Lemma ForallOrdPairs_app_elem {A} (R : A → A → Prop) l1 l2 a b :
  ForallOrdPairs R (l1 ++ l2) → a ∈ l1 → b ∈ l2 → R a b.
Proof.
  induction l1 as [|x l1 IH]; simpl; [by intros _ ?%elem_of_nil|].
  intros Hfop [->|Ha]%elem_of_cons Hb; inversion Hfop as [|? ? Hall Hrest]; subst.
  - rewrite List.Forall_forall in Hall. apply Hall.
    apply list_elem_of_In, elem_of_app. by right.
  - by apply IH.
Qed.

Section descending.
Context {A : Type} (key : A → Z) (cmp : A → A → Z).
Hypothesis cmp_key : ∀ a b, cmp a b ≤ 0 ↔ key b ≤ key a.

Lemma sort_insert_descending x xs :
  ForallOrdPairs (λ a b, key b ≤ key a) xs →
  ForallOrdPairs (λ a b, key b ≤ key a) (sort_insert cmp x xs).
Proof.
  induction xs as [|y xs IH]; simpl; intros Hfop.
  - constructor; [constructor|constructor].
  - inversion Hfop as [|? ? Hall Hrest]; subst. case_decide as Hxy.
    + apply cmp_key in Hxy. constructor; [|done].
      constructor; [done|]. rewrite List.Forall_forall in *.
      intros z Hz. specialize (Hall z Hz). simpl in Hall. lia.
    + constructor; [|by apply IH].
      rewrite List.Forall_forall in *. intros z Hz.
      apply list_elem_of_In in Hz. rewrite sort_insert_Permutation in Hz.
      apply elem_of_cons in Hz as [->|Hz].
      * rewrite cmp_key in Hxy. lia.
      * by apply Hall, list_elem_of_In.
Qed.

(** The sorted array is in descending order of the key. *)
Lemma array_sort_descending xs :
  ForallOrdPairs (λ a b, key b ≤ key a) (array_sort cmp xs).
Proof.
  induction xs as [|x xs IH]; simpl; [constructor|].
  by apply sort_insert_descending.
Qed.
End descending.

Lemma collect_nodes_refs this ids queue queue' :
  forEachM (λ nodeID nodeQueue,
              node ← getVertex this nodeID;
              Ok (nodeQueue ++ [(nodeID, node)])) ids queue = Ok queue' →
  (∀ e, e ∈ queue → node_at this e.1 = Some e.2) →
  ∀ e, e ∈ queue' → node_at this e.1 = Some e.2.
Proof.
  revert queue. induction ids as [|nodeID ids IH]; intros queue; simpl.
  - by intros [= <-].
  - destruct (getVertex this nodeID) as [node| |] eqn:Hget; simpl; [|done..].
    apply getVertex_Ok in Hget. intros Hloop Hq. eapply IH; [done|].
    intros e [He|He%list_elem_of_singleton]%elem_of_app; [by apply Hq|].
    by subst e.
Qed.

(** The queue of [buildNodeQueue]: references to nodes of [this], in
    descending order of the number of vertices they follow. *)
Lemma buildNodeQueue_order this scc queue :
  buildNodeQueue this scc = Ok queue →
  (∀ e, e ∈ queue → node_at this e.1 = Some e.2)
  ∧ ForallOrdPairs
      (λ a b : Z * CapNode, getNumNeighbors b.2 ≤ getNumNeighbors a.2) queue.
Proof.
  unfold buildNodeQueue.
  destruct (forEachM _ _ _) as [nodeQueue| |] eqn:Hloop; simpl; [|done..].
  intros [= <-]. split.
  - intros e He. rewrite array_sort_Permutation in He.
    eapply collect_nodes_refs; [done| |done]. by intros ? ?%elem_of_nil.
  - apply (array_sort_descending (λ a : Z * CapNode, getNumNeighbors a.2)).
    intros a b. unfold compare. lia.
Qed.

Lemma queue_front_order this (queue : list (Z * CapNode)) n u v :
  (∀ e, e ∈ queue → node_at this e.1 = Some e.2) →
  ForallOrdPairs
    (λ a b : Z * CapNode, getNumNeighbors b.2 ≤ getNumNeighbors a.2) queue →
  u ∈ take n queue.*1 → v ∈ queue.*1 → v ∉ take n queue.*1 →
  outDegree this v ≤ outDegree this u.
Proof.
  intros Hrefs Hfop Hu Hv Hnv. rewrite <-fmap_take in Hu, Hnv.
  rewrite <-(take_drop n queue), fmap_app in Hv.
  apply elem_of_app in Hv as [Hv|Hv]; [done|].
  apply list_elem_of_fmap in Hu as (a & -> & Ha).
  apply list_elem_of_fmap in Hv as (b & -> & Hb).
  rewrite <-(take_drop n queue) in Hfop.
  pose proof (ForallOrdPairs_app_elem _ _ _ a b Hfop Ha Hb) as Hab. simpl in Hab.
  unfold outDegree, following.
  rewrite (Hrefs a), (Hrefs b); [done| |].
  - rewrite <-(take_drop n queue). apply elem_of_app. by right.
  - rewrite <-(take_drop n queue). apply elem_of_app. by left.
Qed.

Lemma rankComponents_order SCCList (this : CapGraph) :
  NoDup (members SCCList) →
  (∀ x, x ∈ members SCCList → x ∈ getVertexIDs this ∧ flag this x = false) →
  ∀ scc u v, scc ∈ SCCList → u ∈ getVertexIDs scc → v ∈ getVertexIDs scc →
    flag (rankComponents SCCList this).2 u = true →
    flag (rankComponents SCCList this).2 v = false →
    outDegree this v ≤ outDegree this u.
Proof.
  revert this. induction SCCList as [|scc SCCList IH]; intros this Hnd Hmem.
  { by intros scc u v ?%elem_of_nil. }
  rewrite members_cons in Hnd, Hmem.
  apply NoDup_app in Hnd as (Hnd1 & Hdisj & Hnd2).
  assert (Hhere : ∀ x, x ∈ getVertexIDs scc →
            x ∈ getVertexIDs this ∧ flag this x = false).
  { intros x Hx. apply Hmem, elem_of_app. by left. }
  assert (Hrest : ∀ x, x ∈ members SCCList →
            x ∈ getVertexIDs this ∧ flag this x = false).
  { intros x Hx. apply Hmem, elem_of_app. by right. }
  clear Hmem. simpl. set (m := Z.of_nat (length (getVertexIDs scc))).
  destruct (decide (m > 2)) as [Hbig|Hsmall].
  - destruct (buildNodeQueue_spec this scc) as (queue & Hqueue & Hperm).
    { intros x Hx. by apply Hhere. }
    rewrite Hqueue. apply buildNodeQueue_order in Hqueue as [Hrefs Hfop].
    set (n := Z.to_nat (calculatePercent m (1 # 10))).
    set (this1 := markTrendSetters n queue this).
    assert (Hraised : Forall2 entry_raised this this1)
      by apply raised_markTrendSetters.
    assert (Hkeys1 : getVertexIDs this1 = getVertexIDs this)
      by by apply raised_getVertexIDs.
    assert (Hflag1 : ∀ k, flag this1 k
              = flag this k || bool_decide (k ∈ take n queue.*1)).
    { intros k. apply flag_markTrendSetters. rewrite Hperm.
      intros x Hx. by apply Hhere. }
    assert (Htake : ∀ k, k ∈ take n queue.*1 → k ∈ getVertexIDs scc).
    { intros k Hk. rewrite <-Hperm. by eapply subseteq_take. }
    assert (Hrest1 : ∀ x, x ∈ members SCCList →
              x ∈ getVertexIDs this1 ∧ flag this1 x = false).
    { intros x Hx. rewrite Hkeys1, Hflag1.
      destruct (Hrest x Hx) as [Hkey ->]. split; [done|].
      rewrite bool_decide_eq_false_2; [done|]. intros Hk%Htake.
      by eapply Hdisj. }
    destruct (rankComponents_spec SCCList this1 Hnd2 Hrest1)
      as (this' & Hrun & Hframe & _).
    intros scc' u v [->|Hin]%elem_of_cons Hu Hv Hfu Hfv.
    + rewrite Hrun in Hfu, Hfv. simpl in Hfu, Hfv.
      rewrite Hframe, Hflag1 in Hfu by (intros ?; by eapply (Hdisj u)).
      rewrite Hframe, Hflag1 in Hfv by (intros ?; by eapply (Hdisj v)).
      destruct (Hhere u Hu) as [_ Hu0]. destruct (Hhere v Hv) as [_ Hv0].
      rewrite Hu0 in Hfu. rewrite Hv0 in Hfv. simpl in Hfu, Hfv.
      apply bool_decide_eq_true in Hfu. apply bool_decide_eq_false in Hfv.
      eapply queue_front_order; [done..| |done]. by rewrite Hperm.
    + rewrite <-(raised_outDegree this this1 u), <-(raised_outDegree this this1 v)
        by done.
      by eapply (IH this1 Hnd2 Hrest1 scc').
  - destruct (rankComponents_spec SCCList this Hnd2 Hrest)
      as (this' & Hrun & Hframe & _).
    intros scc' u v [->|Hin]%elem_of_cons Hu Hv Hfu Hfv.
    + rewrite Hrun in Hfu. simpl in Hfu.
      rewrite Hframe in Hfu by (intros ?; by eapply (Hdisj u)).
      destruct (Hhere u Hu) as [_ Hu0]. congruence.
    + by eapply (IH this Hnd2 Hrest scc').
Qed.

(** X20.  On a graph with distinct keys, [following] lists within the keys and
    no flag set, ranking flags the members of a component that follow the
    most vertices: a member left without flag follows no more vertices
    than a flagged member of the same component. *)
Theorem identifyTrendSetters_flags_most_following (g : CapGraph) sccs scc
    (u v : Z) :
  map_ok g → neighbors_closed g → fresh g →
  getSCCs g = Ok sccs → scc ∈ sccs →
  u ∈ getVertexIDs scc → v ∈ getVertexIDs scc →
  flag (identifyTrendSetters g).2 u = true →
  flag (identifyTrendSetters g).2 v = false →
  outDegree g v ≤ outDegree g u.
Proof.
  intros Hok Hcl Hfresh Hget Hscc Hu Hv.
  destruct (getSCCs_spec g Hok Hcl) as (sccs' & Hget' & Hnd & Hmem).
  assert (sccs' = sccs) as -> by congruence.
  unfold identifyTrendSetters, getSCCList. rewrite Hget.
  apply (rankComponents_order sccs g Hnd) with (scc := scc); [|done..].
  intros x Hx. split; [by apply Hmem | apply Hfresh].
Qed.

Lemma identifyTrendSetters_flags_most_following_witness :
  outDegree graph_cycle3 1 ≤ outDegree graph_cycle3 2.
Proof.
  eapply (identifyTrendSetters_flags_most_following graph_cycle3 _ _ 2 1).
  - apply reachable_map_ok, quietly_reachable, graph_cycle3_quietly.
  - apply reachable_quietly_refs_closed, graph_cycle3_quietly.
  - apply graph_cycle3_fresh.
  - vm_compute. reflexivity.
  - left.
  - vm_compute. set_solver.
  - vm_compute. set_solver.
  - vm_compute. reflexivity.
  - vm_compute. reflexivity.
Defined.

(** ** Loading a graph *)

Lemma loadGraph_vertices pairs (vertices : list Z) :
  NoDup vertices →
  ∀ v, v ∈ foldl (λ vertices (p : Z * Z), set_add p.2 (set_add p.1 vertices))
             vertices pairs
       ↔ v ∈ vertices ∨ v ∈ pairs.*1 ∨ v ∈ pairs.*2.
Proof.
  revert vertices. induction pairs as [|[from to] pairs IH];
    intros vertices Hnd v; simpl.
  - rewrite !elem_of_nil. tauto.
  - destruct (set_add_spec from vertices Hnd) as [Hnd1 Hmem1].
    destruct (set_add_spec to _ Hnd1) as [Hnd2 Hmem2].
    rewrite IH, Hmem2, Hmem1 by done. csimpl. rewrite !elem_of_cons. tauto.
Qed.

(** The second pass over lines whose vertices are all keys: no call
    throws, and every line appends one entry to a [following] and one to a
    [followers] list. *)
Lemma loadGraph_edges pairs (g : CapGraph) (errors : list Error) :
  (∀ p, p ∈ pairs → p.1 ∈ getVertexIDs g ∧ p.2 ∈ getVertexIDs g) →
  let r := foldl
             (λ '(g, errors) (p : Z * Z),
                match addEdge p.1 p.2 g with
                | (Throw e, g') => (g', errors ++ [e])
                | (_, g') => (g', errors)
                end)
             (g, errors) pairs in
  r.2 = errors
  ∧ getVertexIDs r.1 = getVertexIDs g
  ∧ ∀ k,
      following r.1 k = following g k ++ (filter (λ p, p.1 = k) pairs).*2
      ∧ followersOf r.1 k = followersOf g k ++ (filter (λ p, p.2 = k) pairs).*1
      ∧ flag r.1 k = flag g k
      ∧ (k ∉ pairs.*1 → k ∉ pairs.*2 → node_at r.1 k = node_at g k).
Proof.
  revert g. induction pairs as [|[from to] pairs IH]; intros g Hkeys; simpl.
  - split_and!; [done..|]. intros k. by rewrite !app_nil_r.
  - destruct (Hkeys (from, to)) as [Hfrom Hto]; [left|]. simpl in Hfrom, Hto.
    rewrite addEdge_known by done.
    set (g1 := map_alter _ _ _).
    assert (Hkeys1 : getVertexIDs g1 = getVertexIDs g).
    { unfold g1. by rewrite !getVertexIDs_alter. }
    destruct (IH g1) as (Herr & Hk & Hlists).
    { intros p Hp. rewrite Hkeys1. apply Hkeys. by right. }
    split_and!; [done|by rewrite Hk|]. intros k.
    destruct (Hlists k) as (Hfol & Hfrs & Hflag & Hother).
    destruct (addEdge_known_lists from to g k Hfrom Hto)
      as (Hfol1 & Hfrs1 & Hflag1 & Hother1). fold g1 in Hfol1, Hfrs1, Hflag1, Hother1.
    rewrite Hfol, Hfrs, Hflag, Hfol1, Hfrs1, Hflag1, !filter_cons. simpl.
    split_and!; [| |done|].
    + rewrite <-app_assoc. by destruct (decide (from = k)).
    + rewrite <-app_assoc. by destruct (decide (to = k)).
    + rewrite !not_elem_of_cons. intros [? ?] [? ?].
      rewrite Hother by done. apply Hother1; congruence.
Qed.

(** X22.  Loading never has an [addEdge] call throw, since the first pass adds
    every vertex a line mentions.  The graph ends up with the keys it had
    and the vertices mentioned; a mentioned vertex follows exactly the
    targets of the lines it starts, is followed by the sources of the lines
    it ends, both in file order and with repetitions, and carries no flag,
    whatever it held before loading; the other vertices are untouched. *)
Theorem loadGraph_builds_file_edges (graph : CapGraph) (pairs : list (Z * Z)) :
  map_ok graph →
  let g := (loadGraph graph pairs).1 in
  (loadGraph graph pairs).2 = []
  ∧ map_ok g
  ∧ (∀ k, k ∈ getVertexIDs g
          ↔ k ∈ getVertexIDs graph ∨ k ∈ pairs.*1 ∨ k ∈ pairs.*2)
  ∧ (∀ k, k ∈ pairs.*1 ∨ k ∈ pairs.*2 →
        following g k = (filter (λ p, p.1 = k) pairs).*2
        ∧ followersOf g k = (filter (λ p, p.2 = k) pairs).*1
        ∧ flag g k = false)
  ∧ (∀ k, k ∉ pairs.*1 → k ∉ pairs.*2 → node_at g k = node_at graph k).
Proof.
  intros Hok. unfold loadGraph. cbv zeta.
  set (vertices := foldl _ [] pairs).
  assert (Hvs : ∀ v, v ∈ vertices ↔ v ∈ pairs.*1 ∨ v ∈ pairs.*2).
  { intros v. unfold vertices. rewrite loadGraph_vertices by constructor.
    rewrite elem_of_nil. tauto. }
  destruct (foldl_addVertex_spec vertices graph Hok) as (Hok1 & Hk1 & Hin1 & Hout1).
  set (graph1 := foldl _ graph vertices) in *.
  destruct (loadGraph_edges pairs graph1 []) as (Herr & Hk & Hlists).
  { intros p Hp. rewrite !Hk1, !Hvs. split; right.
    - left. apply list_elem_of_fmap. by exists p.
    - right. apply list_elem_of_fmap. by exists p. }
  split_and!.
  - done.
  - unfold map_ok. by rewrite Hk.
  - intros k. by rewrite Hk, Hk1, Hvs.
  - intros k Hmentioned. destruct (Hlists k) as (-> & -> & -> & _).
    apply Hvs, Hin1 in Hmentioned. unfold following, followersOf, flag.
    by rewrite Hmentioned.
  - intros k Hk1' Hk2'. destruct (Hlists k) as (_ & _ & _ & Hsame).
    rewrite Hsame by done. apply Hout1. rewrite Hvs. tauto.
Qed.

Lemma loadGraph_builds_file_edges_witness :
  let pairs := [(1, 2); (1, 2); (2, 2); (4, 1)] in
  let g := (loadGraph graph_cycle3 pairs).1 in
  (loadGraph graph_cycle3 pairs).2 = []
  ∧ map_ok g
  ∧ (∀ k, k ∈ getVertexIDs g
          ↔ k ∈ getVertexIDs graph_cycle3 ∨ k ∈ pairs.*1 ∨ k ∈ pairs.*2)
  ∧ (∀ k, k ∈ pairs.*1 ∨ k ∈ pairs.*2 →
        following g k = (filter (λ p, p.1 = k) pairs).*2
        ∧ followersOf g k = (filter (λ p, p.2 = k) pairs).*1
        ∧ flag g k = false)
  ∧ (∀ k, k ∉ pairs.*1 → k ∉ pairs.*2 → node_at g k = node_at graph_cycle3 k).
Proof.
  apply (loadGraph_builds_file_edges graph_cycle3 [(1, 2); (1, 2); (2, 2); (4, 1)]).
  apply reachable_map_ok, quietly_reachable, graph_cycle3_quietly.
Defined.

(** ** The two propagation loops side by side *)

Lemma existsb_node (queue : list (Z * Z)) f :
  existsb (λ item : Z * Z, bool_decide (item.1 = f)) queue = includes queue.*1 f.
Proof.
  unfold includes. induction queue as [|[x d] queue IH]; csimpl.
  - done.
  - rewrite IH. apply eq_true_iff_eq.
    rewrite orb_true_iff, !bool_decide_eq_true, elem_of_cons. naive_solver.
Qed.

Lemma enqueueFollowersWithDepth_agrees fs queue viewed depth :
  ((enqueueFollowersWithDepth fs queue viewed depth).1.*1,
   (enqueueFollowersWithDepth fs queue viewed depth).2)
  = enqueueFollowers fs queue.*1 viewed.
Proof.
  revert queue viewed. induction fs as [|f fs IH]; intros queue viewed; [done|].
  rewrite enqueueFollowersWithDepth_cons, enqueueFollowers_cons, existsb_node.
  destruct (includes queue.*1 f); [apply IH|].
  rewrite IH, fmap_app. done.
Qed.

Lemma shareVideoWithDepth_nodes (this : CapGraph) (nodeID : Z)
    (queue : list (Z * Z)) (viewed : gset Z) (depth : Z) :
  shareVideo this nodeID queue.*1 viewed
  = match shareVideoWithDepth this nodeID queue viewed depth with
    | Ok (q, vw) => Ok (q.*1, vw)
    | Throw e => Throw e
    | OutOfFuel => OutOfFuel
    end.
Proof.
  unfold shareVideo, shareVideoWithDepth.
  destruct (getVertex this nodeID) as [node| |]; simpl; [|done..].
  destruct (isTrendSetter node && _); [done|].
  rewrite <-enqueueFollowersWithDepth_agrees with (depth := depth).
  by destruct (enqueueFollowersWithDepth _ _ _ _).
Qed.

(** X18.  [shareVideoWithDepth] is [shareVideo] with depths attached: whatever
    the depth passed, it throws the same error or enqueues the same nodes
    in the same order and marks the same nodes viewed. *)
Theorem shareVideoWithDepth_agrees (this : CapGraph) (nodeID : Z)
    (queue : list (Z * Z)) (viewed : gset Z) (depth : Z) :
  shareVideo this nodeID queue.*1 viewed
  = match shareVideoWithDepth this nodeID queue viewed depth with
    | Ok (q, vw) => Ok (q.*1, vw)
    | Throw e => Throw e
    | OutOfFuel => OutOfFuel
    end.
Proof. apply shareVideoWithDepth_nodes. Qed.

(** One iteration of the depth-bounded loop that passes the depth test
    does what the iteration of the unbounded loop does. *)
Lemma limitIteration_agrees this nodeID depth queue lim sim :
  lim_visited lim = sim_visited sim →
  lim_alreadyViewed lim = alreadyViewed sim →
  lim_generation lim = generation sim →
  lim_previousGraphLength lim = previousGraphLength sim →
  lim_subGraph lim = subGraph sim →
  lim_emitted lim = (λ e, (e.1, Z.of_nat (length e.2))) <$> emitted sim →
  match limitIteration this nodeID depth queue lim,
        sharingIteration this nodeID queue.*1 sim with
  | Ok lim', Ok sim' => limit_mirrors lim' sim'
  | Throw e, Throw e' => e = e'
  | OutOfFuel, OutOfFuel => True
  | _, _ => False
  end.
Proof.
  intros Hv Hvw Hg Hp Hs He. unfold limitIteration, sharingIteration.
  rewrite Hv, Hvw, Hg, Hp, Hs, He.
  destruct (includes (sim_visited sim) nodeID); simpl.
  - destruct (addVertices _ _ _); simpl; [|done..].
    destruct (shouldContinueGenerating _ _ _ _); unfold limit_mirrors; simpl;
      rewrite ?fmap_app; done.
  - rewrite (shareVideoWithDepth_nodes this nodeID queue (alreadyViewed sim) depth).
    destruct (shareVideoWithDepth _ _ _ _ _) as [[q vw]| |]; simpl; [|done..].
    destruct (addVertices _ _ _); simpl; [|done..].
    destruct (shouldContinueGenerating _ _ _ _); unfold limit_mirrors; simpl;
      rewrite ?fmap_app; done.
Qed.

Lemma NoDup_within_length (l k : list Z) :
  NoDup l → l ⊆ k → (length l ≤ length k)%nat.
Proof. intros Hnd Hsub. by apply submseteq_length, NoDup_submseteq. Qed.

Lemma limitLoop_agrees this maxDepth fuel lim sim :
  Z.of_nat (length this) < maxDepth → Z.of_nat (length this) ≤ 100000 →
  limit_mirrors lim sim →
  NoDup (lim_visited lim) → lim_visited lim ⊆ getVertexIDs this →
  (∀ item, item ∈ lim_toVisit lim →
     item.2 ≤ Z.of_nat (length (lim_visited lim)) + 1) →
  (limitLoop fuel this maxDepth lim).1 = limit_exit (sharingLoop fuel this sim).1
  ∧ limit_mirrors (limitLoop fuel this maxDepth lim).2 (sharingLoop fuel this sim).2.
Proof.
  intros Hdeep Hsmall. revert lim sim.
  induction fuel as [|fuel IH]; intros lim sim Hm Hnd Hsub Hdepths;
    pose proof Hm as (Hq & Hv & Hvw & Hg & Hp & Hs & He); simpl;
    destruct (lim_toVisit lim) as [|[nodeID depth] queue] eqn:Hlq;
    csimpl in Hq; rewrite <-Hq; simpl; [done..|].
  pose proof (NoDup_within_length _ _ Hnd Hsub) as Hlen.
  unfold getVertexIDs, map_keys in Hlen. rewrite length_fmap in Hlen.
  specialize (Hdepths (nodeID, depth)) as Hd. simpl in Hd.
  rewrite decide_False by (specialize (Hd ltac:(left)); lia).
  pose proof (limitIteration_agrees this nodeID depth queue lim sim
                Hv Hvw Hg Hp Hs He) as Hit.
  destruct (limitIteration this nodeID depth queue lim) as [lim'| |] eqn:Hlim,
    (sharingIteration this nodeID queue.*1 sim) as [sim'| |]; try done;
    [|by subst].
  assert (Hnext : NoDup (lim_visited lim')
            ∧ lim_visited lim' ⊆ getVertexIDs this
            ∧ ∀ item, item ∈ lim_toVisit lim' →
                item.2 ≤ Z.of_nat (length (lim_visited lim')) + 1).
  { apply limitIteration_inv in Hlim
      as [(_ & -> & ->)|(Hfresh & [vw Hshare] & ->)].
    - split_and!; [done..|]. intros item Hitem. apply Hdepths. by right.
    - pose proof Hshare as (node & _ & Hnode & _)%shareVideoWithDepth_inv.
      apply shareVideoWithDepth_depths in Hshare as (added & -> & Hadd).
      split_and!.
      + apply NoDup_app. split_and!; [done| |apply NoDup_singleton].
        intros x Hx Hx'%list_elem_of_singleton. by subst.
      + intros x [Hx|Hx%list_elem_of_singleton]%elem_of_app; [by apply Hsub|].
        subst x. by eapply map_get_Some_key.
      + rewrite length_app. simpl.
        intros item [Hitem|Hitem]%elem_of_app.
        * specialize (Hdepths item ltac:(by right)). lia.
        * destruct (Hadd item Hitem) as [_ ->]. specialize (Hd ltac:(left)). lia. }
  destruct Hnext as (Hnd' & Hsub' & Hdepths').
  pose proof (NoDup_within_length _ _ Hnd' Hsub') as Hlen'.
  unfold getVertexIDs, map_keys in Hlen'. rewrite length_fmap in Hlen'.
  rewrite decide_False by lia. by apply IH.
Qed.

(** X19.  With a depth bound above the number of vertices, on a graph of at most
    100000 vertices, the depth-bounded run is the unbounded run: it ends
    the same way, with the same queue, visited and viewed nodes, and it
    writes a "Generation" line for every generation the unbounded run
    reports, with its size. *)
Theorem startViralSharingWithLimit_deep_agrees (fuel : nat) (this : CapGraph)
    (startingNodeID maxDepth : Z) :
  Z.of_nat (length this) < maxDepth → Z.of_nat (length this) ≤ 100000 →
  let run := startViralSharing fuel this startingNodeID in
  let runLimit := startViralSharingWithLimit fuel this startingNodeID maxDepth in
  runLimit.1 = limit_exit run.1 ∧ limit_mirrors runLimit.2 run.2.
Proof.
  intros Hdeep Hsmall. simpl. unfold startViralSharing, startViralSharingWithLimit.
  destruct (getVertex this startingNodeID) as [startingNode| |]; [|done..].
  apply limitLoop_agrees; simpl; [done..| |constructor|set_solver|].
  - unfold limit_mirrors. simpl. split_and!; try done.
    f_equal. rewrite <-list_fmap_compose. by rewrite list_fmap_id.
  - intros item [->|Hitem]%elem_of_cons; simpl; [lia|].
    apply list_elem_of_fmap in Hitem as (f & -> & _). simpl. lia.
Qed.

Lemma startViralSharingWithLimit_deep_agrees_witness :
  let run := startViralSharing 7 graph_cycle3 1 in
  let runLimit := startViralSharingWithLimit 7 graph_cycle3 1 4 in
  runLimit.1 = limit_exit run.1 ∧ limit_mirrors runLimit.2 run.2.
Proof.
  apply (startViralSharingWithLimit_deep_agrees 7 graph_cycle3 1 4).
  - vm_compute. reflexivity.
  - vm_compute. discriminate.
Defined.

(** ** Graphs built without a thrown error *)

Lemma rankComponents_returns SCCList (this : CapGraph) :
  (∀ x, x ∈ members SCCList → x ∈ getVertexIDs this) →
  (rankComponents SCCList this).1 = Ok ().
Proof.
  revert this. induction SCCList as [|scc SCCList IH]; intros this Hmem; [done|].
  rewrite members_cons in Hmem. simpl. case_decide.
  - destruct (buildNodeQueue_spec this scc) as (queue & -> & _).
    { intros x Hx. apply Hmem, elem_of_app. by left. }
    apply IH. intros x Hx.
    rewrite (raised_getVertexIDs this) by apply raised_markTrendSetters.
    apply Hmem, elem_of_app. by right.
  - apply IH. intros x Hx. apply Hmem, elem_of_app. by right.
Qed.

(** X23.  On a graph built from [new CapGraph()] by calls none of which
    threw (the empty graph included), no analysis throws: [getSCCs] and
    [identifyTrendSetters] return, and for every key [getEgonet] returns
    and both propagation runs from it, whatever the depth bound, end
    normally. *)
Theorem quiet_graph_analyses_return (g : CapGraph) :
  reachable_quietly g →
  (∃ sccs, getSCCs g = Ok sccs)
  ∧ (identifyTrendSetters g).1 = Ok ()
  ∧ ∀ k maxDepth, k ∈ getVertexIDs g →
      (∃ egonet, getEgonet g k = Ok egonet)
      ∧ (startViralSharing (sharingFuel g k) g k).1 = Ok ()
      ∧ ∃ exit,
          (startViralSharingWithLimit (sharingFuel g k) g k maxDepth).1 = Ok exit.
Proof.
  intros Hq.
  pose proof (reachable_map_ok g (quietly_reachable g Hq)) as Hok.
  destruct (reachable_quietly_refs_closed g Hq) as [Hncl Hfcl].
  destruct (getSCCs_spec g Hok Hncl) as (sccs & Hget & _ & Hmem).
  split_and!.
  - by exists sccs.
  - unfold identifyTrendSetters, getSCCList. rewrite Hget.
    apply rankComponents_returns. intros x Hx. by apply Hmem.
  - intros k maxDepth Hk.
    destruct (getVertex_present g k Hk) as (nd & Hgetk & Hnd).
    assert (Hfol : followers nd ⊆ getVertexIDs g).
    { intros x Hx. by eapply Hfcl. }
    split_and!.
    + destruct (getEgonet_closed g k Hk) as (egonet & Hego & _);
        [|by exists egonet].
      intros n Hn. unfold following in Hn. rewrite Hnd in Hn. by eapply Hncl.
    + unfold startViralSharing, sharingFuel. rewrite Hgetk, Hnd.
      set (st0 := mkSim _ _ _ _ _ _ _ _).
      destruct (sharingLoop_terminates g
                  (S (length (followers nd)) + pending g []) st0) as [_ Hend];
        [simpl; lia|].
      apply Hend; [done|simpl; set_solver|set_solver].
    + unfold startViralSharingWithLimit, sharingFuel. rewrite Hgetk, Hnd.
      set (lt0 := mkLim _ _ _ _ _ _ _).
      destruct (limitLoop_terminates g maxDepth
                  (S (length (followers nd)) + pending g []) lt0) as [_ Hend].
      { simpl. rewrite length_fmap. lia. }
      destruct Hend as [[-> _]|[-> _]]; [done| |set_solver|eauto..].
      simpl. csimpl. rewrite <-list_fmap_compose.
      intros x [->|Hx]%elem_of_cons; [done|].
      apply list_elem_of_fmap in Hx as (y & -> & Hy). simpl. by apply Hfol.
Qed.

Lemma quiet_graph_analyses_return_witness :
  (∃ sccs, getSCCs graph_cycle3 = Ok sccs)
  ∧ (identifyTrendSetters graph_cycle3).1 = Ok ()
  ∧ ∀ k maxDepth, k ∈ getVertexIDs graph_cycle3 →
      (∃ egonet, getEgonet graph_cycle3 k = Ok egonet)
      ∧ (startViralSharing (sharingFuel graph_cycle3 k) graph_cycle3 k).1 = Ok ()
      ∧ ∃ exit,
          (startViralSharingWithLimit (sharingFuel graph_cycle3 k)
             graph_cycle3 k maxDepth).1 = Ok exit.
Proof.
  apply (quiet_graph_analyses_return graph_cycle3).
  apply graph_cycle3_quietly.
Defined.

(** ** Ranking twice *)

Lemma forEachM_ext {A S} (f g : A → S → outcome S) xs s :
  (∀ x s', f x s' = g x s') → forEachM f xs s = forEachM g xs s.
Proof.
  intros Hext. revert s. induction xs as [|x xs IH]; intros s; simpl; [done|].
  rewrite Hext. destruct (g x s); simpl; [apply IH | done..].
Qed.

Lemma foldl_ext_all {A B} (f g : A → B → A) xs a :
  (∀ a' x, f a' x = g a' x) → foldl f a xs = foldl g a xs.
Proof.
  intros Hext. revert a. induction xs as [|x xs IH]; intros a; simpl; [done|].
  by rewrite Hext, IH.
Qed.

(** Raising flags does not change what a lookup tells about edges. *)
Lemma raised_getVertex (g g' : CapGraph) v :
  Forall2 entry_raised g g' →
  (∃ nd nd', getVertex g v = Ok nd ∧ getVertex g' v = Ok nd'
             ∧ neighbors nd = neighbors nd')
  ∨ (getVertex g v = Throw (VertexNotFound v)
     ∧ getVertex g' v = Throw (VertexNotFound v)).
Proof.
  intros Hr. pose proof (raised_node_at g g' v Hr) as H.
  unfold getVertex. fold (node_at g v) (node_at g' v).
  destruct (node_at g v) as [nd|], (node_at g' v) as [nd'|]; try done.
  - left. exists nd, nd'. by destruct H as (_ & _ & ? & _).
  - by right.
Qed.

Lemma raised_dfsVisit (g g' : CapGraph) fuel v s :
  Forall2 entry_raised g g' → dfsVisit fuel g' v s = dfsVisit fuel g v s.
Proof.
  intros Hr. revert v s. induction fuel as [|fuel IH]; intros v s; simpl; [done|].
  destruct (raised_getVertex g g' v Hr) as [(nd & nd' & -> & -> & Hn)|[-> ->]];
    simpl; [|done].
  rewrite Hn.
  rewrite (forEachM_ext _ (λ n s', if bool_decide (n ∈ visited s') then Ok s'
                                   else dfsVisit fuel g n s')); [done|].
  intros x s'. by rewrite IH.
Qed.

Lemma raised_transpose (g g' : CapGraph) :
  Forall2 entry_raised g g' → transpose g' = transpose g.
Proof.
  intros Hr. unfold transpose. rewrite (raised_getVertexIDs g g' Hr).
  apply foldl_ext_all. intros t v.
  by destruct (raised_getVertex g g' v Hr) as [(nd & nd' & -> & -> & ->)|[-> ->]].
Qed.

Lemma raised_buildComponent (this this' : CapGraph) v ids :
  Forall2 entry_raised this this' →
  buildComponent this' v ids = buildComponent this v ids.
Proof.
  intros Hr. unfold buildComponent. apply forEachM_ext. intros nodeID scc.
  destruct (raised_getVertex this this' nodeID Hr)
    as [(nd & nd' & -> & -> & Hn)|[-> ->]]; simpl; [|done].
  by rewrite Hn.
Qed.

Lemma raised_dfsGraphList_loop (this this' : CapGraph) iters fuel graph
    vertices s sccList :
  Forall2 entry_raised this this' →
  dfsGraphList_loop iters fuel this' graph vertices s sccList
  = dfsGraphList_loop iters fuel this graph vertices s sccList.
Proof.
  intros Hr. revert vertices s sccList.
  induction iters as [|iters IH]; intros vertices s sccList; simpl; [done|].
  destruct (pop vertices) as [[v vertices1]|]; [|done].
  match goal with |- context [mbind _ ?m] =>
    destruct m as [[s1 vertices2]| |]; simpl; [|done..] end.
  rewrite (raised_buildComponent this this') by done.
  destruct (buildComponent this v (sccNodeIDs s1)); simpl; [apply IH | done..].
Qed.

(** [getSCCs] does not look at flags. *)
Lemma raised_getSCCs (g g' : CapGraph) :
  Forall2 entry_raised g g' → getSCCs g' = getSCCs g.
Proof.
  intros Hr. unfold getSCCs, dfs.
  rewrite (raised_getVertexIDs g g' Hr), (raised_transpose g g' Hr).
  rewrite <-(Forall2_length _ _ _ Hr).
  rewrite (forEachM_ext _ (λ v s, if bool_decide (v ∈ visited s) then Ok s
                                  else dfsVisit (S (length g)) g v s)).
  2:{ intros x s'. by rewrite (raised_dfsVisit g g'). }
  destruct (forEachM _ _ _); simpl; [|done..].
  unfold dfsGraphList. by apply raised_dfsGraphList_loop.
Qed.

(** *** The queue does not depend on flags *)

Lemma sort_insert_related {A} (R : A → A → Prop) (cmp : A → A → Z) x y xs ys :
  (∀ a a' b b', R a a' → R b b' → cmp a b = cmp a' b') →
  R x y → Forall2 R xs ys →
  Forall2 R (sort_insert cmp x xs) (sort_insert cmp y ys).
Proof.
  intros Hcmp Hxy Hall. induction Hall as [|a b xs ys Hab Hall IH]; simpl.
  - by constructor.
  - rewrite (Hcmp x y a b) by done. case_decide; by repeat constructor.
Qed.

Lemma array_sort_related {A} (R : A → A → Prop) (cmp : A → A → Z) xs ys :
  (∀ a a' b b', R a a' → R b b' → cmp a b = cmp a' b') →
  Forall2 R xs ys → Forall2 R (array_sort cmp xs) (array_sort cmp ys).
Proof.
  intros Hcmp. induction 1; simpl; [constructor|].
  by apply sort_insert_related.
Qed.

Lemma collect_nodes_raised (this this' : CapGraph) ids (queue queue' : list (Z * CapNode)) :
  Forall2 entry_raised this this' →
  Forall2 (λ a b, a.1 = b.1 ∧ neighbors a.2 = neighbors b.2) queue queue' →
  match forEachM (λ nodeID nodeQueue,
                    node ← getVertex this nodeID;
                    Ok (nodeQueue ++ [(nodeID, node)])) ids queue,
        forEachM (λ nodeID nodeQueue,
                    node ← getVertex this' nodeID;
                    Ok (nodeQueue ++ [(nodeID, node)])) ids queue' with
  | Ok q, Ok q' => Forall2 (λ a b, a.1 = b.1 ∧ neighbors a.2 = neighbors b.2) q q'
  | Throw e, Throw e' => e = e'
  | _, _ => False
  end.
Proof.
  intros Hr. revert queue queue'.
  induction ids as [|nodeID ids IH]; intros queue queue' Hq; simpl; [done|].
  destruct (raised_getVertex this this' nodeID Hr)
    as [(nd & nd' & -> & -> & Hn)|[-> ->]]; simpl; [|done].
  apply IH. apply Forall2_app; [done|]. by repeat constructor.
Qed.

Lemma buildNodeQueue_raised (this this' scc : CapGraph) :
  Forall2 entry_raised this this' →
  match buildNodeQueue this scc, buildNodeQueue this' scc with
  | Ok q, Ok q' => q.*1 = q'.*1
  | Throw e, Throw e' => e = e'
  | _, _ => False
  end.
Proof.
  intros Hr. unfold buildNodeQueue.
  pose proof (collect_nodes_raised this this' (getVertexIDs scc) [] [] Hr) as H.
  destruct (forEachM _ _ _) as [q| |], (forEachM _ _ _) as [q'| |]; simpl;
    try done; try (by apply H; constructor).
  specialize (H ltac:(constructor)).
  eapply (array_sort_related _ (λ a b : Z * CapNode, - compare a.2 b.2)) in H.
  - induction H as [|a b ? ? [Hab _] _ IH]; csimpl; [done|]. by rewrite Hab, IH.
  - intros a a' b b' [_ Ha] [_ Hb]. unfold compare, getNumNeighbors.
    by rewrite Ha, Hb.
Qed.

Lemma markTrendSetters_refs n (queue queue' : list (Z * CapNode)) (this : CapGraph) :
  queue.*1 = queue'.*1 →
  markTrendSetters n queue this = markTrendSetters n queue' this.
Proof.
  revert queue queue' this. induction n as [|n IH]; intros queue queue' this Hq;
    simpl; [done|].
  destruct queue as [|[ref nd] queue], queue' as [|[ref' nd'] queue'];
    csimpl in *; try done.
  injection Hq as -> Hq. by apply IH.
Qed.

Lemma map_alter_flagged (this : CapGraph) k :
  flag this k = true → map_alter (setIsTrendSetter true) this k = this.
Proof.
  unfold flag, node_at. induction this as [|[k' nd] this IH]; simpl; [done|].
  case_decide as Hk.
  - intros Hflag. f_equal. f_equal. destruct nd; simpl in *. by subst.
  - intros Hflag. f_equal. by apply IH.
Qed.

Lemma markTrendSetters_flagged n (queue : list (Z * CapNode)) (this : CapGraph) :
  (∀ k, k ∈ take n queue.*1 → flag this k = true) →
  markTrendSetters n queue this = this.
Proof.
  revert queue. induction n as [|n IH]; intros queue Hflag; simpl; [done|].
  destruct queue as [|[ref nd] queue]; csimpl in *.
  - apply IH. csimpl. rewrite take_nil. by intros k ?%elem_of_nil.
  - rewrite map_alter_flagged by (apply Hflag; left).
    apply IH. intros k Hk. apply Hflag. by right.
Qed.

(** Ranking a graph that already carries the flags of a ranking run
    changes nothing and ends as that run did. *)
Lemma rankComponents_again SCCList (this final : CapGraph) :
  Forall2 entry_raised this final →
  Forall2 entry_raised (rankComponents SCCList this).2 final →
  rankComponents SCCList final = ((rankComponents SCCList this).1, final).
Proof.
  revert this. induction SCCList as [|scc SCCList IH]; intros this Hr Hfinal;
    simpl in *; [done|].
  case_decide; [|by apply IH].
  pose proof (buildNodeQueue_raised this final scc Hr) as Hq.
  destruct (buildNodeQueue this scc) as [q| |] eqn:Hbuild,
    (buildNodeQueue final scc) as [q'| |]; try done; [|by subst].
  set (n := Z.to_nat _) in *. set (this1 := markTrendSetters n q this) in *.
  assert (Hr1 : Forall2 entry_raised this1 final).
  { eapply raised_trans; [apply raised_rankComponents | done]. }
  rewrite <-(markTrendSetters_refs n q q') by done.
  rewrite markTrendSetters_flagged; [by apply IH|].
  intros k Hk. eapply raised_flag; [exact Hr1|].
  unfold this1. rewrite flag_markTrendSetters.
  - rewrite bool_decide_eq_true_2 by done. apply orb_true_r.
  - apply buildNodeQueue_order in Hbuild as [Hrefs _].
    intros x (e & -> & He)%list_elem_of_fmap.
    eapply map_get_Some_key. by apply Hrefs.
Qed.

(** X21.  Running [identifyTrendSetters] a second time changes nothing: the
    same components are found, the same nodes are ranked first, and they
    carry their flag already.  The second run ends as the first did. *)
Theorem identifyTrendSetters_idempotent (g : CapGraph) :
  identifyTrendSetters (identifyTrendSetters g).2
  = ((identifyTrendSetters g).1, (identifyTrendSetters g).2).
Proof.
  pose proof (raised_identifyTrendSetters g) as Hr.
  unfold identifyTrendSetters at 1. unfold getSCCList.
  rewrite (raised_getSCCs g _ Hr).
  unfold identifyTrendSetters in *. unfold getSCCList in *.
  destruct (getSCCs g) as [sccs| |]; simpl in *; [|done..].
  apply rankComponents_again; [done | apply raised_refl].
Qed.

